(** * PaGMO: population migration primitives and the Corana simulated annealing

    A shallow embedding of

    - [GOclasses/basic/population.cpp]  (class [Population]), and
    - [src/algorithm/sa_corana.cpp]     (class [pagmo::algorithm::sa_corana]).

    Conventions of the embedding.

    - A C++ [double] is an idealised number: the rationals [Q] for
      [Population] (it compares them, truncates one product and, in
      [evaluateMean], adds and divides them, with the rounding of every
      result a parameter), and
      an interface [Numeric] for [sa_corana], which also needs [exp] and
      [pow].  What is proved for every instance of the interface holds of
      the arithmetic of [double] as well.  The interface is instantiated
      with [Q] (to run the code), with the real numbers [R] (to reason about
      [exp] on numbers that are exact and finite), and with either of them
      extended with NaN.
    - A C++ [int] is an integer [Z]; an index into a [std::vector] is a [Z]
      as well, and [std::vector::operator[]] outside [0, size) is undefined
      behaviour, reported as [Undefined].
    - A method that mutates [*this] or a reference argument returns the new
      value of what it may have mutated.
    - A random generator is a state with a function drawing the next double. *)

From Stdlib Require Import ZArith QArith Qround Qabs Reals Psatz Lia Bool String.
From stdpp Require Import base list.

(** ** Results of a call *)

(** What a call can end in: a value, a thrown exception ([pagmo_throw]) or
    undefined behaviour of the C++ abstract machine.  [Undefined u] says
    that the run reaches undefined behaviour of the kind [u] and nothing
    more: from there the language lets the program do anything, return a
    value, raise an exception or crash, so that no property of what is
    observed follows from it. *)
Inductive exn : Type :=
  | value_error (msg : string).

Inductive undefined : Type :=
  | out_of_range        (* std::vector::operator[] outside [0, size) *)
  | division_by_zero    (* integer division by 0 *)
  | signed_overflow.    (* overflow of an int multiplication *)

Inductive outcome (A : Type) : Type :=
  | Ok (a : A)
  | Throw (e : exn)
  | Undefined (u : undefined).

Arguments Ok {A} a.
Arguments Throw {A} e.
Arguments Undefined {A} u.

Definition obind {A B} (o : outcome A) (k : A -> outcome B) : outcome B :=
  match o with
  | Ok a => k a
  | Throw e => Throw e
  | Undefined u => Undefined u
  end.

Notation "'let*' x ':=' o 'in' k" := (obind o (fun x => k))
  (at level 10, x pattern, o at level 100, k at level 200, only parsing).

(** A detectable fault is an exception that the code itself throws. *)
Definition is_fault {A} (o : outcome A) : Prop := exists e, o = Throw e.

(** [std::vector<T>::operator[]] with an [int] index. *)
Definition vec_at {A} (v : list A) (n : Z) : outcome A :=
  if (n <? 0)%Z then Undefined out_of_range
  else match v !! Z.to_nat n with
       | Some a => Ok a
       | None => Undefined out_of_range
       end.

(** [v[n] = a]. *)
Definition vec_set {A} (v : list A) (n : Z) (a : A) : outcome (list A) :=
  let* _ := vec_at v n in Ok (<[Z.to_nat n := a]> v).


(** ** Numbers *)

(** What the two classes ask of a [double]: literals and conversions from
    integers ([lit]), the four operations, the comparisons [<] and [<=], the
    truncating cast to an integer type ([ntrunc]), and [fabs], [exp], [pow]
    of [<cmath>]. *)
Class Numeric (num : Type) : Type := {
  lit : Q -> num;
  nadd : num -> num -> num;
  nsub : num -> num -> num;
  nmul : num -> num -> num;
  ndiv : num -> num -> num;
  nlt : num -> num -> bool;
  nle : num -> num -> bool;
  ntrunc : num -> Z;
  nfabs : num -> num;
  nexp : num -> num;
  npow : num -> num -> num
}.

(** [(double) n] for an integer [n]. *)
Definition of_int {num : Type} `{!Numeric num} (n : Z) : num := lit (inject_Z n).

(** [x < y] and the cast [(int) x] (towards zero) on the rationals. *)
Definition Qltb (x y : Q) : bool := negb (Qle_bool y x).

Definition Qtrunc (x : Q) : Z :=
  if Qle_bool 0 x then Qfloor x else Qceiling x.

(** The rationals as numbers.  [exp] and [pow] are not rational functions:
    the instance takes them as arguments. *)
Definition QNumeric (qexp : Q -> Q) (qpow : Q -> Q -> Q) : Numeric Q := {|
  lit := fun q => q;
  nadd := Qplus; nsub := Qminus; nmul := Qmult; ndiv := Qdiv;
  nlt := Qltb; nle := Qle_bool;
  ntrunc := Qtrunc;
  nfabs := Qabs;
  nexp := qexp;
  npow := qpow
|}.

(** [x < y], [x <= y] and the cast [(int) x] on the real numbers. *)
Definition Rltb (x y : R) : bool := if Rlt_dec x y then true else false.
Definition Rleb (x y : R) : bool := if Rle_dec x y then true else false.
Definition Rtrunc (x : R) : Z :=
  if Rle_dec 0 x then Int_part x else (- Int_part (- x))%Z.

(** The real numbers as numbers, with the exponential of the library and
    [pow x y = exp (y * ln x)], which is [pow] for a positive base.  They
    stand for doubles that are finite and computed without rounding: what is
    proved with them is proved of such numbers only. *)
Definition RNumeric : Numeric R := {|
  lit := Q2R;
  nadd := Rplus; nsub := Rminus; nmul := Rmult; ndiv := Rdiv;
  nlt := Rltb; nle := Rleb;
  ntrunc := Rtrunc;
  nfabs := Rabs;
  nexp := exp;
  npow := Rpower
|}.

(** Numbers with a NaN beside them, as [double] has: an operation with a NaN
    among its arguments gives NaN, and a comparison with a NaN is false.
    (The cast of a NaN to an integer is undefined; no run below makes it.) *)
Definition with_nan {num : Type} (N : Numeric num) : Numeric (option num) := {|
  lit := fun q => Some (lit q);
  nadd := fun x y =>
    match x, y with Some a, Some b => Some (nadd a b) | _, _ => None end;
  nsub := fun x y =>
    match x, y with Some a, Some b => Some (nsub a b) | _, _ => None end;
  nmul := fun x y =>
    match x, y with Some a, Some b => Some (nmul a b) | _, _ => None end;
  ndiv := fun x y =>
    match x, y with Some a, Some b => Some (ndiv a b) | _, _ => None end;
  nlt := fun x y =>
    match x, y with Some a, Some b => nlt a b | _, _ => false end;
  nle := fun x y =>
    match x, y with Some a, Some b => nle a b | _, _ => false end;
  ntrunc := fun x => match x with Some a => ntrunc a | None => 0%Z end;
  nfabs := fun x => match x with Some a => Some (nfabs a) | None => None end;
  nexp := fun x => match x with Some a => Some (nexp a) | None => None end;
  npow := fun x y =>
    match x, y with Some a, Some b => Some (npow a b) | _, _ => None end
|}.

(** ** [GOclasses/basic/population.cpp] *)

Module Population.

(** Modelled from the spec: the class [Individual] is declared in a header
    that is not among the sources.  It holds a decision vector, a velocity
    vector and a cached scalar fitness, read and written by plain accessors
    and mutators. *)
Record Individual : Type := mkIndividual {
  getDecisionVector : list Q;
  getVelocity : list Q;
  getFitness : Q
}.

Definition setDecisionVector (i : Individual) (x : list Q) : Individual :=
  mkIndividual x (getVelocity i) (getFitness i).

Definition setVelocity (i : Individual) (v : list Q) : Individual :=
  mkIndividual (getDecisionVector i) v (getFitness i).

Definition setFitness (i : Individual) (f : Q) : Individual :=
  mkIndividual (getDecisionVector i) (getVelocity i) f.

(** The only data member: [std::vector<Individual> pop]. *)
Abbreviation Population := (list Individual).

Definition addIndividual (pop : Population) (x : Individual) : Population :=
  pop ++ [x].

Definition size (pop : Population) : Z := Z.of_nat (length pop).

(** [Individual& operator[](int index)]: [return pop[index]]. *)
Definition operator_subscript (pop : Population) (index : Z)
  : outcome Individual :=
  vec_at pop index.

(** Three assignments through [pop[n]], one per field. *)
Definition substituteIndividual (x : Individual) (n : Z) (pop : Population)
  : outcome Population :=
  let* i0 := vec_at pop n in
  let* pop1 := vec_set pop n (setDecisionVector i0 (getDecisionVector x)) in
  let* i1 := vec_at pop1 n in
  let* pop2 := vec_set pop1 n (setVelocity i1 (getVelocity x)) in
  let* i2 := vec_at pop2 n in
  vec_set pop2 n (setFitness i2 (getFitness x)).

(** What [extractRandomDeme] leaves behind: the population itself, the deme
    it returns, the caller's [picks] and the generator. *)
Record extraction (rng_type : Type) : Type := mkExtraction {
  ex_pop : Population;
  ex_deme : Population;
  ex_picks : list Z;
  ex_rng : rng_type
}.
Arguments mkExtraction {rng_type}.
Arguments ex_pop {rng_type}.
Arguments ex_deme {rng_type}.
Arguments ex_picks {rng_type}.
Arguments ex_rng {rng_type}.

Section Deme.

(** Modelled from the spec: [Pk::nextDouble(rng)] is declared outside the
    sources; it draws a double in [0,1) from the generator it is given and
    advances that generator. *)
Context {rng_type : Type} (nextDouble : rng_type -> Q * rng_type).

(** One round of the second loop of [extractRandomDeme]. *)
Definition extract_one (pop : Population)
  (st : list Z * list Z * Population * rng_type)
  : outcome (list Z * list Z * Population * rng_type) :=
  let '(PossiblePicks, picks, deme, rng) := st in
  let (d, rng') := nextDouble rng in
  let Pick := Qtrunc (d * inject_Z (Z.of_nat (length PossiblePicks))) in
  let* p := vec_at PossiblePicks Pick in
  let picks' := picks ++ [p] in
  let* ind := vec_at pop p in
  let deme' := addIndividual deme ind in
  Ok (delete (Z.to_nat Pick) PossiblePicks, picks', deme', rng').

Fixpoint extract_loop (n : nat) (pop : Population)
  (st : list Z * list Z * Population * rng_type)
  : outcome (list Z * list Z * Population * rng_type) :=
  match n with
  | O => Ok st
  | S n' => let* st' := extract_one pop st in extract_loop n' pop st'
  end.

(** [for (i = 0; i < pop.size(); i++) PossiblePicks.push_back(i)]. *)
Definition all_positions (pop : Population) : list Z :=
  Z.of_nat <$> seq 0 (length pop).

Definition extractRandomDeme (N : Z) (picks : list Z) (rng : rng_type)
  (pop : Population) : outcome (extraction rng_type) :=
  let* st := extract_loop (Z.to_nat N) pop (all_positions pop, picks, [], rng) in
  let '(_, picks', deme, rng') := st in
  Ok (mkExtraction pop deme picks' rng').

End Deme.

(** [insertDeme]: the loop over [i < picks.size()], at index [i] with the
    picks [picks[i], picks[i+1], ...] still to visit. *)
Fixpoint insertDeme_from (i : Z) (todo : list Z) (deme pop : Population)
  : outcome Population :=
  match todo with
  | [] => Ok pop
  | p :: todo' =>
      let* d := operator_subscript deme i in
      let* t := vec_at pop p in
      if Qltb (getFitness d) (getFitness t)
      then let* pop' := vec_set pop p d in
           insertDeme_from (i + 1) todo' deme pop'
      else insertDeme_from (i + 1) todo' deme pop
  end.

Definition insertDeme (deme : Population) (picks : list Z) (pop : Population)
  : outcome Population :=
  insertDeme_from 0 picks deme pop.

(** The four locals the scan of [insertBestInDeme] updates. *)
Record scan : Type := mkScan {
  bestindeme : Z;
  worstinpicks : Z;
  best : Q;
  worst : Q
}.

(** The body of [for (i = 1; i < Ndeme; i++)]. *)
Definition scan_step (deme : Population) (picks : list Z) (pop : Population)
  (i : Z) (s : scan) : outcome scan :=
  let* d := operator_subscript deme i in
  let s1 := if Qltb (getFitness d) (best s)
            then mkScan i (worstinpicks s) (getFitness d) (worst s)
            else s in
  let* p := vec_at picks i in
  let* t := vec_at pop p in
  Ok (if Qltb (worst s1) (getFitness t)
      then mkScan (bestindeme s1) i (best s1) (getFitness t)
      else s1).

(** [n] rounds of the loop, from index [i]. *)
Fixpoint scan_from (n : nat) (i : Z) (deme : Population) (picks : list Z)
  (pop : Population) (s : scan) : outcome scan :=
  match n with
  | O => Ok s
  | S n' => let* s' := scan_step deme picks pop i s in
            scan_from n' (i + 1) deme picks pop s'
  end.

Definition insertBestInDeme (deme : Population) (picks : list Z)
  (pop : Population) : outcome Population :=
  let Ndeme := size deme in
  let* d0 := operator_subscript deme 0 in
  let* p0 := vec_at picks 0 in
  let* t0 := vec_at pop p0 in
  let* s := scan_from (Z.to_nat (Ndeme - 1)) 1 deme picks pop
              (mkScan 0 0 (getFitness d0) (getFitness t0)) in
  let* pw := vec_at picks (worstinpicks s) in
  let* db := operator_subscript deme (bestindeme s) in
  vec_set pop pw db.

(** *** The other members of [Population] *)

(** [for (i = i0; i < i0 + n; i++) body], the body updating the locals [s]. *)
Fixpoint for_loop {L : Type} (n : nat) (i : Z) (body : Z -> L -> outcome L)
  (s : L) : outcome L :=
  match n with
  | O => Ok s
  | S n' => let* s' := body i s in for_loop n' (i + 1) body s'
  end.

(** [insertDemeForced]: as [insertDeme], without the test. *)
Fixpoint insertDemeForced_from (i : Z) (todo : list Z) (deme pop : Population)
  : outcome Population :=
  match todo with
  | [] => Ok pop
  | p :: todo' =>
      let* d := operator_subscript deme i in
      let* pop' := vec_set pop p d in
      insertDemeForced_from (i + 1) todo' deme pop'
  end.

Definition insertDemeForced (deme : Population) (picks : list Z)
  (pop : Population) : outcome Population :=
  insertDemeForced_from 0 picks deme pop.

(** [extractBestIndividual]: the locals are [f] and [index]. *)
Definition extractBestIndividual (pop : Population) : outcome Individual :=
  let* x0 := vec_at pop 0 in
  let* st :=
    for_loop (Z.to_nat (size pop - 1)) 1
      (fun i '(f, index) =>
         let* x := vec_at pop i in
         Ok (if Qltb (getFitness x) f then (getFitness x, i) else (f, index)))
      (getFitness x0, 0%Z) in
  vec_at pop (snd st).

(** [extractWorstIndividual]: the same scan with [>]. *)
Definition extractWorstIndividual (pop : Population) : outcome Individual :=
  let* x0 := vec_at pop 0 in
  let* st :=
    for_loop (Z.to_nat (size pop - 1)) 1
      (fun i '(f, index) =>
         let* x := vec_at pop i in
         Ok (if Qltb f (getFitness x) then (getFitness x, i) else (f, index)))
      (getFitness x0, 0%Z) in
  vec_at pop (snd st).

Section Rounding.

(** The arithmetic of [double] rounds: a sum or a quotient of two doubles
    is the double that [fl] gives for the exact sum or quotient. *)
Context (fl : Q -> Q).

(** [evaluateMean]: the sum of the fitnesses, rounded at every addition,
    over [(double) size].  For an empty population the source computes
    0.0 / 0.0, which is no number; the properties leave that case out. *)
Definition evaluateMean (pop : Population) : outcome Q :=
  let size := size pop in
  let* mean :=
    for_loop (Z.to_nat size) 0
      (fun i mean => let* x := vec_at pop i in Ok (fl (mean + getFitness x)%Q))
      0%Q in
  Ok (fl (mean / inject_Z size)%Q).

End Rounding.

(** [void operator=(Population newpop)]: the members of [newpop] are pushed
    one by one on the emptied vector. *)
Definition operator_assign (newpop pop : Population) : outcome Population :=
  for_loop (Z.to_nat (size newpop)) 0
    (fun i acc =>
       let* x := operator_subscript newpop i in Ok (addIndividual acc x))
    [].

(** [void operator=(Individual x)]. *)
Definition operator_assign_individual (x : Individual) (pop : Population)
  : Population :=
  addIndividual [] x.

Section Members.

(** The methods of [Individual] that the loops below call are declared
    outside the sources; they are taken as they are called: each updates
    the individual it is called on, the first two drawing from the
    generator. *)
Context {rng_type : Type}.
Context (createRandomIndividual :
           list Q -> list Q -> Individual -> rng_type -> Individual * rng_type).
Context (resetVelocity :
           list Q -> list Q -> Individual -> rng_type -> Individual * rng_type).
Context {GOProblem : Type}.
Context (evaluateFitness : GOProblem -> Individual -> Individual).

(** [createRandomPopulation]: one local [x], initialised each round and
    pushed on the emptied vector; [x0] is the default-constructed [x]. *)
Fixpoint create_loop (n : nat) (LB UB : list Q) (x : Individual)
  (pop : Population) (rng : rng_type) : Population * rng_type :=
  match n with
  | O => (pop, rng)
  | S n' =>
      let (x', rng') := createRandomIndividual LB UB x rng in
      create_loop n' LB UB x' (addIndividual pop x') rng'
  end.

Definition createRandomPopulation (x0 : Individual) (LB UB : list Q) (N : Z)
  (rng : rng_type) (pop : Population) : Population * rng_type :=
  create_loop (Z.to_nat N) LB UB x0 [] rng.

(** [resetVelocities]: [pop[j].resetVelocity(LB, UB, rng)] for every [j]. *)
Definition resetVelocities (LB UB : list Q) (rng : rng_type)
  (pop : Population) : outcome (Population * rng_type) :=
  for_loop (length pop) 0
    (fun j '(pop, rng) =>
       let* x := vec_at pop j in
       let (x', rng') := resetVelocity LB UB x rng in
       let* pop' := vec_set pop j x' in
       Ok (pop', rng'))
    (pop, rng).

(** [evaluatePopulation]: [pop[i].evaluateFitness(problem)] for every [i]. *)
Definition evaluatePopulation (problem : GOProblem) (pop : Population)
  : outcome Population :=
  for_loop (length pop) 0
    (fun i pop =>
       let* x := vec_at pop i in vec_set pop i (evaluateFitness problem x))
    pop.

End Members.

End Population.

(** ** The collaborators of [sa_corana] *)

(** [decision_vector] and [fitness_vector] are vectors of doubles. *)
Definition decision_vector (num : Type) : Type := list num.
Definition fitness_vector (num : Type) : Type := list num.

(** [v[i]] for an index that the class invariants keep in range: every
    vector indexed by [evolve] has the dimension [D] of the problem and every
    index is below [Dc <= D].  The default is returned outside that range
    only, where the source has no defined value. *)
Definition vget {num : Type} `{!Numeric num} (v : list num) (i : nat) : num :=
  default (lit 0) (v !! i).

Definition iget (v : list Z) (i : nat) : Z := default 0%Z (v !! i).

Module problem.

(** Modelled from the spec: [problem::base] is declared outside the sources.
    A problem has a dimension, of which the trailing [get_i_dimension]
    components are integer, a number of constraints, a number of objectives,
    bounds, an evaluation [objfun] (which writes its first argument: here it
    returns it) and the strict preference [compare_fitness]. *)
Record base (num : Type) : Type := mkProblem {
  get_dimension : nat;
  get_i_dimension : nat;
  get_c_dimension : nat;
  get_f_dimension : nat;
  get_lb : decision_vector num;
  get_ub : decision_vector num;
  objfun : decision_vector num -> fitness_vector num;
  compare_fitness : fitness_vector num -> fitness_vector num -> bool
}.
Arguments mkProblem {num}.
Arguments get_dimension {num}.
Arguments get_i_dimension {num}.
Arguments get_c_dimension {num}.
Arguments get_f_dimension {num}.
Arguments get_lb {num}.
Arguments get_ub {num}.
Arguments objfun {num}.
Arguments compare_fitness {num}.

End problem.

Module population.

(** Modelled from the spec: [pagmo::population] is declared outside the
    sources.  An individual has a current decision vector, velocity and
    fitness; a population is an ordered collection of individuals bound to a
    problem. *)
Record individual_type (num : Type) : Type := mkIndividual {
  cur_x : decision_vector num;
  cur_v : decision_vector num;
  cur_f : fitness_vector num
}.
Arguments mkIndividual {num}.
Arguments cur_x {num}.
Arguments cur_v {num}.
Arguments cur_f {num}.

Record t (num : Type) : Type := mkPopulation {
  problem : problem.base num;
  m_container : list (individual_type num)
}.
Arguments mkPopulation {num}.
Arguments problem {num}.
Arguments m_container {num}.

Section Operations.

Context {num : Type}.

(** Whether the setter of a decision vector refreshes the cached fitness.
    The spec has it that the cache is never refreshed by a mutator; the call
    in [evolve] is commented "new evaluation is possible here".  Both
    behaviours are covered. *)
Variable set_x_evaluates : bool.

(** Modelled from the spec: access by a valid index, a failure otherwise. *)
Definition get_individual (pop : t num) (idx : nat)
  : outcome (individual_type num) :=
  match m_container pop !! idx with
  | Some i => Ok i
  | None => Throw (value_error "invalid index")
  end.

(** Modelled from the spec: the best individual is found by a linear scan
    with the comparison of the problem, the first occurrence winning a tie;
    it fails on an empty population. *)
Fixpoint best_from (cmp : fitness_vector num -> fitness_vector num -> bool)
  (idx : nat) (f : fitness_vector num) (i : nat)
  (rest : list (individual_type num)) : nat :=
  match rest with
  | [] => idx
  | y :: rest' =>
      if cmp (cur_f y) f
      then best_from cmp i (cur_f y) (S i) rest'
      else best_from cmp idx f (S i) rest'
  end.

Definition get_best_idx (pop : t num) : outcome nat :=
  match m_container pop with
  | [] => Throw (value_error "empty population")
  | y :: rest =>
      Ok (best_from (problem.compare_fitness (problem pop)) 0 (cur_f y) 1 rest)
  end.

(** Modelled from the spec: the decision vector of individual [idx] is
    overwritten with [x]; the index must be valid. *)
Definition set_x (pop : t num) (idx : nat) (x : decision_vector num)
  : outcome (t num) :=
  let* i := get_individual pop idx in
  let f := if set_x_evaluates then problem.objfun (problem pop) x
           else cur_f i in
  Ok (mkPopulation (problem pop)
        (<[idx := mkIndividual x (cur_v i) f]> (m_container pop))).

(** Modelled from the spec: the velocity of individual [idx] is overwritten
    with [v]; the index must be valid. *)
Definition set_v (pop : t num) (idx : nat) (v : decision_vector num)
  : outcome (t num) :=
  let* i := get_individual pop idx in
  Ok (mkPopulation (problem pop)
        (<[idx := mkIndividual (cur_x i) v (cur_f i)]> (m_container pop))).

End Operations.

End population.

(** ** [src/algorithm/sa_corana.cpp] *)

Module sa_corana.

(** The widths of [int] and [size_t] (LP64). *)
Definition INT_MAX : Z := 2 ^ 31 - 1.
Definition INT_MIN : Z := - 2 ^ 31.
Definition SIZE_MOD : Z := 2 ^ 64.

(** How a per-dimension move ended. *)
Inductive verdict : Type :=
  | Infeasible   (* out of the bounds: reverted *)
  | Improved     (* accepted by [compare_fitness] *)
  | Boltzmann    (* accepted by the Boltzmann test *)
  | Reverted.    (* rejected by the Boltzmann test *)

(** A record of one move, kept beside the state to speak about a whole run:
    the dimension moved, how the move ended, the point given to [objfun]
    (if the objective function was called) and the working point [xOLD] once
    the move is over. *)
Record move_record (num : Type) : Type := mkMove {
  mv_dim : nat;
  mv_verdict : verdict;
  mv_evaluated : option (decision_vector num);
  mv_x : decision_vector num
}.
Arguments mkMove {num}.
Arguments mv_dim {num}.
Arguments mv_verdict {num}.
Arguments mv_evaluated {num}.
Arguments mv_x {num}.

Section Algorithm.

Context {num : Type} `{!Numeric num}.

(** The data members set by the constructor. *)
Record t : Type := mkAlgorithm {
  m_niter : Z;
  m_Ts : num;
  m_Tf : num;
  m_niterT : Z;
  m_niterR : Z;
  m_range : num
}.

(** The constructor [sa_corana::sa_corana]. *)
Definition sa_corana (niter : Z) (Ts Tf : num) (niterT niterR : Z)
  (range : num) : outcome t :=
  if (niter <? 0)%Z then
    Throw (value_error "number of iterations must be nonnegative")
  else if nle Ts (lit 0) || nle Tf (lit 0) || nle Ts Tf then
    Throw (value_error
      "temperatures must be positive and Ts must be greater than Tf")
  else if (niterT <? 0)%Z then
    Throw (value_error
      "number of iteration before adjusting the temperature must be positive")
  else if (niterR <? 0)%Z then
    Throw (value_error
      "number of iteration before adjusting the neighbourhood must be positive")
  else if nlt range (lit 0) || nlt (lit 1) range then
    Throw (value_error "Initial range must be between 0 and 1")
  else Ok (mkAlgorithm niter Ts Tf niterT niterR range).

(** The generator [m_drng] of the algorithm: a state and the draw of the
    next double of [0,1). *)
Context {rng_double : Type} (m_drng : rng_double -> num * rng_double).

(** The locals of [evolve] that the loops update, the generator, and the
    record of the moves made so far (latest first). *)
Record state : Type := mkState {
  xNEW : decision_vector num;
  xOLD : decision_vector num;
  fNEW : fitness_vector num;
  fOLD : fitness_vector num;
  Step : decision_vector num;
  acp : list Z;
  currentT : num;
  drng : rng_double;
  moves : list (move_record num)
}.

Section Evolve.

Variable a : t.
Variable prob : problem.base num.

Let lb := problem.get_lb prob.
Let ub := problem.get_ub prob.

(** [niterOuter = m_niter / (m_niterT * m_niterR * Dc)]: an [int] product,
    converted to [size_t] and multiplied by [Dc] modulo 2^64, then an
    unsigned division of [m_niter], which is not negative and keeps its
    value when converted. *)
Definition niterOuter (Dc : nat) : outcome Z :=
  let p := (m_niterT a * m_niterR a)%Z in
  if (INT_MAX <? p)%Z || (p <? INT_MIN)%Z then Undefined signed_overflow
  else
    let d := ((p * Z.of_nat Dc) mod SIZE_MOD)%Z in
    if (d =? 0)%Z then Undefined division_by_zero
    else Ok (m_niter a / d)%Z.

(** The body of [for (numb = 0; numb < Dc; ++numb)], once [nter] has been
    advanced: the move of component [nter]. *)
Definition move (nter : nat) (s : state) : state :=
  let (d, g1) := m_drng (drng s) in
  let r := nsub (nmul (lit 2) d) (lit 1) in
  let cand := nadd (vget (xOLD s) nter)
                (nmul (nmul r (vget (Step s) nter))
                      (nsub (vget ub nter) (vget lb nter))) in
  let xNEW1 := <[nter := cand]> (xNEW s) in
  if nlt (vget ub nter) (vget xNEW1 nter) || nlt (vget xNEW1 nter) (vget lb nter)
  then
    let xNEW2 := <[nter := vget (xOLD s) nter]> xNEW1 in
    mkState xNEW2 (xOLD s) (fNEW s) (fOLD s) (Step s) (acp s) (currentT s) g1
      (mkMove nter Infeasible None (xOLD s) :: moves s)
  else
    let fNEW1 := problem.objfun prob xNEW1 in
    if problem.compare_fitness prob fNEW1 (fOLD s) then
      let xOLD1 := <[nter := vget xNEW1 nter]> (xOLD s) in
      mkState xNEW1 xOLD1 fNEW1 fNEW1 (Step s)
        (<[nter := (iget (acp s) nter + 1)%Z]> (acp s)) (currentT s) g1
        (mkMove nter Improved (Some xNEW1) xOLD1 :: moves s)
    else
      let probab :=
        nexp (ndiv (nfabs (nsub (vget (fOLD s) 0) (vget fNEW1 0)))
                   (currentT s)) in
      let (u, g2) := m_drng g1 in
      if nlt u probab then
        let xOLD1 := <[nter := vget xNEW1 nter]> (xOLD s) in
        mkState xNEW1 xOLD1 fNEW1 fNEW1 (Step s)
          (<[nter := (iget (acp s) nter + 1)%Z]> (acp s)) (currentT s) g2
          (mkMove nter Boltzmann (Some xNEW1) xOLD1 :: moves s)
      else
        let xNEW2 := <[nter := vget (xOLD s) nter]> xNEW1 in
        mkState xNEW2 (xOLD s) fNEW1 (fOLD s) (Step s) (acp s) (currentT s) g2
          (mkMove nter Reverted (Some xNEW1) (xOLD s) :: moves s).

(** [numb] rounds of the loop over the components, [nter] being the
    component visited last. *)
Fixpoint visit (Dc numb nter : nat) (s : state) : state :=
  match numb with
  | O => s
  | S numb' =>
      let nter' := ((nter + 1) mod Dc)%nat in
      visit Dc numb' nter' (move nter' s)
  end.

(** The body of [for (kter = 0; kter < m_niterR; ++kter)]: a random first
    component, then a visit of the [Dc] components in rotation. *)
Definition sweep (Dc : nat) (s : state) : state :=
  let (d, g1) := m_drng (drng s) in
  let nter := Z.to_nat (ntrunc (nmul d (of_int (Z.of_nat Dc)))) in
  visit Dc Dc nter
    (mkState (xNEW s) (xOLD s) (fNEW s) (fOLD s) (Step s) (acp s)
       (currentT s) g1 (moves s)).

(** The body of [for (iter = 0; iter < Dc; ++iter)]: the step of component
    [iter] is adapted to the share of accepted moves. *)
Definition adjust (iter : nat) (s : state) : state :=
  let ratio := ndiv (of_int (iget (acp s) iter)) (of_int (m_niterR a)) in
  let acp1 := <[iter := 0%Z]> (acp s) in
  let st := vget (Step s) iter in
  let st1 :=
    if nlt (lit 0.6) ratio then
      nmul st (nadd (lit 1)
                 (ndiv (nmul (lit 2) (nsub ratio (lit 0.6))) (lit 0.4)))
    else if nlt ratio (lit 0.4) then
      ndiv st (nadd (lit 1)
                 (nmul (lit 2) (ndiv (nsub (lit 0.4) ratio) (lit 0.4))))
    else st in
  let st2 := if nlt (m_range a) st1 then m_range a else st1 in
  mkState (xNEW s) (xOLD s) (fNEW s) (fOLD s) (<[iter := st2]> (Step s)) acp1
    (currentT s) (drng s) (moves s).

Definition adjust_all (Dc : nat) (s : state) : state :=
  foldl (fun s iter => adjust iter s) s (seq 0 Dc).

(** The body of [for (mter = 0; mter < m_niterT; ++mter)]. *)
Definition stage (Dc : nat) (s : state) : state :=
  adjust_all Dc (Nat.iter (Z.to_nat (m_niterR a)) (sweep Dc) s).

(** The body of [for (jter = 0; jter < niterOuter; ++jter)], which ends with
    the cooling [currentT *= Tcoeff]. *)
Definition cool (Tcoeff : num) (s : state) : state :=
  mkState (xNEW s) (xOLD s) (fNEW s) (fOLD s) (Step s) (acp s)
    (nmul (currentT s) Tcoeff) (drng s) (moves s).

Definition anneal (Dc : nat) (Tcoeff : num) (s : state) : state :=
  cool Tcoeff (Nat.iter (Z.to_nat (m_niterT a)) (stage Dc) s).

End Evolve.

(** What [evolve] leaves behind: the population, the generator and the
    moves it made, in the order it made them. *)
Record evolved : Type := mkEvolved {
  ev_pop : population.t num;
  ev_rng : rng_double;
  ev_moves : list (move_record num)
}.

Variable set_x_evaluates : bool.

(** The main loops of [evolve], from the initial locals. *)
Definition initial (a : t) (D : nat) (x0 : decision_vector num)
  (fit0 : fitness_vector num) (g : rng_double) : state :=
  mkState x0 x0 fit0 fit0 (replicate D (m_range a)) (replicate D 0%Z)
    (m_Ts a) g [].

Definition Tcoeff (a : t) (n : Z) : num :=
  npow (ndiv (m_Tf a) (m_Ts a)) (ndiv (lit 1) (of_int n)).

Definition main_loops (a : t) (prob : problem.base num) (Dc : nat) (n : Z)
  (s : state) : state :=
  Nat.iter (Z.to_nat n) (anneal a prob Dc (Tcoeff a n)) s.

(** [sa_corana::evolve].  [x0] and [fit0] are references into the best
    individual; they are read before [set_x] only.  The difference computed
    by [std::transform] reads [pop.get_individual(bestidx).cur_x] after
    [set_x] has been called. *)
Definition evolve (a : t) (pop : population.t num) (g : rng_double)
  : outcome evolved :=
  let prob := population.problem pop in
  let D := problem.get_dimension prob in
  let prob_i_dimension := problem.get_i_dimension prob in
  let prob_c_dimension := problem.get_c_dimension prob in
  let prob_f_dimension := problem.get_f_dimension prob in
  let Dc := (D - prob_i_dimension)%nat in
  if (Dc =? 0)%nat then
    Throw (value_error "There is no continuous part in the problem decision vector for sa_corana to optimise")
  else if negb (prob_c_dimension =? 0)%nat then
    Throw (value_error "The problem is not box constrained and sa_corana is not suitable to solve it")
  else if negb (prob_f_dimension =? 1)%nat then
    Throw (value_error "The problem is not single objective and sa_corana is not suitable to solve it")
  else
    let* n := niterOuter a Dc in
    if (n =? 0)%Z then
      Throw (value_error "niterOuter is zero, increase niter")
    else
      let* bestidx := population.get_best_idx pop in
      let* best := population.get_individual pop bestidx in
      let x0 := population.cur_x best in
      let fit0 := population.cur_f best in
      let s := main_loops a prob Dc n (initial a D x0 fit0 g) in
      if problem.compare_fitness prob (fOLD s) fit0 then
        let* pop1 := population.set_x set_x_evaluates pop bestidx (xOLD s) in
        let* stored := population.get_individual pop1 bestidx in
        let delta := zip_with nsub (xOLD s) (population.cur_x stored) in
        let* pop2 := population.set_v pop1 bestidx delta in
        Ok (mkEvolved pop2 (drng s) (rev (moves s)))
      else
        Ok (mkEvolved pop (drng s) (rev (moves s))).

End Algorithm.

End sa_corana.

(** * The vocabulary of the properties *)

(** ** For the migration primitives *)

Module PopulationSpec.
Import Population.

(** A pool of candidate positions: distinct valid indices of [pop]. *)
Definition pool_ok (pop : Population) (PossiblePicks : list Z) : Prop :=
  NoDup PossiblePicks /\
  forall p, p ∈ PossiblePicks -> (0 <= p < size pop)%Z.

(** [db], at index [b], is the fittest among the first [i] members of the
    deme, and the first such. *)
Definition first_best_upto (deme : Population) (i b : nat) (db : Individual)
  : Prop :=
  b < i /\ deme !! b = Some db /\
  (forall k d, k < i -> deme !! k = Some d ->
     (getFitness db <= getFitness d)%Q) /\
  (forall k d, k < b -> deme !! k = Some d ->
     (getFitness db < getFitness d)%Q).

(** [picks[w]] is the position of the least fit individual among the
    positions [picks[0], ..., picks[i-1]], and the first such. *)
Definition first_worst_upto (pop : Population) (picks : list Z) (i w : nat)
  (tw : Individual) : Prop :=
  w < i /\
  (exists pw, picks !! w = Some pw /\ (0 <= pw)%Z /\
              pop !! Z.to_nat pw = Some tw) /\
  (forall k p t, k < i -> picks !! k = Some p -> pop !! Z.to_nat p = Some t ->
     (getFitness t <= getFitness tw)%Q) /\
  (forall k p t, k < w -> picks !! k = Some p -> pop !! Z.to_nat p = Some t ->
     (getFitness t < getFitness tw)%Q).

Definition first_best (deme : Population) (b : nat) (db : Individual) : Prop :=
  first_best_upto deme (length deme) b db.

Definition first_worst (pop : Population) (picks : list Z) (w : nat)
  (tw : Individual) : Prop :=
  first_worst_upto pop picks (length picks) w tw.

(** The invariant of the scan before the round of index [i]. *)
Definition scan_inv (deme : Population) (picks : list Z) (pop : Population)
  (i : nat) (s : scan) : Prop :=
  exists b w db tw,
    bestindeme s = Z.of_nat b /\ worstinpicks s = Z.of_nat w /\
    best s = getFitness db /\ worst s = getFitness tw /\
    first_best_upto deme i b db /\ first_worst_upto pop picks i w tw.

(** [x], at index [w], is the least fit member of [pop], and the first
    such. *)
Definition first_least_fit (pop : Population) (w : nat) (x : Individual)
  : Prop :=
  pop !! w = Some x /\
  (forall k d, pop !! k = Some d -> (getFitness d <= getFitness x)%Q) /\
  (forall k d, k < w -> pop !! k = Some d -> (getFitness d < getFitness x)%Q).

(** The sum of the fitnesses as the loop of [evaluateMean] computes it,
    every addition rounded by [fl]. *)
Definition rounded_sum (fl : Q -> Q) (a : Q) (pop : Population) : Q :=
  foldl (fun acc x => fl (acc + getFitness x)%Q) a pop.

(** A rounding for the examples: down to a multiple of 1/8. *)
Definition to_eighths (q : Q) : Q := (inject_Z (Qfloor (q * 8)) / 8)%Q.

(** The members of [deme] are copies of the individuals of [pop] at the
    positions [picks], in this order. *)
Definition copies (pop : Population) (picks : list Z) (deme : Population)
  : Prop :=
  Forall2 (fun p d => vec_at pop p = Ok d) picks deme.

(** Every pick is a position of [pop], and [deme] has a member for it. *)
Definition placeable (deme : Population) (picks : list Z) (pop : Population)
  : Prop :=
  (forall p, p ∈ picks -> (0 <= p < size pop)%Z) /\
  length picks <= length deme.

(** Updating the members one after the other, the generator passing from
    each to the next. *)
Fixpoint each_in_turn {rng_type : Type}
  (f : Individual -> rng_type -> Individual * rng_type) (pop : Population)
  (rng : rng_type) : Population * rng_type :=
  match pop with
  | [] => ([], rng)
  | x :: pop' =>
      let (x', rng') := f x rng in
      let (r, rng'') := each_in_turn f pop' rng' in
      (x' :: r, rng'')
  end.

(** A [createRandomIndividual] for the examples: it stores the bounds and
    counts its calls in the fitness. *)
Definition fresh (LB UB : list Q) (x : Individual) (g : nat)
  : Individual * nat :=
  (mkIndividual LB UB (getFitness x + 1), S g).

(** A generator for the examples: every draw is 1/2. *)
Definition halves (g : nat) : Q * nat := (1 # 2, S g).

(** Individuals for the examples, named after their fitness. *)
Definition ind3 : Individual := mkIndividual [1%Q] [0%Q] 3%Q.
Definition ind5 : Individual := mkIndividual [2%Q] [0%Q] 5%Q.
Definition ind7 : Individual := mkIndividual [4%Q] [0%Q] 7%Q.

End PopulationSpec.

(** ** For the simulated annealing *)

Module SaCoranaSpec.
Import sa_corana.

Section Moves.

Context {num : Type} `{!Numeric num} {rng_double : Type}.
Context (m_drng : rng_double -> num * rng_double).
Context (prob : problem.base num).

(** The candidate value of component [nter]: the working value plus a step
    drawn in the range of the component. *)
Definition candidate (nter : nat) (s : state) : num :=
  nadd (vget (xOLD s) nter)
    (nmul (nmul (nsub (nmul (lit 2) (fst (m_drng (drng s)))) (lit 1))
                (vget (Step s) nter))
          (nsub (vget (problem.get_ub prob) nter)
                (vget (problem.get_lb prob) nter))).

(** The test of the source on a component: above the upper bound or below
    the lower bound. *)
Definition outside (nter : nat) (c : num) : bool :=
  nlt (vget (problem.get_ub prob) nter) c ||
  nlt c (vget (problem.get_lb prob) nter).

(** The quantity compared with a draw in the Boltzmann test. *)
Definition probab (s : state (rng_double := rng_double))
  (fnew : fitness_vector num) : num :=
  nexp (ndiv (nfabs (nsub (vget (fOLD s) 0) (vget fnew 0))) (currentT s)).

(** A point is within the bounds if no component fails the test. *)
Definition within (x : decision_vector num) : Prop :=
  forall i c, x !! i = Some c -> outside i c = false.

(** Between two moves: the candidate vector is the working vector; the
    working point is within the bounds, and was after every move made so
    far; the working fitness is the fitness at the start with the working
    point the point at the start, or it is the value of the objective
    function at the working point. *)
Definition sound (x0 : decision_vector num) (fit0 : fitness_vector num)
  (s : state (num := num) (rng_double := rng_double)) : Prop :=
  xNEW s = xOLD s /\ within (xOLD s) /\
  Forall (fun m => within (mv_x m)) (moves s) /\
  ((fOLD s = fit0 /\ xOLD s = x0) \/
   fOLD s = problem.objfun prob (xOLD s)).

End Moves.

Section Best.

Context {num : Type}.

(** A strict preference that ranks: irreflexive, transitive, and with a
    transitive "not preferred to". *)
Record ranking (cmp : fitness_vector num -> fitness_vector num -> bool)
  : Prop := mkRanking {
  rank_irrefl : forall f, cmp f f = false;
  rank_trans : forall f g h, cmp f g = true -> cmp g h = true -> cmp f h = true;
  rank_neg_trans :
    forall f g h, cmp f g = false -> cmp g h = false -> cmp f h = false
}.

(** The fitness of the individual that [get_best_idx] designates. *)
Definition best_fitness (pop : population.t num)
  : outcome (fitness_vector num) :=
  let* b := population.get_best_idx pop in
  let* i := population.get_individual pop b in
  Ok (population.cur_f i).

End Best.

Section Evolve.

Context {num : Type} `{!Numeric num} {rng_double : Type}.
Context (m_drng : rng_double -> num * rng_double).
Context (set_x_evaluates : bool).

(** The state in which the main loops of [evolve] end. *)
Definition final_state (a : t) (pop : population.t num)
  (best : population.individual_type num) (n : Z) (g : rng_double) : state :=
  let prob := population.problem pop in
  main_loops m_drng a prob
    (problem.get_dimension prob - problem.get_i_dimension prob) n
    (initial a (problem.get_dimension prob) (population.cur_x best)
       (population.cur_f best) g).

(** What [evolve] writes to the best individual: the last working point,
    the difference of that point with the decision vector read back from
    the population, and the fitness that [set_x] leaves. *)
Definition written (pop : population.t num)
  (best : population.individual_type num) (s : state (rng_double := rng_double))
  : population.individual_type num :=
  population.mkIndividual (xOLD s) (zip_with nsub (xOLD s) (xOLD s))
    (if set_x_evaluates
     then problem.objfun (population.problem pop) (xOLD s)
     else population.cur_f best).

End Evolve.

(** Between two moves of a run at a positive temperature: no move made so
    far was reverted by the Boltzmann test, and every point that was
    evaluated became the working point. *)
Definition hot {rng_double : Type}
  (s : state (num := R) (rng_double := rng_double)) : Prop :=
  xNEW s = xOLD s /\ (0 < currentT s)%R /\
  Forall (fun m => mv_verdict m <> Reverted /\
                   forall x, mv_evaluated m = Some x -> mv_x m = x)
    (moves s).

(** Between two moves of a run over the real numbers: the candidate vector
    is the working vector and the temperature is positive. *)
Definition ready {rng_double : Type}
  (s : state (num := R) (rng_double := rng_double)) : Prop :=
  xNEW s = xOLD s /\ (0 < currentT s)%R.

(** *** The loops *)

Section Loops.

Context {num : Type} `{!Numeric num} {rng_double : Type}.
Context (m_drng : rng_double -> num * rng_double).

(** The continuous dimension [Dc = D - prob_i_dimension]. *)
Definition continuous (prob : problem.base num) : nat :=
  problem.get_dimension prob - problem.get_i_dimension prob.

(** The moves of one round of the outer loop:
    [m_niterT * m_niterR * Dc]. *)
Definition schedule (a : t (num := num)) (prob : problem.base num) : Z :=
  (m_niterT a * m_niterR a * Z.of_nat (continuous prob))%Z.

(** The components visited by [numb] rounds of the loop over the
    components, after [nter]. *)
Definition rotation (Dc nter numb : nat) : list nat :=
  map (fun k => (nter + k) mod Dc) (seq 1 numb).

(** The value of [nter] that a sweep draws: [(size_t)(m_drng() * Dc)]. *)
Definition first_component (Dc : nat)
  (s : state (num := num) (rng_double := rng_double)) : nat :=
  Z.to_nat (ntrunc (nmul (fst (m_drng (drng s))) (of_int (Z.of_nat Dc)))).

(** The point that a move of component [nter] proposes: the working point
    with the candidate value at [nter]. *)
Definition proposed (prob : problem.base num) (nter : nat)
  (s : state (num := num) (rng_double := rng_double)) : decision_vector num :=
  <[nter := candidate m_drng prob nter s]> (xOLD s).

(** The working point has the length of [x0] and its components from [Dc]
    on. *)
Definition beyond (Dc : nat) (x0 : decision_vector num)
  (s : state (num := num) (rng_double := rng_double)) : Prop :=
  length (xOLD s) = length x0 /\
  forall i, Dc <= i -> xOLD s !! i = x0 !! i.

(** The step that [adjust] leaves for a component whose step was [st] and
    that accepted [accepted] moves. *)
Definition adapted (a : t (num := num)) (st : num) (accepted : Z) : num :=
  let ratio := ndiv (of_int accepted) (of_int (m_niterR a)) in
  let st1 :=
    if nlt (lit 0.6) ratio then
      nmul st (nadd (lit 1)
                 (ndiv (nmul (lit 2) (nsub ratio (lit 0.6))) (lit 0.4)))
    else if nlt ratio (lit 0.4) then
      ndiv st (nadd (lit 1)
                 (nmul (lit 2) (ndiv (nsub (lit 0.4) ratio) (lit 0.4))))
    else st in
  if nlt (m_range a) st1 then m_range a else st1.

(** Between two moves the working fitness is the one the run started with,
    at the point it started from, or the value of the objective function at
    the working point. *)
Definition cached (prob : problem.base num) (x0 : decision_vector num)
  (fit0 : fitness_vector num)
  (s : state (num := num) (rng_double := rng_double)) : Prop :=
  xNEW s = xOLD s /\
  ((fOLD s = fit0 /\ xOLD s = x0) \/ fOLD s = problem.objfun prob (xOLD s)).

End Loops.

(** Over the rationals: [D] steps, each between 0 and the initial range
    and positive if the range is. *)
Definition steps_in_range {rng_double : Type} (a : t (num := Q)) (D : nat)
  (s : state (num := Q) (rng_double := rng_double)) : Prop :=
  length (Step s) = D /\
  forall i st, Step s !! i = Some st ->
    (0 <= st)%Q /\ (st <= m_range a)%Q /\ ((0 < m_range a)%Q -> (0 < st)%Q).

(** *** Data for running the code *)

(** The rationals with stand-ins for the two transcendental functions: the
    tangent of [exp] at 0 and the value of [pow] at the exponent 1.  They
    serve to run the code on examples only; the properties are proved for
    every instance of [Numeric]. *)
Definition Qdemo : Numeric Q :=
  QNumeric (fun x => 1 + x)%Q (fun b _ => b).

(** A generator that repeats a finite list of draws. *)
Definition cycle (draws : list Q) (g : nat) : Q * nat :=
  (default 0%Q (draws !! (g mod length draws)%nat), S g).

(** The sum of squares over a box, lower fitness being better. *)
Definition sphere (D : nat) (lb ub : list Q) : problem.base Q :=
  problem.mkProblem D 0 0 1 lb ub
    (fun x => [foldr Qplus 0%Q (map (fun c => c * c)%Q x)])
    (fun f g => Qltb (default 0%Q (f !! 0%nat)) (default 0%Q (g !! 0%nat))).

Definition sphere1 : problem.base Q := sphere 1 [-5]%Q [5]%Q.

(** Two individuals on the line, with their fitness evaluated. *)
Definition pop1 : population.t Q :=
  population.mkPopulation sphere1
    [population.mkIndividual [3]%Q [0]%Q [9]%Q;
     population.mkIndividual [4]%Q [0]%Q [16]%Q].

(** One move per run: a budget of one iteration, periods of one. *)
Definition one_move : t (num := Q) := mkAlgorithm 1 10%Q 0.1%Q 1 1 0.5%Q.

(** The first move of the run [one_move_run], as a state. *)
Definition start1 : state (num := Q) (rng_double := nat) :=
  initial one_move 1 [3]%Q [9]%Q 1%nat.

(** An individual with its rationals in lowest terms. *)
Definition view_individual (i : population.individual_type Q)
  : list Q * list Q * list Q :=
  (map Qred (population.cur_x i), map Qred (population.cur_v i),
   map Qred (population.cur_f i)).

(** A view of the result of a run, with the rationals in lowest terms:
    the individuals, and for each move its dimension, how it ended and the
    working point after it. *)
Definition view (o : outcome (evolved (num := Q) (rng_double := nat)))
  : outcome (list (list Q * list Q * list Q)
             * list (nat * verdict * list Q)) :=
  let* r := o in
  Ok (map view_individual (population.m_container (ev_pop r)),
      map (fun m => (mv_dim m, mv_verdict m, map Qred (mv_x m))) (ev_moves r)).

(** A generator of real draws, all equal to 1/2, and a state at the
    temperature 10. *)
Definition halvesR (g : nat) : R * nat := ((/ 2)%R, S g).

Definition warm : state (num := R) (rng_double := nat) :=
  mkState [3%R] [3%R] [9%R] [9%R] [(/ 2)%R] [0%Z] 10%R 0%nat [].

(** The square on the segment [-5, 5] of the real line, lower being
    better. *)
Definition lineR : problem.base R :=
  problem.mkProblem 1 0 0 1 [(-5)%R] [5%R]
    (fun x => [(vget (Numeric0 := RNumeric) x 0
                * vget (Numeric0 := RNumeric) x 0)%R])
    (fun f g => Rltb (vget (Numeric0 := RNumeric) f 0)
                  (vget (Numeric0 := RNumeric) g 0)).

(** The rationals of the examples with a NaN, and a problem on [-5, 5]
    whose objective function returns NaN; an individual at 3, of fitness 9;
    draws all equal to 1/2; one move per run. *)
Definition Qnan : Numeric (option Q) := with_nan Qdemo.

Definition nan_problem : problem.base (option Q) :=
  problem.mkProblem 1 0 0 1 [Some (-5)%Q] [Some 5%Q]
    (fun _ => [None])
    (fun f g => nlt (Numeric := Qnan) (vget (Numeric0 := Qnan) f 0)
                  (vget (Numeric0 := Qnan) g 0)).

Definition nan_pop : population.t (option Q) :=
  population.mkPopulation nan_problem
    [population.mkIndividual [Some 3%Q] [Some 0%Q] [Some 9%Q]].

Definition nan_halves (g : nat) : option Q * nat := (Some (1 # 2)%Q, S g).

Definition nan_one_move : t (num := option Q) :=
  mkAlgorithm 1 (Some 10%Q) (Some 0.1%Q) 1 1 (Some 0.5%Q).

(** A budget of nine iterations for rounds of four moves: two rounds are
    made and one iteration is left over. *)
Definition nine_moves : t (num := Q) := mkAlgorithm 9 10%Q 0.1%Q 2 2 0.5%Q.

Definition six_draws : list Q := [0; 3 # 4; 1 # 5; 1 # 8; 9 # 10; 1 # 2]%Q.

(** The sum of squares on the plane, and the locals of a run from (3, 1). *)
Definition sphere2 : problem.base Q := sphere 2 [-5; -5]%Q [5; 5]%Q.

Definition start2 : state (num := Q) (rng_double := nat) :=
  initial one_move 2 [3; 1]%Q [10]%Q 0%nat.

End SaCoranaSpec.

(** * Properties *)

(** ** Vectors and numbers *)

Lemma vec_at_Ok {A} (v : list A) n a :
  vec_at v n = Ok a <-> (0 <= n)%Z /\ v !! Z.to_nat n = Some a.
Proof.
  unfold vec_at. destruct (Z.ltb_spec n 0).
  - split; [discriminate | lia].
  - destruct (v !! Z.to_nat n) eqn:E; split; intros H1; try discriminate.
    + split; [lia | congruence].
    + f_equal. destruct H1. congruence.
    + destruct H1. discriminate.
Qed.

Lemma vec_at_nat {A} (v : list A) (i : nat) a :
  v !! i = Some a -> vec_at v (Z.of_nat i) = Ok a.
Proof. intros H. apply vec_at_Ok. rewrite Nat2Z.id. split; [lia | done]. Qed.

Lemma vec_at_in_range {A} (v : list A) n :
  (0 <= n < Z.of_nat (length v))%Z -> exists a, vec_at v n = Ok a.
Proof.
  intros H. destruct (lookup_lt_is_Some_2 v (Z.to_nat n)) as [a Ha]; [lia|].
  exists a. apply vec_at_Ok. split; [lia | done].
Qed.

Lemma vec_at_out_of_range {A} (v : list A) n :
  ~ (0 <= n < Z.of_nat (length v))%Z -> vec_at v n = Undefined out_of_range.
Proof.
  intros H. unfold vec_at. destruct (Z.ltb_spec n 0); [done|].
  rewrite lookup_ge_None_2; [done | lia].
Qed.

Lemma vec_at_not_fault {A} (v : list A) n : ~ is_fault (vec_at v n).
Proof.
  intros [e He]. unfold vec_at in He.
  destruct (n <? 0)%Z; [discriminate|]. destruct (v !! Z.to_nat n); discriminate.
Qed.

Lemma vec_set_Ok {A} (v : list A) n a b :
  vec_at v n = Ok b -> vec_set v n a = Ok (<[Z.to_nat n := a]> v).
Proof. intros H. unfold vec_set. rewrite H. reflexivity. Qed.

Lemma vec_set_out_of_range {A} (v : list A) n a :
  ~ (0 <= n < Z.of_nat (length v))%Z -> vec_set v n a = Undefined out_of_range.
Proof.
  intros H. unfold vec_set. rewrite vec_at_out_of_range by done. reflexivity.
Qed.

Lemma Qltb_lt (x y : Q) : Qltb x y = true <-> (x < y)%Q.
Proof.
  unfold Qltb. rewrite negb_true_iff, <- not_true_iff_false, Qle_bool_iff.
  split; [apply Qnot_le_lt | apply Qlt_not_le].
Qed.

Lemma Qltb_ge (x y : Q) : Qltb x y = false <-> (y <= x)%Q.
Proof. unfold Qltb. rewrite negb_false_iff. apply Qle_bool_iff. Qed.

(** The cast of [d * n] to an integer is an index below [n] when [d] is a
    double of [0,1). *)
Lemma Qtrunc_unit_scaled (d : Q) (n : Z) :
  (0 <= d)%Q -> (d < 1)%Q -> (0 < n)%Z ->
  (0 <= Qtrunc (d * inject_Z n) < n)%Z.
Proof.
  intros H0 H1 Hn.
  assert (Hpos : (0 <= d * inject_Z n)%Q).
  { apply Qmult_le_0_compat; [done|]. change 0%Q with (inject_Z 0).
    rewrite <- Zle_Qle. lia. }
  unfold Qtrunc. apply Qle_bool_iff in Hpos as Hb. rewrite Hb. split.
  - change 0%Z with (Qfloor (inject_Z 0)). apply Qfloor_resp_le. exact Hpos.
  - rewrite Zlt_Qlt. eapply Qle_lt_trans; [apply Qfloor_le|].
    assert (Hn' : (0 < inject_Z n)%Q).
    { change 0%Q with (inject_Z 0). rewrite <- Zlt_Qlt. lia. }
    eapply Qlt_le_trans; [apply Qmult_lt_compat_r; [exact Hn' | exact H1]|].
    rewrite Qmult_1_l. apply Qle_refl.
Qed.

Lemma Qtrunc_scaled_0 (d : Q) : Qtrunc (d * inject_Z 0) = 0%Z.
Proof.
  assert (E : (d * inject_Z 0 == inject_Z 0)%Q) by (unfold inject_Z; ring).
  unfold Qtrunc.
  assert (Hb : Qle_bool 0 (d * inject_Z 0) = true).
  { apply Qle_bool_iff. rewrite E. apply Qle_refl. }
  rewrite Hb, (Qfloor_comp _ _ E). apply Qfloor_Z.
Qed.

(** ** The migration primitives of [Population] *)

Module PopulationFacts.
Import Population PopulationSpec.

Lemma all_positions_ok pop : pool_ok pop (all_positions pop).
Proof.
  unfold pool_ok, all_positions, size. split.
  - apply NoDup_fmap_2; [exact Nat2Z.inj | apply NoDup_seq].
  - intros p [k [-> Hk]]%list_elem_of_fmap. apply elem_of_seq in Hk. lia.
Qed.

Lemma length_all_positions pop : length (all_positions pop) = length pop.
Proof. unfold all_positions. rewrite length_fmap. apply length_seq. Qed.

Lemma pool_ok_delete pop PossiblePicks k :
  pool_ok pop PossiblePicks -> pool_ok pop (delete k PossiblePicks).
Proof.
  intros [Hnd Hin]. split.
  - eapply sublist_NoDup; [exact Hnd | apply sublist_delete].
  - intros p Hp. apply Hin. eapply list_elem_of_delete_inv, Hp.
Qed.

Lemma picked_not_left (PossiblePicks : list Z) k p :
  NoDup PossiblePicks -> PossiblePicks !! k = Some p ->
  p ∉ delete k PossiblePicks.
Proof.
  intros Hnd Hk. rewrite delete_take_drop.
  rewrite <- (take_drop_middle _ _ _ Hk) in Hnd.
  apply NoDup_app in Hnd as (_ & Hleft & Hright).
  apply NoDup_cons in Hright as [Hright _].
  intros [H | H]%elem_of_app; [|done].
  apply (Hleft p H). left.
Qed.

Section Deme.

Context {rng_type : Type} (nextDouble : rng_type -> Q * rng_type).

(** The generator keeps its contract: every draw is a double of [0,1). *)
Hypothesis nextDouble_unit :
  forall g, (0 <= fst (nextDouble g))%Q /\ (fst (nextDouble g) < 1)%Q.

Lemma extract_one_ok pop PossiblePicks picks deme rng :
  pool_ok pop PossiblePicks -> PossiblePicks <> [] ->
  exists k p ind,
    PossiblePicks !! k = Some p /\ pop !! Z.to_nat p = Some ind /\
    extract_one nextDouble pop (PossiblePicks, picks, deme, rng)
    = Ok (delete k PossiblePicks, picks ++ [p], deme ++ [ind],
          snd (nextDouble rng)).
Proof.
  intros [Hnd Hin] Hne. unfold extract_one.
  destruct (nextDouble_unit rng) as [Hd0 Hd1].
  destruct (nextDouble rng) as [d rng'] eqn:Ed. simpl in Hd0, Hd1.
  assert (Hlen : (0 < Z.of_nat (length PossiblePicks))%Z).
  { destruct PossiblePicks; [done | simpl; lia]. }
  pose proof (Qtrunc_unit_scaled d _ Hd0 Hd1 Hlen) as Hpick.
  set (Pick := Qtrunc (d * inject_Z (Z.of_nat (length PossiblePicks)))) in *.
  destruct (vec_at_in_range PossiblePicks Pick Hpick) as [p Hp].
  rewrite Hp. simpl.
  apply vec_at_Ok in Hp as [_ Hp].
  assert (Hpin : p ∈ PossiblePicks) by (eapply list_elem_of_lookup_2; eauto).
  destruct (vec_at_in_range pop p (Hin p Hpin)) as [ind Hind].
  rewrite Hind. simpl. apply vec_at_Ok in Hind as [_ Hind].
  exists (Z.to_nat Pick), p, ind. done.
Qed.

Lemma extract_loop_S pop n st :
  extract_loop nextDouble (S n) pop st
  = obind (extract_one nextDouble pop st) (extract_loop nextDouble n pop).
Proof. reflexivity. Qed.

Lemma extract_loop_ok pop n :
  forall PossiblePicks picks deme rng,
    pool_ok pop PossiblePicks -> n <= length PossiblePicks ->
    exists rest new newd rng',
      extract_loop nextDouble n pop (PossiblePicks, picks, deme, rng)
      = Ok (rest, picks ++ new, deme ++ newd, rng') /\
      (pool_ok pop rest /\ length rest = length PossiblePicks - n) /\
      length new = n /\ NoDup new /\
      (forall p, p ∈ new -> p ∈ PossiblePicks) /\
      Forall2 (fun p ind => pop !! Z.to_nat p = Some ind) new newd.
Proof.
  induction n as [|n IH]; intros PP picks deme rng Hok Hlen.
  - exists PP, [], [], rng. simpl. rewrite !app_nil_r.
    split; [reflexivity|]. split; [split; [exact Hok | lia]|].
    repeat split; [apply NoDup_nil_2 | intros p Hp; inversion Hp | constructor].
  - assert (Hne : PP <> []) by (destruct PP; [simpl in Hlen; lia | done]).
    destruct (extract_one_ok pop PP picks deme rng Hok Hne)
      as (k & p & ind & Hk & Hind & Hone).
    assert (Hlen' : n <= length (delete k PP)).
    { rewrite length_delete by eauto. lia. }
    destruct (IH (delete k PP) (picks ++ [p]) (deme ++ [ind])
                (snd (nextDouble rng)) (pool_ok_delete _ _ k Hok) Hlen')
      as (rest & new & newd & rng' & Hloop & [Hrest Hrlen] & Hn & Hnd & Hsub
          & Hrel).
    exists rest, (p :: new), (ind :: newd), rng'.
    rewrite extract_loop_S, Hone. cbn [obind]. rewrite Hloop.
    rewrite <- !app_assoc. simpl. split; [reflexivity|].
    split; [split; [exact Hrest | rewrite Hrlen, length_delete by eauto; lia]|].
    repeat split.
    + lia.
    + apply NoDup_cons. split; [|done].
      intros Hp. apply Hsub in Hp.
      exact (picked_not_left PP k p (proj1 Hok) Hk Hp).
    + intros q [->|Hq]%elem_of_cons.
      * eapply list_elem_of_lookup_2; eauto.
      * eapply list_elem_of_delete_inv, Hsub, Hq.
    + constructor; done.
Qed.

(** In range, [extractRandomDeme] returns, whatever was drawn. *)
Lemma extractRandomDeme_ok (N : Z) picks rng pop :
  (0 <= N <= size pop)%Z ->
  exists new deme rng',
    extractRandomDeme nextDouble N picks rng pop
    = Ok (mkExtraction pop deme (picks ++ new) rng') /\
    size deme = N /\ Z.of_nat (length new) = N /\ NoDup new /\
    (forall p, p ∈ new -> (0 <= p < size pop)%Z) /\
    Forall2 (fun p ind => pop !! Z.to_nat p = Some ind) new deme.
Proof.
  intros HN. unfold size in HN.
  destruct (extract_loop_ok pop (Z.to_nat N) (all_positions pop) picks [] rng
              (all_positions_ok pop))
    as (rest & new & newd & rng' & Hloop & _ & Hn & Hnd & Hsub & Hrel).
  { rewrite length_all_positions. lia. }
  exists new, newd, rng'. unfold extractRandomDeme. rewrite Hloop. simpl.
  repeat split; try done.
  - unfold size. rewrite <- (Forall2_length _ _ _ Hrel). lia.
  - lia.
  - apply (proj2 (all_positions_ok pop)), Hsub, H.
  - apply (proj2 (all_positions_ok pop)), Hsub, H.
Qed.

End Deme.

(** *** [substituteIndividual] and [operator[]] *)

Lemma substituteIndividual_in_range x n pop :
  (0 <= n < size pop)%Z ->
  substituteIndividual x n pop = Ok (<[Z.to_nat n := x]> pop).
Proof.
  intros Hn. unfold size in Hn. unfold substituteIndividual.
  destruct (vec_at_in_range pop n Hn) as [i0 H0]. rewrite H0. cbn [obind].
  rewrite (vec_set_Ok _ _ _ _ H0). cbn [obind].
  assert (Hlt : Z.to_nat n < length pop) by lia.
  assert (Hget : forall (l : Population) a, length l = length pop ->
            vec_at (<[Z.to_nat n := a]> l) n = Ok a).
  { intros l a Hl. apply vec_at_Ok. split; [lia|].
    apply list_lookup_insert_eq. lia. }
  rewrite Hget by done. cbn [obind].
  rewrite (vec_set_Ok _ _ _ _ (Hget _ _ eq_refl)). cbn [obind].
  rewrite Hget by (rewrite length_insert; done). cbn [obind].
  erewrite vec_set_Ok by (apply Hget; rewrite length_insert; done).
  rewrite !list_insert_insert_eq. destruct x; reflexivity.
Qed.

Lemma substituteIndividual_out_of_range x n pop :
  ~ (0 <= n < size pop)%Z ->
  substituteIndividual x n pop = Undefined out_of_range.
Proof.
  intros Hn. unfold substituteIndividual.
  rewrite vec_at_out_of_range by exact Hn. reflexivity.
Qed.

(** *** [insertDeme] *)

Local Abbreviation fit := getFitness.

Lemma insertDeme_from_cons i p todo deme pop d t :
  deme !! i = Some d -> (0 <= p)%Z -> pop !! Z.to_nat p = Some t ->
  insertDeme_from (Z.of_nat i) (p :: todo) deme pop
  = insertDeme_from (Z.of_nat (S i)) todo deme
      (if Qltb (fit d) (fit t) then <[Z.to_nat p := d]> pop else pop).
Proof.
  intros Hd Hp Ht. cbn [insertDeme_from]. unfold operator_subscript.
  rewrite (vec_at_nat _ _ _ Hd). cbn [obind].
  assert (Hat : vec_at pop p = Ok t) by (apply vec_at_Ok; done).
  rewrite Hat. cbn [obind]. replace (Z.of_nat i + 1)%Z with (Z.of_nat (S i)) by lia.
  unfold fit. destruct (Qltb _ _); [|done].
  rewrite (vec_set_Ok _ _ _ _ Hat). reflexivity.
Qed.

(** The loop returns, and what it leaves at a position is the old
    individual or a member of the deme sent there that is strictly fitter. *)
Lemma insertDeme_from_ok deme todo :
  forall i pop,
    (forall p, p ∈ todo -> (0 <= p < size pop)%Z) ->
    i + length todo <= length deme ->
    exists pop',
      insertDeme_from (Z.of_nat i) todo deme pop = Ok pop' /\
      length pop' = length pop /\
      forall j old, pop !! j = Some old ->
        exists new, pop' !! j = Some new /\
          (new = old \/
           exists k, todo !! k = Some (Z.of_nat j) /\
                     deme !! (i + k) = Some new /\ (fit new < fit old)%Q).
Proof.
  induction todo as [|p todo IH]; intros i pop Hin Hlen.
  - exists pop. repeat split. intros j old Hj. exists old. auto.
  - assert (Hp : (0 <= p < size pop)%Z) by (apply Hin; left).
    unfold size in Hp.
    destruct (lookup_lt_is_Some_2 deme i) as [d Hd]; [simpl in Hlen; lia|].
    destruct (lookup_lt_is_Some_2 pop (Z.to_nat p)) as [t Ht]; [lia|].
    rewrite (insertDeme_from_cons _ _ _ _ _ _ _ Hd (proj1 Hp) Ht).
    set (pop1 := if Qltb (fit d) (fit t) then <[Z.to_nat p := d]> pop else pop).
    assert (Hlen1 : length pop1 = length pop).
    { unfold pop1. destruct (Qltb _ _); [apply length_insert | done]. }
    destruct (IH (S i) pop1) as (pop' & Hrun & Hlen' & Hpos).
    { intros q Hq. unfold size. rewrite Hlen1. apply Hin. right. exact Hq. }
    { simpl in Hlen. lia. }
    exists pop'. split; [exact Hrun|]. split; [congruence|].
    intros j old Hj.
    assert (Hmid : exists mid, pop1 !! j = Some mid /\
              (mid = old \/ (Z.of_nat j = p /\ mid = d /\ (fit d < fit old)%Q))).
    { unfold pop1. destruct (Qltb (fit d) (fit t)) eqn:Hlt; [|eauto].
      destruct (decide (j = Z.to_nat p)) as [->|Hne].
      - exists d. rewrite list_lookup_insert_eq by lia. split; [done|].
        right. rewrite Hj in Ht. injection Ht as ->.
        apply Qltb_lt in Hlt. split; [lia | done].
      - exists old. rewrite list_lookup_insert_ne by done. auto. }
    destruct Hmid as (mid & Hmid & Hcase).
    destruct (Hpos j mid Hmid) as (new & Hnew & Hfin).
    exists new. split; [exact Hnew|].
    destruct Hfin as [-> | (k & Hk & Hdk & Hlt)].
    + destruct Hcase as [-> | (Hjp & -> & Hlt)]; [auto|].
      right. exists 0. rewrite Nat.add_0_r. simpl. rewrite Hjp. done.
    + right. exists (S k). simpl. replace (i + S k) with (S i + k) by lia.
      split; [done|]. split; [done|].
      destruct Hcase as [-> | (_ & -> & Hlt')]; [done|].
      eapply Qlt_trans; eauto.
Qed.

(** The loop over a list of picks is the loop over a first part followed
    by the loop over the rest. *)
Lemma insertDeme_from_app deme l1 l2 :
  forall i pop,
    insertDeme_from i (l1 ++ l2) deme pop
    = obind (insertDeme_from i l1 deme pop)
        (insertDeme_from (i + Z.of_nat (length l1)) l2 deme).
Proof.
  induction l1 as [|p l1 IH]; intros i pop.
  - cbn. rewrite Z.add_0_r. reflexivity.
  - cbn [app insertDeme_from].
    destruct (operator_subscript deme i); cbn [obind]; [|done..].
    destruct (vec_at pop p); cbn [obind]; [|done..].
    replace (i + Z.of_nat (length (p :: l1)))%Z
      with (i + 1 + Z.of_nat (length l1))%Z by (cbn [length]; lia).
    destruct (Qltb _ _); [|apply IH].
    destruct (vec_set pop p _); cbn [obind]; [apply IH | done..].
Qed.

(** The loop reads the members of the deme at the indices of its picks
    only. *)
Lemma insertDeme_from_take deme n todo :
  forall i pop,
    i + length todo <= n ->
    insertDeme_from (Z.of_nat i) todo (take n deme) pop
    = insertDeme_from (Z.of_nat i) todo deme pop.
Proof.
  induction todo as [|p todo IH]; intros i pop Hn; [reflexivity|].
  cbn [insertDeme_from length] in *. unfold operator_subscript, vec_at.
  destruct (Z.ltb_spec (Z.of_nat i) 0); [lia|].
  rewrite Nat2Z.id, lookup_take_lt by lia.
  replace (Z.of_nat i + 1)%Z with (Z.of_nat (S i)) by lia.
  destruct (deme !! i); cbn [obind]; [|done].
  destruct (if (p <? 0)%Z then _ else _); cbn [obind]; [|done..].
  destruct (Qltb _ _); [|apply IH; lia].
  destruct (vec_set pop p _); cbn [obind]; [apply IH; lia | done..].
Qed.

(** Round [i] of [insertDeme]: what the rounds before it leave is changed
    at [picks[i]] only, and only if [deme[i]] is strictly fitter than the
    individual found there. *)
Lemma insertDeme_round deme picks pop i p d :
  length deme = length picks ->
  (forall q, q ∈ picks -> (0 <= q < size pop)%Z) ->
  picks !! i = Some p -> deme !! i = Some d ->
  exists before t,
    insertDeme (take i deme) (take i picks) pop = Ok before /\
    before !! Z.to_nat p = Some t /\
    insertDeme (take (S i) deme) (take (S i) picks) pop
    = Ok (if Qltb (getFitness d) (getFitness t)
          then <[Z.to_nat p := d]> before else before).
Proof.
  intros Hlen Hin Hp Hd. unfold insertDeme.
  assert (Hi : i < length picks) by (eapply lookup_lt_Some, Hp).
  change 0%Z with (Z.of_nat 0).
  rewrite !insertDeme_from_take by (rewrite length_take; lia).
  destruct (insertDeme_from_ok deme (take i picks) 0 pop)
    as (before & Hrun & Hl & _).
  { intros q (k & Hk & _)%elem_of_take. apply Hin.
    eapply list_elem_of_lookup_2, Hk. }
  { rewrite length_take. lia. }
  assert (Hpr : (0 <= p < size pop)%Z).
  { apply Hin. eapply list_elem_of_lookup_2, Hp. }
  unfold size in Hpr.
  destruct (lookup_lt_is_Some_2 before (Z.to_nat p)) as [t Ht]; [lia|].
  exists before, t. split; [exact Hrun|]. split; [exact Ht|].
  rewrite (take_S_r _ _ _ Hp), insertDeme_from_app, Hrun. cbn [obind].
  rewrite length_take, Nat.min_l by lia.
  replace (Z.of_nat 0 + Z.of_nat i)%Z with (Z.of_nat i) by lia.
  rewrite (insertDeme_from_cons i p [] deme before d t Hd (proj1 Hpr) Ht).
  reflexivity.
Qed.

(** A position that [picks] names once ends with the member of the deme
    sent there if that member is strictly fitter, and as it was if not. *)
Lemma insertDeme_from_once deme todo :
  forall i pop pop' k p d old,
    insertDeme_from (Z.of_nat i) todo deme pop = Ok pop' ->
    (forall q, q ∈ todo -> (0 <= q < size pop)%Z) ->
    i + length todo <= length deme ->
    todo !! k = Some p ->
    (forall k', todo !! k' = Some p -> k' = k) ->
    deme !! (i + k) = Some d ->
    pop !! Z.to_nat p = Some old ->
    pop' !! Z.to_nat p = Some (if Qltb (fit d) (fit old) then d else old).
Proof.
  induction todo as [|p0 todo IH];
    intros i pop pop' k p d old Hrun Hin Hlen Hk Honce Hd Hold; [done|].
  assert (Hp0 : (0 <= p0 < size pop)%Z) by (apply Hin; left).
  unfold size in Hp0.
  destruct (lookup_lt_is_Some_2 deme i) as [d0 Hd0]; [simpl in Hlen; lia|].
  destruct (lookup_lt_is_Some_2 pop (Z.to_nat p0)) as [t Ht]; [lia|].
  rewrite (insertDeme_from_cons _ _ _ _ _ _ _ Hd0 (proj1 Hp0) Ht) in Hrun.
  set (pop1 := if Qltb (fit d0) (fit t) then <[Z.to_nat p0 := d0]> pop else pop)
    in *.
  assert (Hlen1 : length pop1 = length pop).
  { unfold pop1. destruct (Qltb _ _); [apply length_insert | done]. }
  assert (Hin1 : forall q, q ∈ todo -> (0 <= q < size pop1)%Z).
  { intros q Hq. unfold size. rewrite Hlen1. apply Hin. right. exact Hq. }
  assert (Hlen2 : S i + length todo <= length deme) by (simpl in Hlen; lia).
  destruct k as [|k].
  - simpl in Hk. injection Hk as ->. rewrite Nat.add_0_r in Hd.
    rewrite Hd in Hd0. injection Hd0 as <-.
    rewrite Ht in Hold. injection Hold as <-.
    assert (Hmid : pop1 !! Z.to_nat p
                   = Some (if Qltb (fit d) (fit t) then d else t)).
    { unfold pop1. destruct (Qltb _ _); [|done].
      apply list_lookup_insert_eq. lia. }
    destruct (insertDeme_from_ok deme todo (S i) pop1 Hin1 Hlen2)
      as (pop'' & Hrun' & _ & Hpos).
    rewrite Hrun in Hrun'. injection Hrun' as <-.
    destruct (Hpos _ _ Hmid) as (new & Hnew & [-> | (k & Hk & _)]); [done|].
    rewrite Z2Nat.id in Hk by lia.
    specialize (Honce (S k) Hk). discriminate.
  - simpl in Hk.
    assert (Hne : p0 <> p).
    { intros ->. specialize (Honce 0 eq_refl). discriminate. }
    assert (Hp : (0 <= p < size pop)%Z).
    { apply Hin. right. eapply list_elem_of_lookup_2. exact Hk. }
    eapply (IH (S i) pop1 pop' k p d old); try done.
    + intros k' Hk'. specialize (Honce (S k') Hk'). lia.
    + replace (S i + k) with (i + S k) by lia. done.
    + unfold pop1. destruct (Qltb _ _); [|done].
      rewrite list_lookup_insert_ne; [done | lia].
Qed.

(** *** [insertBestInDeme] *)

Lemma scan_step_inv deme picks pop i s :
  (forall p, p ∈ picks -> (0 <= p < size pop)%Z) ->
  i < length deme -> i < length picks ->
  scan_inv deme picks pop i s ->
  exists s', scan_step deme picks pop (Z.of_nat i) s = Ok s' /\
             scan_inv deme picks pop (S i) s'.
Proof.
  intros Hin Hid Hip (b & w & db & tw & Hb & Hw & Hbest & Hworst & HB & HW).
  destruct (lookup_lt_is_Some_2 deme i Hid) as [d Hd].
  destruct (lookup_lt_is_Some_2 picks i Hip) as [p Hp].
  assert (Hpr : (0 <= p < size pop)%Z).
  { apply Hin. eapply list_elem_of_lookup_2. exact Hp. }
  unfold size in Hpr.
  destruct (lookup_lt_is_Some_2 pop (Z.to_nat p)) as [t Ht]; [lia|].
  unfold scan_step, operator_subscript.
  rewrite (vec_at_nat _ _ _ Hd). cbn [obind].
  rewrite (vec_at_nat _ _ _ Hp). cbn [obind].
  assert (Hat : vec_at pop p = Ok t) by (apply vec_at_Ok; split; [lia|done]).
  rewrite Hat. cbn [obind]. eexists. split; [reflexivity|].
  destruct HB as (Hbi & Hdb & Hmin & Hfirst).
  destruct HW as (Hwi & Hpw & Hmax & Hfirstw).
  rewrite Hbest.
  assert (HB' : exists b' db',
    first_best_upto deme (S i) b' db' /\
    (if Qltb (getFitness d) (fit db)
     then mkScan (Z.of_nat i) (worstinpicks s) (getFitness d) (worst s)
     else s) = mkScan (Z.of_nat b') (Z.of_nat w) (fit db') (fit tw)).
  { destruct (Qltb (getFitness d) (fit db)) eqn:Hlt.
    - apply Qltb_lt in Hlt. exists i, d. split.
      + split; [lia|]. split; [done|]. split.
        * intros k d' Hk Hd'. destruct (decide (k = i)) as [->|Hne].
          -- rewrite Hd in Hd'. injection Hd' as ->. apply Qle_refl.
          -- apply Qlt_le_weak. eapply Qlt_le_trans; [exact Hlt|].
             eapply Hmin; [|exact Hd']. lia.
        * intros k d' Hk Hd'. eapply Qlt_le_trans; [exact Hlt|].
          eapply Hmin; [|exact Hd']. lia.
      + rewrite Hw, Hworst. reflexivity.
    - apply Qltb_ge in Hlt. exists b, db. split.
      + split; [lia|]. split; [done|]. split; [|done].
        intros k d' Hk Hd'. destruct (decide (k = i)) as [->|Hne].
        * rewrite Hd in Hd'. injection Hd' as ->. exact Hlt.
        * eapply Hmin; [|exact Hd']. lia.
      + destruct s; simpl in *. congruence. }
  destruct HB' as (b' & db' & HB' & ->). cbn [worst bestindeme best].
  destruct (Qltb (fit tw) (getFitness t)) eqn:Hlt.
  - apply Qltb_lt in Hlt. exists b', i, db', t. repeat split; try done.
    + apply HB'. + apply HB'. + apply HB'. + apply HB'.
    + lia.
    + exists p. repeat split; [done | lia | done].
    + intros k p' t' Hk Hp' Ht'. destruct (decide (k = i)) as [->|Hne].
      * rewrite Hp in Hp'. injection Hp' as <-.
        rewrite Ht in Ht'. injection Ht' as <-. apply Qle_refl.
      * apply Qlt_le_weak. eapply Qle_lt_trans; [|exact Hlt].
        eapply Hmax; [|exact Hp'|exact Ht']. lia.
    + intros k p' t' Hk Hp' Ht'. eapply Qle_lt_trans; [|exact Hlt].
      eapply Hmax; [|exact Hp'|exact Ht']. lia.
  - apply Qltb_ge in Hlt. exists b', w, db', tw. repeat split; try done.
    + apply HB'. + apply HB'. + apply HB'. + apply HB'.
    + lia.
    + intros k p' t' Hk Hp' Ht'. destruct (decide (k = i)) as [->|Hne].
      * rewrite Hp in Hp'. injection Hp' as <-.
        rewrite Ht in Ht'. injection Ht' as <-. exact Hlt.
      * eapply Hmax; [|exact Hp'|exact Ht']. lia.
Qed.

Lemma scan_from_inv deme picks pop n :
  forall i s,
    (forall p, p ∈ picks -> (0 <= p < size pop)%Z) ->
    i + n <= length deme -> i + n <= length picks ->
    scan_inv deme picks pop i s ->
    exists s', scan_from n (Z.of_nat i) deme picks pop s = Ok s' /\
               scan_inv deme picks pop (i + n) s'.
Proof.
  induction n as [|n IH]; intros i s Hin Hd Hp Hinv.
  - exists s. rewrite Nat.add_0_r. done.
  - destruct (scan_step_inv deme picks pop i s Hin) as (s1 & Hstep & Hinv1);
      [lia | lia | done |].
    destruct (IH (S i) s1 Hin) as (s' & Hrun & Hinv'); [lia | lia | done |].
    exists s'. cbn [scan_from]. rewrite Hstep. cbn [obind].
    replace (Z.of_nat i + 1)%Z with (Z.of_nat (S i)) by lia.
    replace (i + S n) with (S i + n) by lia. done.
Qed.

(** The call returns; it writes one position, the first of the least fit
    among [picks], with the first of the fittest members of the deme. *)
Lemma insertBestInDeme_ok deme picks pop :
  deme <> [] -> length deme = length picks ->
  (forall p, p ∈ picks -> (0 <= p < size pop)%Z) ->
  exists b w db tw pw,
    first_best deme b db /\ first_worst pop picks w tw /\
    picks !! w = Some pw /\
    insertBestInDeme deme picks pop = Ok (<[Z.to_nat pw := db]> pop).
Proof.
  intros Hne Hlen Hin.
  destruct deme as [|d0 deme'] eqn:Edeme; [done|]. rewrite <- Edeme in *.
  assert (Hd0 : deme !! 0 = Some d0) by (rewrite Edeme; done).
  destruct picks as [|p0 picks'] eqn:Epicks; [rewrite Edeme in Hlen; done|].
  rewrite <- Epicks in *.
  assert (Hp0 : picks !! 0 = Some p0) by (rewrite Epicks; done).
  assert (Hr0 : (0 <= p0 < size pop)%Z).
  { apply Hin. eapply list_elem_of_lookup_2. exact Hp0. }
  unfold size in Hr0.
  destruct (lookup_lt_is_Some_2 pop (Z.to_nat p0)) as [t0 Ht0]; [lia|].
  assert (Hinv0 : scan_inv deme picks pop 1
                    (mkScan 0 0 (getFitness d0) (getFitness t0))).
  { exists 0, 0, d0, t0. repeat split; try done.
    - lia.
    - intros k d Hk Hd. assert (k = 0) as -> by lia.
      rewrite Hd0 in Hd. injection Hd as ->. apply Qle_refl.
    - intros k d Hk. lia.
    - lia.
    - exists p0. repeat split; [done | lia | done].
    - intros k p t Hk Hp Ht. assert (k = 0) as -> by lia.
      rewrite Hp0 in Hp. injection Hp as <-.
      rewrite Ht0 in Ht. injection Ht as <-. apply Qle_refl.
    - intros k p t Hk. lia. }
  assert (Hlen1 : 1 <= length deme) by (rewrite Edeme; simpl; lia).
  destruct (scan_from_inv deme picks pop (length deme - 1) 1
              (mkScan 0 0 (getFitness d0) (getFitness t0)) Hin)
    as (s & Hrun & Hinv); [lia | lia | exact Hinv0 |].
  replace (1 + (length deme - 1)) with (length deme) in Hinv by lia.
  destruct Hinv as (b & w & db & tw & Hb & Hw & Hbest & Hworst & HB & HW).
  pose proof HW as (Hwi & (pw & Hpw & Hpw0 & Htw) & _).
  pose proof HB as (Hbi & Hdb & _).
  exists b, w, db, tw, pw. split; [exact HB|].
  split; [unfold first_worst; rewrite <- Hlen; exact HW|]. split; [exact Hpw|].
  unfold insertBestInDeme, operator_subscript.
  pose proof (vec_at_nat _ _ _ Hd0) as Hd0'.
  pose proof (vec_at_nat _ _ _ Hp0) as Hp0'.
  change (Z.of_nat 0) with 0%Z in Hd0', Hp0'.
  change (Z.of_nat 1) with 1%Z in Hrun.
  rewrite Hd0'. cbn [obind]. rewrite Hp0'. cbn [obind].
  assert (Hat0 : vec_at pop p0 = Ok t0) by (apply vec_at_Ok; split; [lia|done]).
  rewrite Hat0. cbn [obind].
  replace (Z.to_nat (size deme - 1)) with (length deme - 1)
    by (unfold size; lia).
  rewrite Hrun. cbn [obind].
  rewrite Hw, (vec_at_nat _ _ _ Hpw). cbn [obind].
  rewrite Hb, (vec_at_nat _ _ _ Hdb). cbn [obind].
  assert (Hatw : vec_at pop pw = Ok tw) by (apply vec_at_Ok; done).
  apply (vec_set_Ok _ _ _ _ Hatw).
Qed.

(** *** Requests that exceed the population *)

Section Unchecked.

Context {rng_type : Type} (nextDouble : rng_type -> Q * rng_type).

Lemma extract_loop_add pop n m st :
  extract_loop nextDouble (n + m) pop st
  = obind (extract_loop nextDouble n pop st) (extract_loop nextDouble m pop).
Proof.
  revert st. induction n as [|n IH]; intros st; [reflexivity|].
  cbn [Nat.add]. rewrite !extract_loop_S.
  destruct (extract_one nextDouble pop st); cbn [obind]; [apply IH | done..].
Qed.

(** No draw makes up for a pool that is too small: the loop reaches an
    access outside the pool. *)
Lemma extract_loop_exhausts pop n :
  forall PossiblePicks picks deme rng,
    pool_ok pop PossiblePicks -> length PossiblePicks < n ->
    extract_loop nextDouble n pop (PossiblePicks, picks, deme, rng)
    = Undefined out_of_range.
Proof.
  induction n as [|n IH]; intros PP picks deme rng Hok Hlen; [lia|].
  rewrite extract_loop_S. unfold extract_one.
  destruct (nextDouble rng) as [d rng'].
  set (Pick := Qtrunc _).
  destruct (vec_at PP Pick) as [p| |u] eqn:Hp; cbn [obind].
  - apply vec_at_Ok in Hp as [HP Hp].
    assert (Hpin : p ∈ PP) by (eapply list_elem_of_lookup_2; eauto).
    destruct (vec_at_in_range pop p (proj2 Hok p Hpin)) as [ind Hind].
    rewrite Hind. cbn [obind]. apply IH; [apply pool_ok_delete, Hok|].
    rewrite length_delete by eauto. apply lookup_lt_Some in Hp. lia.
  - exfalso. eapply vec_at_not_fault. eexists. exact Hp.
  - unfold vec_at in Hp. destruct (Pick <? 0)%Z; [congruence|].
    destruct (PP !! Z.to_nat Pick); congruence.
Qed.

Lemma extractRandomDeme_exhausts (N : Z) picks rng pop :
  (size pop < N)%Z ->
  extractRandomDeme nextDouble N picks rng pop = Undefined out_of_range.
Proof.
  intros HN. unfold extractRandomDeme, size in *.
  rewrite extract_loop_exhausts; [done | apply all_positions_ok |].
  rewrite length_all_positions. lia.
Qed.

End Unchecked.

(** *** The contracts of the migration primitives *)

Lemma halves_unit g : (0 <= fst (halves g))%Q /\ (fst (halves g) < 1)%Q.
Proof. split; simpl; lra. Qed.

(** C5.  For a population of size S and 0 <= N <= S, and a generator whose
    draws are doubles of [0,1), [extractRandomDeme N picks rng] returns; the
    deme has N members; N indices are appended to [picks], pairwise distinct
    and in [0, S); member i of the deme is the individual at position
    [picks[i]] of the population; a smaller request M <= N appends the first
    M of these indices (they are appended in the order of the draws); the
    population is as it was. *)
Theorem extractRandomDeme_spec {rng_type : Type}
  (nextDouble : rng_type -> Q * rng_type) (N : Z) (picks : list Z)
  (rng : rng_type) (pop : Population) :
  (forall g, (0 <= fst (nextDouble g))%Q /\ (fst (nextDouble g) < 1)%Q) ->
  (0 <= N <= size pop)%Z ->
  exists new deme rng',
    extractRandomDeme nextDouble N picks rng pop
    = Ok (mkExtraction pop deme (picks ++ new) rng') /\
    size deme = N /\ Z.of_nat (length new) = N /\ NoDup new /\
    (forall p, p ∈ new -> (0 <= p < size pop)%Z) /\
    (forall i p, new !! i = Some p ->
       exists ind, operator_subscript deme (Z.of_nat i) = Ok ind /\
                   operator_subscript pop p = Ok ind) /\
    (forall M, (0 <= M <= N)%Z ->
       exists rng'',
         extractRandomDeme nextDouble M picks rng pop
         = Ok (mkExtraction pop (take (Z.to_nat M) deme)
                 (picks ++ take (Z.to_nat M) new) rng'')).
Proof.
  intros Hunit HN.
  destruct (extractRandomDeme_ok nextDouble Hunit N picks rng pop HN)
    as (new & deme & rng' & Hrun & Hsize & Hlen & Hnd & Hin & Hrel).
  exists new, deme, rng'. repeat split; try done; try lia.
  - apply Hin, H. - apply Hin, H.
  - intros i p Hp.
    destruct (Forall2_lookup_l _ _ _ _ _ Hrel Hp) as (ind & Hind & Hpop).
    exists ind. unfold operator_subscript. split; [apply vec_at_nat, Hind|].
    apply vec_at_Ok. split; [apply Hin; eapply list_elem_of_lookup_2, Hp | done].
  - intros M HM. unfold extractRandomDeme in *.
    destruct (extract_loop_ok nextDouble Hunit pop (Z.to_nat M)
                (all_positions pop) picks [] rng (all_positions_ok pop))
      as (restM & newM & dM & gM & HrunM & [HpoolM HlenM] & HnM & _ & _
          & HrelM).
    { rewrite length_all_positions. unfold size in HN. lia. }
    destruct (extract_loop_ok nextDouble Hunit pop (Z.to_nat N - Z.to_nat M)
                restM (picks ++ newM) ([] ++ dM) gM HpoolM)
      as (rest2 & new2 & d2 & g2 & Hrun2 & _ & Hn2 & _ & _ & Hrel2).
    { rewrite HlenM, length_all_positions. unfold size in HN. lia. }
    replace (Z.to_nat N) with (Z.to_nat M + (Z.to_nat N - Z.to_nat M))%nat
      in Hrun by lia.
    rewrite extract_loop_add, HrunM in Hrun. cbn [obind] in Hrun.
    rewrite Hrun2 in Hrun. cbn [obind] in Hrun.
    injection Hrun as <- Hpicks _.
    rewrite <- app_assoc in Hpicks. apply app_inv_head in Hpicks as <-.
    exists gM. rewrite HrunM. cbn [obind].
    apply Forall2_length in HrelM.
    rewrite !take_app_length' by lia. reflexivity.
Qed.

Example extractRandomDeme_halves :
  extractRandomDeme halves 2 [] 0%nat [ind3; ind5; ind7]
  = Ok (mkExtraction [ind3; ind5; ind7] [ind5; ind7] [1; 2]%Z 2%nat).
Proof. vm_compute. reflexivity. Qed.

Lemma extractRandomDeme_spec_witness :
  (0 <= 2 <= size [ind3; ind5; ind7])%Z /\
  exists new deme rng',
    extractRandomDeme halves 2 [] 0%nat [ind3; ind5; ind7]
    = Ok (mkExtraction [ind3; ind5; ind7] deme ([] ++ new) rng') /\
    size deme = 2%Z /\ NoDup new.
Proof.
  assert (H : (0 <= 2 <= size [ind3; ind5; ind7])%Z) by (vm_compute; intuition discriminate).
  split; [exact H|].
  destruct (extractRandomDeme_spec halves 2 [] 0%nat [ind3; ind5; ind7]
              halves_unit H)
    as (new & deme & rng' & Hrun & Hsize & _ & Hnd & _).
  exists new, deme, rng'. auto.
Defined.

(** C6.  For a deme and a list [picks] of the same length whose entries are
    valid positions, [insertDeme] returns, and
    - round i of its loop (the rounds before it being [insertDeme] on the
      first i members and picks) replaces the individual it finds at
      [picks[i]] with [deme[i]] if the fitness of [deme[i]] is strictly
      below the fitness of that individual, and changes nothing if not;
    - a position outside [picks] is as it was;
    - what a position holds afterwards is what it held, or a member
      [deme[k]] with [picks[k]] that position, strictly fitter than what it
      held;
    - a position that [picks] names once, at index i, holds [deme[i]] if
      the fitness of [deme[i]] is strictly below that of the individual it
      held, and that individual if not;
    - no position [picks[i]] holds a fitness worse than before the call. *)
Theorem insertDeme_spec (deme : Population) (picks : list Z)
  (pop : Population) :
  length deme = length picks ->
  (forall p, p ∈ picks -> (0 <= p < size pop)%Z) ->
  exists pop',
    insertDeme deme picks pop = Ok pop' /\
    length pop' = length pop /\
    (forall i p d, picks !! i = Some p -> deme !! i = Some d ->
       exists before t,
         insertDeme (take i deme) (take i picks) pop = Ok before /\
         before !! Z.to_nat p = Some t /\
         insertDeme (take (S i) deme) (take (S i) picks) pop
         = Ok (if Qltb (getFitness d) (getFitness t)
               then <[Z.to_nat p := d]> before else before)) /\
    (forall j, Z.of_nat j ∉ picks -> pop' !! j = pop !! j) /\
    (forall j old, pop !! j = Some old ->
       exists new, pop' !! j = Some new /\
         (new = old \/
          exists k, picks !! k = Some (Z.of_nat j) /\ deme !! k = Some new /\
                    (getFitness new < getFitness old)%Q)) /\
    (forall i p d old,
       picks !! i = Some p -> (forall i', picks !! i' = Some p -> i' = i) ->
       deme !! i = Some d -> pop !! Z.to_nat p = Some old ->
       pop' !! Z.to_nat p
       = Some (if Qltb (getFitness d) (getFitness old) then d else old)) /\
    (forall i p old new,
       picks !! i = Some p -> pop !! Z.to_nat p = Some old ->
       pop' !! Z.to_nat p = Some new ->
       (getFitness new <= getFitness old)%Q).
Proof.
  intros Hlen Hin.
  destruct (insertDeme_from_ok deme picks 0 pop Hin) as (pop' & Hrun & Hl & Hpos);
    [simpl; lia|].
  exists pop'. split; [exact Hrun|]. split; [exact Hl|].
  split; [intros i p d; apply insertDeme_round; assumption|].
  assert (Hgen : forall j old, pop !! j = Some old ->
    exists new, pop' !! j = Some new /\
      (new = old \/
       exists k, picks !! k = Some (Z.of_nat j) /\ deme !! k = Some new /\
                 (getFitness new < getFitness old)%Q)).
  { intros j old Hj. destruct (Hpos j old Hj) as (new & Hnew & Hcase).
    exists new. split; [exact Hnew|]. exact Hcase. }
  split; [|split; [exact Hgen|split]].
  - intros j Hj. destruct (pop !! j) as [old|] eqn:Hold.
    + destruct (Hgen j old Hold) as (new & Hnew & [-> | (k & Hk & _)]); [done|].
      exfalso. apply Hj. eapply list_elem_of_lookup_2, Hk.
    + apply lookup_ge_None. apply lookup_ge_None in Hold. lia.
  - intros i p d old Hp Honce Hd Hold.
    eapply (insertDeme_from_once deme picks 0 pop pop' i p d old); try done.
    simpl. lia.
  - intros i p old new Hp Hold Hnew.
    destruct (Hgen _ _ Hold) as (new' & Hnew' & Hcase).
    rewrite Hnew in Hnew'. injection Hnew' as <-.
    destruct Hcase as [-> | (_ & _ & _ & Hlt)];
      [apply Qle_refl | apply Qlt_le_weak, Hlt].
Qed.

Example insertDeme_improves_only :
  insertDeme [ind3; ind7] [1; 0]%Z [ind5; ind5] = Ok [ind5; ind3].
Proof. vm_compute. reflexivity. Qed.

Lemma insertDeme_spec_witness :
  exists pop',
    insertDeme [ind3; ind7] [1; 0]%Z [ind5; ind5] = Ok pop' /\
    length pop' = 2.
Proof.
  destruct (insertDeme_spec [ind3; ind7] [1; 0]%Z [ind5; ind5])
    as (pop' & Hrun & Hlen & _).
  - reflexivity.
  - intros p Hp. apply list_elem_of_In in Hp. simpl in Hp. unfold size. simpl.
    intuition lia.
  - exists pop'. split; [exact Hrun | exact Hlen].
Defined.



Example insertBestInDeme_first_of_ties :
  insertBestInDeme [ind5; ind3; ind3] [2; 0; 1]%Z [ind7; ind5; ind7]
  = Ok [ind7; ind5; ind3].
Proof. vm_compute. reflexivity. Qed.


(** C4, as stated, fails: the index is not checked.  An index outside the
    population, or a request for more individuals than there are, is not
    met by a test that would raise a fault: the call goes on to an access
    of a [std::vector] outside its range, which is undefined behaviour. *)
Lemma out_of_range_is_not_detected :
  substituteIndividual ind3 1 [ind5] = Undefined out_of_range /\
  operator_subscript [ind5] (-1) = Undefined out_of_range /\
  extractRandomDeme halves 2 [] 0%nat [ind5] = Undefined out_of_range.
Proof.
  split; [vm_compute; reflexivity|]. split; vm_compute; reflexivity.
Qed.

(** C4, amended.  For an index in [0, size), [substituteIndividual]
    returns with the individual replaced and [operator[]] returns the
    individual at the index; for 0 <= N <= size, [extractRandomDeme] returns
    and leaves the population as it was.  Out of these ranges no check is
    made: the three calls go on to an access of a [std::vector] outside its
    range, which is undefined behaviour; nothing is promised of what
    happens then, neither a fault nor a return. *)
Theorem index_is_unchecked {rng_type : Type}
  (nextDouble : rng_type -> Q * rng_type) (pop : Population) (x : Individual)
  (n N : Z) (picks : list Z) (rng : rng_type) :
  (forall g, (0 <= fst (nextDouble g))%Q /\ (fst (nextDouble g) < 1)%Q) ->
  ((0 <= n < size pop)%Z ->
     substituteIndividual x n pop = Ok (<[Z.to_nat n := x]> pop) /\
     exists i, pop !! Z.to_nat n = Some i /\ operator_subscript pop n = Ok i) /\
  (~ (0 <= n < size pop)%Z ->
     substituteIndividual x n pop = Undefined out_of_range /\
     operator_subscript pop n = Undefined out_of_range) /\
  ((0 <= N <= size pop)%Z ->
     exists e, extractRandomDeme nextDouble N picks rng pop = Ok e /\
               ex_pop e = pop) /\
  ((size pop < N)%Z ->
     extractRandomDeme nextDouble N picks rng pop = Undefined out_of_range).
Proof.
  intros Hunit.
  assert (Hsub : (0 <= n < size pop)%Z ->
    substituteIndividual x n pop = Ok (<[Z.to_nat n := x]> pop))
    by apply substituteIndividual_in_range.
  assert (Hsub' : ~ (0 <= n < size pop)%Z ->
    substituteIndividual x n pop = Undefined out_of_range)
    by apply substituteIndividual_out_of_range.
  assert (Hex : (0 <= N <= size pop)%Z ->
    exists e, extractRandomDeme nextDouble N picks rng pop = Ok e /\
              ex_pop e = pop).
  { intros HN.
    destruct (extractRandomDeme_ok nextDouble Hunit N picks rng pop HN)
      as (new & deme & rng' & Hrun & _).
    eexists. split; [exact Hrun | reflexivity]. }
  assert (Hex' : (size pop < N)%Z ->
    extractRandomDeme nextDouble N picks rng pop = Undefined out_of_range)
    by apply extractRandomDeme_exhausts.
  split; [|split; [|split; [exact Hex | exact Hex']]].
  - intros Hn. split; [auto|]. unfold size in Hn.
    destruct (vec_at_in_range pop n Hn) as [i Hi]. exists i.
    split; [apply vec_at_Ok in Hi; apply Hi | exact Hi].
  - intros Hn. split; [auto|]. apply vec_at_out_of_range, Hn.
Qed.

Lemma index_is_unchecked_witness :
  substituteIndividual ind3 0 [ind5] = Ok [ind3] /\
  (exists e, extractRandomDeme halves 1 [] 0%nat [ind5] = Ok e /\
             ex_pop e = [ind5]).
Proof.
  destruct (index_is_unchecked halves [ind5] ind3 0 1 [] 0%nat halves_unit)
    as (Hin & _ & Hex & _).
  split.
  - apply Hin. unfold size. simpl. lia.
  - apply Hex. unfold size. simpl. lia.
Defined.

End PopulationFacts.

(** ** The Corana simulated annealing *)

Module SaCoranaFacts.
Import sa_corana SaCoranaSpec.

(** *** Runs of the code *)

Example one_move_constructed :
  sa_corana (Numeric0 := Qdemo) 1 10%Q 0.1%Q 1 1 0.5%Q = Ok one_move.
Proof. vm_compute. reflexivity. Qed.

(** With the draws 0 (first component) and 1/4 (r = -1/2) the candidate is
    3 - (1/2)(1/2)(10) = 1/2, of fitness 1/4: it is accepted, and written
    back with a velocity of 0. *)
Example one_move_run :
  view (evolve (Numeric0 := Qdemo) (cycle [0; 1 # 4]%Q) true one_move pop1
          0%nat)
  = Ok ([([1 # 2], [0], [1 # 4]); ([4], [0], [16])]%Q,
        [(0%nat, Improved, [1 # 2]%Q)]).
Proof. vm_compute. reflexivity. Qed.

(** Eight moves, with out-of-bounds candidates and Boltzmann acceptances;
    the last point is worse than the first and nothing is written back. *)
Example eight_moves_run :
  view (evolve (Numeric0 := Qdemo)
          (cycle [0; 3 # 4; 1 # 5; 1 # 8; 9 # 10; 1 # 2]%Q) false
          (mkAlgorithm 8 10%Q 0.1%Q 2 2 0.5%Q) pop1 0%nat)
  = Ok ([([3], [0], [9]); ([4], [0], [16])]%Q,
        [(0%nat, Infeasible, [3]%Q);
         (0%nat, Improved, [-3 # 4]%Q);
         (0%nat, Boltzmann, [-3 # 4]%Q);
         (0%nat, Boltzmann, [-15 # 4]%Q);
         (0%nat, Boltzmann, [-15 # 4]%Q);
         (0%nat, Infeasible, [-15 # 4]%Q);
         (0%nat, Improved, [1 # 4]%Q);
         (0%nat, Boltzmann, [-19 # 4]%Q)]).
Proof. vm_compute. reflexivity. Qed.

(** *** The constructor *)

Section Constructor.

Context {num : Type} `{!Numeric num}.

(** The constructor throws exactly on the failure of one of its five tests. *)
Lemma sa_corana_throws_iff niter (Ts Tf : num) niterT niterR range :
  is_fault (sa_corana niter Ts Tf niterT niterR range) <->
  (niter < 0)%Z \/ nle Ts (lit 0) = true \/ nle Tf (lit 0) = true \/
  nle Ts Tf = true \/ (niterT < 0)%Z \/ (niterR < 0)%Z \/
  nlt range (lit 0) = true \/ nlt (lit 1) range = true.
Proof.
  unfold sa_corana, is_fault.
  assert (Hthrow : forall (msg : string) (P : Prop),
            P -> (exists e, @Throw (@t num) (value_error msg) = Throw e) <-> P).
  { intros msg P HP.
    split; [intros _; exact HP | intros _; eexists; reflexivity]. }
  destruct (Z.ltb_spec niter 0); [apply Hthrow; auto|].
  destruct (nle Ts (lit 0)); [apply Hthrow; auto|].
  destruct (nle Tf (lit 0)); [apply Hthrow; auto|].
  destruct (nle Ts Tf); [apply Hthrow; auto 6|]. cbn [orb].
  destruct (Z.ltb_spec niterT 0); [apply Hthrow; auto 7|].
  destruct (Z.ltb_spec niterR 0); [apply Hthrow; auto 8|].
  destruct (nlt range (lit 0)); [apply Hthrow; auto 9|].
  destruct (nlt (lit 1) range); [apply Hthrow; auto 10|]. cbn [orb].
  split; [intros [e He]; discriminate|].
  intros [?|[?|[?|[?|[?|[?|[?|?]]]]]]]; try lia; discriminate.
Qed.

(** What an algorithm that the constructor returned satisfies. *)
Lemma sa_corana_Ok niter (Ts Tf : num) niterT niterR range a :
  sa_corana niter Ts Tf niterT niterR range = Ok a ->
  a = mkAlgorithm niter Ts Tf niterT niterR range /\
  (0 <= niter)%Z /\ nle Ts (lit 0) = false /\ nle Tf (lit 0) = false /\
  nle Ts Tf = false /\ (0 <= niterT)%Z /\ (0 <= niterR)%Z /\
  nlt range (lit 0) = false /\ nlt (lit 1) range = false.
Proof.
  unfold sa_corana.
  destruct (Z.ltb_spec niter 0); [discriminate|].
  destruct (nle Ts (lit 0)); [discriminate|].
  destruct (nle Tf (lit 0)); [discriminate|].
  destruct (nle Ts Tf); [discriminate|]. cbn [orb].
  destruct (Z.ltb_spec niterT 0); [discriminate|].
  destruct (Z.ltb_spec niterR 0); [discriminate|].
  destruct (nlt range (lit 0)); [discriminate|].
  destruct (nlt (lit 1) range); [discriminate|]. cbn [orb].
  intros [= <-]. repeat split; done.
Qed.

(** The division that gives [niterOuter] is defined only if neither period
    nor the continuous dimension is 0. *)
Lemma niterOuter_defined (a : @t num) Dc n :
  niterOuter a Dc = Ok n ->
  (m_niterT a <> 0)%Z /\ (m_niterR a <> 0)%Z /\ Dc <> 0%nat.
Proof.
  unfold niterOuter. destruct (_ || _); [discriminate|].
  destruct (Z.eqb_spec ((m_niterT a * m_niterR a * Z.of_nat Dc) mod SIZE_MOD) 0)
    as [|Hne]; [discriminate|].
  intros _. repeat split; intros H; apply Hne; try rewrite H;
    rewrite ?Z.mul_0_l, ?Z.mul_0_r; reflexivity.
Qed.

Lemma niterOuter_zero_period (a : @t num) Dc :
  (m_niterT a = 0 \/ m_niterR a = 0)%Z ->
  niterOuter a Dc = Undefined division_by_zero.
Proof.
  intros H. unfold niterOuter.
  assert (E : (m_niterT a * m_niterR a = 0)%Z) by (destruct H as [-> | ->]; lia).
  rewrite E. reflexivity.
Qed.

Lemma niterOuter_positive_periods (a : @t num) Dc :
  (1 <= m_niterT a)%Z -> (1 <= m_niterR a)%Z -> (1 <= Dc)%nat ->
  (m_niterT a * m_niterR a <= INT_MAX)%Z ->
  (m_niterT a * m_niterR a * Z.of_nat Dc < SIZE_MOD)%Z ->
  niterOuter a Dc
  = Ok (m_niter a / (m_niterT a * m_niterR a * Z.of_nat Dc))%Z.
Proof.
  intros HT HR HD Hint Hsize. unfold niterOuter.
  destruct (Z.ltb_spec INT_MAX (m_niterT a * m_niterR a)); [lia|].
  destruct (Z.ltb_spec (m_niterT a * m_niterR a) INT_MIN);
    [unfold INT_MIN in *; nia|]. cbn [orb].
  rewrite Z.mod_small by nia.
  destruct (Z.eqb_spec (m_niterT a * m_niterR a * Z.of_nat Dc) 0); [nia|].
  reflexivity.
Qed.

End Constructor.

(** *** One move *)

Section Moves.

Context {num : Type} `{!Numeric num} {rng_double : Type}.
Context (m_drng : rng_double -> num * rng_double).
Context (prob : problem.base num).

Local Abbreviation candidate := (SaCoranaSpec.candidate m_drng prob).
Local Abbreviation outside := (SaCoranaSpec.outside prob).
Local Abbreviation within := (SaCoranaSpec.within prob).
Local Abbreviation sound := (SaCoranaSpec.sound prob).

Lemma vget_insert_eq (v : list num) n c :
  n < length v -> vget (<[n := c]> v) n = c.
Proof. intros H. unfold vget. rewrite list_lookup_insert_eq by done. done. Qed.

Lemma insert_vget_same (v : list num) n c :
  <[n := vget (<[n := c]> v) n]> v = <[n := c]> v.
Proof.
  destruct (decide (n < length v)) as [Hlt|Hge].
  - rewrite vget_insert_eq by done. reflexivity.
  - rewrite !list_insert_ge by lia. reflexivity.
Qed.

Lemma insert_revert (v : list num) n c :
  <[n := vget v n]> (<[n := c]> v) = v.
Proof.
  destruct (decide (n < length v)) as [Hlt|Hge].
  - rewrite list_insert_insert_eq. apply list_insert_id. unfold vget.
    destruct (lookup_lt_is_Some_2 v n Hlt) as [x Hx]. rewrite Hx. done.
  - rewrite !list_insert_ge by (rewrite ?length_insert; lia). reflexivity.
Qed.

Lemma within_insert (x : decision_vector num) n c :
  within x -> outside n c = false -> within (<[n := c]> x).
Proof.
  intros Hx Hc i d Hi. destruct (decide (i = n)) as [->|Hne].
  - destruct (decide (n < length x)) as [Hlt|Hge].
    + rewrite list_lookup_insert_eq in Hi by done. congruence.
    + rewrite list_insert_ge in Hi by lia. eauto.
  - rewrite list_lookup_insert_ne in Hi by done. eauto.
Qed.

(** The shape of a move from a state in which the candidate vector is the
    working vector, as it is between two moves. *)
Lemma move_cases nter s :
  xNEW s = xOLD s ->
  let g1 := snd (m_drng (drng s)) in
  let x' := <[nter := candidate nter s]> (xOLD s) in
  let f' := problem.objfun prob x' in
  let up := <[nter := (iget (acp s) nter + 1)%Z]> (acp s) in
  move m_drng prob nter s =
  if outside nter (vget x' nter) then
    mkState (xOLD s) (xOLD s) (fNEW s) (fOLD s) (Step s) (acp s) (currentT s)
      g1 (mkMove nter Infeasible None (xOLD s) :: moves s)
  else if problem.compare_fitness prob f' (fOLD s) then
    mkState x' x' f' f' (Step s) up (currentT s) g1
      (mkMove nter Improved (Some x') x' :: moves s)
  else if nlt (fst (m_drng g1)) (probab s f') then
    mkState x' x' f' f' (Step s) up (currentT s) (snd (m_drng g1))
      (mkMove nter Boltzmann (Some x') x' :: moves s)
  else
    mkState (xOLD s) (xOLD s) f' (fOLD s) (Step s) (acp s) (currentT s)
      (snd (m_drng g1)) (mkMove nter Reverted (Some x') (xOLD s) :: moves s).
Proof.
  intros Heq. cbv zeta. unfold move, candidate, outside, probab.
  destruct (m_drng (drng s)) as [d g1]. cbn [fst snd]. rewrite Heq.
  set (x' := <[nter := _]> (xOLD s)).
  assert (Hacc : <[nter := vget x' nter]> (xOLD s) = x')
    by apply insert_vget_same.
  assert (Hrev : <[nter := vget (xOLD s) nter]> x' = xOLD s)
    by apply insert_revert.
  destruct (_ || _).
  - rewrite Hrev. reflexivity.
  - destruct (problem.compare_fitness prob _ _).
    + rewrite Hacc. reflexivity.
    + destruct (m_drng g1) as [u g2]. cbn [fst snd].
      destruct (nlt u _).
      * rewrite Hacc. reflexivity.
      * rewrite Hrev. reflexivity.
Qed.

(** C2.  A move of component [nter], made from a state in which the
    candidate vector is the working vector (as it is between two moves),
    draws r and forms the candidate coordinate.  If the coordinate is above
    the upper or below the lower bound, the move is reverted and the
    objective function is not evaluated.  If not, the objective function is
    evaluated at the candidate point; the point is accepted if its fitness
    improves on the current one by [compare_fitness]; if it does not, a new
    double is drawn and the point is accepted if
    exp(|fOLD[0] - fNEW[0]| / currentT) is greater than that double, and
    reverted if it is not. *)
Theorem move_spec (nter : nat) (s : state) :
  xNEW s = xOLD s -> nter < length (xOLD s) ->
  let g1 := snd (m_drng (drng s)) in
  let u := fst (m_drng g1) in
  let c := candidate nter s in
  let x' := <[nter := c]> (xOLD s) in
  let f' := problem.objfun prob x' in
  let s' := move m_drng prob nter s in
  let accepted :=
    xNEW s' = x' /\ xOLD s' = x' /\ fOLD s' = f' /\
    acp s' = <[nter := (iget (acp s) nter + 1)%Z]> (acp s) in
  let reverted :=
    xNEW s' = xOLD s /\ xOLD s' = xOLD s /\ fOLD s' = fOLD s /\
    acp s' = acp s in
  exists m, moves s' = m :: moves s /\ mv_dim m = nter /\
    (outside nter c = true ->
       reverted /\ mv_evaluated m = None /\ mv_verdict m = Infeasible /\
       drng s' = g1) /\
    (outside nter c = false ->
       mv_evaluated m = Some x' /\
       (problem.compare_fitness prob f' (fOLD s) = true ->
          accepted /\ mv_verdict m = Improved /\ drng s' = g1) /\
       (problem.compare_fitness prob f' (fOLD s) = false ->
          drng s' = snd (m_drng g1) /\
          (nlt u (probab s f') = true ->
             accepted /\ mv_verdict m = Boltzmann) /\
          (nlt u (probab s f') = false ->
             reverted /\ mv_verdict m = Reverted))).
Proof.
  intros Heq Hlen. cbv zeta. rewrite (move_cases nter s Heq). cbv zeta.
  rewrite (vget_insert_eq _ _ _ Hlen).
  destruct (outside nter (candidate nter s)).
  { eexists. split; [reflexivity|]. cbn. repeat split; discriminate. }
  destruct (problem.compare_fitness prob _ (fOLD s)).
  { eexists. split; [reflexivity|]. cbn. repeat split; discriminate. }
  destruct (nlt _ _).
  - eexists. split; [reflexivity|]. cbn. repeat split; discriminate.
  - eexists. split; [reflexivity|]. cbn. repeat split; discriminate.
Qed.

(** *** What the loops preserve *)

Section Preservation.

Variable a : t (num := num).
Variable P : state (num := num) (rng_double := rng_double) -> Prop.

(** [P] is kept by a move and does not look at the generator, the steps
    or the counters. *)
Hypothesis P_move : forall nter s, P s -> P (move m_drng prob nter s).
Hypothesis P_frame : forall s st ac g,
  P s ->
  P (mkState (xNEW s) (xOLD s) (fNEW s) (fOLD s) st ac (currentT s) g (moves s)).

Lemma iter_preserves {A} (Q : A -> Prop) (f : A -> A) n x :
  (forall y, Q y -> Q (f y)) -> Q x -> Q (Nat.iter n f x).
Proof. intros Hf Hx. induction n as [|n IH]; simpl; auto. Qed.

Lemma visit_preserves Dc numb nter s :
  P s -> P (visit m_drng prob Dc numb nter s).
Proof.
  revert nter s. induction numb as [|numb IH]; intros nter s Hs; simpl; auto.
Qed.

Lemma sweep_preserves Dc s : P s -> P (sweep m_drng prob Dc s).
Proof.
  intros Hs. unfold sweep. destruct (m_drng (drng s)) as [d g1].
  apply visit_preserves, P_frame, Hs.
Qed.

Lemma adjust_all_preserves Dc s : P s -> P (adjust_all a Dc s).
Proof.
  unfold adjust_all. generalize (seq 0 Dc). intros l. revert s.
  induction l as [|i l IH]; intros s Hs; simpl; [done|].
  apply IH. unfold adjust. apply (P_frame s), Hs.
Qed.

Lemma stage_preserves Dc s : P s -> P (stage m_drng a prob Dc s).
Proof.
  intros Hs. unfold stage. apply adjust_all_preserves, iter_preserves; [|done].
  apply sweep_preserves.
Qed.

Lemma anneal_preserves Dc c s :
  (forall s', P s' -> P (cool c s')) ->
  P s -> P (anneal m_drng a prob Dc c s).
Proof.
  intros Hcool Hs. unfold anneal. apply Hcool, iter_preserves; [|done].
  apply stage_preserves.
Qed.

(** An invariant of the moves that the cooling keeps holds after the main
    loops. *)
Lemma main_loops_preserves Dc n s :
  (forall s', P s' -> P (cool (Tcoeff a n) s')) ->
  P s -> P (main_loops m_drng a prob Dc n s).
Proof.
  intros Hcool Hs. unfold main_loops. apply iter_preserves; [|done].
  intros y. apply anneal_preserves, Hcool.
Qed.

End Preservation.

(** *** The working point *)

Lemma within_candidate (x : decision_vector num) n c :
  within x -> outside n (vget (<[n := c]> x) n) = false ->
  within (<[n := c]> x).
Proof.
  intros Hx Hc. destruct (decide (n < length x)) as [Hlt|Hge].
  - rewrite vget_insert_eq in Hc by done. apply within_insert; done.
  - rewrite list_insert_ge by lia. exact Hx.
Qed.

Lemma sound_move x0 fit0 nter s :
  sound x0 fit0 s -> sound x0 fit0 (move m_drng prob nter s).
Proof.
  intros (Heq & Hin & Hall & Hfit). rewrite (move_cases nter s Heq). cbv zeta.
  destruct (outside nter _) eqn:Hout.
  { repeat split; cbn; auto. }
  pose proof (within_candidate _ _ _ Hin Hout) as Hin'.
  destruct (problem.compare_fitness prob _ _).
  { repeat split; cbn; auto. }
  destruct (nlt _ _); repeat split; cbn; auto.
Qed.

Lemma sound_initial (a : t) D x0 fit0 (g : rng_double) :
  within x0 -> sound x0 fit0 (initial a D x0 fit0 g).
Proof. intros H. repeat split; cbn; auto. Qed.

Lemma sound_main_loops (a : t) Dc n x0 fit0 s :
  sound x0 fit0 s -> sound x0 fit0 (main_loops m_drng a prob Dc n s).
Proof.
  apply main_loops_preserves.
  - intros nter s'. apply sound_move.
  - intros s' st ac g H. exact H.
  - intros s' H. exact H.
Qed.

End Moves.

(** *** The best individual *)

Section Best.

Context {num : Type}.

Lemma rank_asym (cmp : fitness_vector num -> fitness_vector num -> bool) f g :
  ranking cmp -> cmp f g = true -> cmp g f = false.
Proof.
  intros R H. destruct (cmp g f) eqn:E; [|done].
  rewrite <- (rank_irrefl cmp R f). symmetry. eapply rank_trans; eauto.
Qed.

Lemma best_from_lt cmp (rest : list (population.individual_type num)) :
  forall idx f i,
    idx < i -> population.best_from cmp idx f i rest < i + length rest.
Proof.
  induction rest as [|y rest IH]; intros idx f i Hlt; simpl; [lia|].
  destruct (cmp _ f).
  - specialize (IH i (population.cur_f y) (S i)). lia.
  - specialize (IH idx f (S i)). lia.
Qed.

Lemma get_best_idx_Ok (pop : population.t num) b :
  population.get_best_idx pop = Ok b ->
  exists best, population.m_container pop !! b = Some best /\
               population.get_individual pop b = Ok best.
Proof.
  unfold population.get_best_idx, population.get_individual.
  destruct (population.m_container pop) as [|y rest] eqn:E; [discriminate|].
  intros [= <-].
  pose proof (best_from_lt (problem.compare_fitness (population.problem pop))
                rest 0 (population.cur_f y) 1) as Hlt.
  destruct (lookup_lt_is_Some_2 (y :: rest)
              (population.best_from
                 (problem.compare_fitness (population.problem pop)) 0
                 (population.cur_f y) 1 rest)) as [best Hb].
  { simpl. lia. }
  exists best. rewrite Hb. done.
Qed.

(** The scan ends on an individual to which none is preferred. *)
Lemma best_from_spec cmp (rest : list (population.individual_type num)) :
  ranking cmp ->
  forall seen idx y,
    seen !! idx = Some y ->
    (forall k z, seen !! k = Some z ->
       cmp (population.cur_f z) (population.cur_f y) = false) ->
    exists y',
      (seen ++ rest)
        !! population.best_from cmp idx (population.cur_f y) (length seen) rest
      = Some y' /\
      forall k z, (seen ++ rest) !! k = Some z ->
        cmp (population.cur_f z) (population.cur_f y') = false.
Proof.
  intros R. induction rest as [|x rest IH]; intros seen idx y Hy Hbest.
  - exists y. rewrite app_nil_r. simpl. done.
  - cbn [population.best_from].
    replace (S (length seen)) with (length (seen ++ [x]))
      by (rewrite length_app; simpl; lia).
    replace (seen ++ x :: rest) with ((seen ++ [x]) ++ rest)
      by (rewrite <- app_assoc; done).
    destruct (cmp (population.cur_f x) (population.cur_f y)) eqn:Hx.
    + apply IH.
      * rewrite lookup_app_r by lia. rewrite Nat.sub_diag. done.
      * intros k z [Hz | [_ Hz]]%lookup_app_Some.
        -- eapply rank_neg_trans; [exact R | eapply Hbest, Hz |].
           apply rank_asym; done.
        -- destruct (k - length seen) as [|[|]]; simpl in Hz; try done.
           injection Hz as <-. apply rank_irrefl, R.
    + apply IH.
      * rewrite lookup_app_l; [done | eapply lookup_lt_Some, Hy].
      * intros k z [Hz | [_ Hz]]%lookup_app_Some; [eapply Hbest, Hz|].
        destruct (k - length seen) as [|[|]]; simpl in Hz; try done.
        injection Hz as <-. exact Hx.
Qed.

Lemma best_fitness_spec (pop : population.t num) :
  ranking (problem.compare_fitness (population.problem pop)) ->
  population.m_container pop <> [] ->
  exists fb,
    best_fitness pop = Ok fb /\
    forall k z, population.m_container pop !! k = Some z ->
      problem.compare_fitness (population.problem pop)
        (population.cur_f z) fb = false.
Proof.
  intros R Hne. unfold best_fitness, population.get_best_idx,
    population.get_individual.
  destruct (population.m_container pop) as [|y rest] eqn:E; [done|].
  destruct (best_from_spec _ rest R [y] 0 y eq_refl) as (y' & Hy' & Hbest).
  { intros [|k] z Hz; [|done]. injection Hz as <-. apply rank_irrefl, R. }
  exists (population.cur_f y'). cbn [obind].
  change (length [y]) with 1 in Hy'. change ([y] ++ rest) with (y :: rest) in *.
  rewrite Hy'. done.
Qed.

End Best.

(** *** The whole of [evolve] *)

Section EvolveFacts.

Context {num : Type} `{!Numeric num} {rng_double : Type}.
Context (m_drng : rng_double -> num * rng_double).
Context (set_x_evaluates : bool).

Local Abbreviation final_state := (SaCoranaSpec.final_state m_drng).
Local Abbreviation written := (SaCoranaSpec.written set_x_evaluates).

Lemma write_back {B} (pop : population.t num) b best x
  (k : population.t num -> outcome B) :
  population.m_container pop !! b = Some best ->
  (let* pop1 := population.set_x set_x_evaluates pop b x in
   let* stored := population.get_individual pop1 b in
   let* pop2 := population.set_v pop1 b
                  (zip_with nsub x (population.cur_x stored)) in
   k pop2)
  = k (population.mkPopulation (population.problem pop)
         (<[b := population.mkIndividual x (zip_with nsub x x)
                   (if set_x_evaluates
                    then problem.objfun (population.problem pop) x
                    else population.cur_f best)]>
            (population.m_container pop))).
Proof.
  intros Hb. unfold population.set_x, population.get_individual.
  rewrite Hb. cbn [obind population.m_container population.problem].
  assert (Hlt : b < length (population.m_container pop))
    by (eapply lookup_lt_Some, Hb).
  rewrite list_lookup_insert_eq by done. cbn [obind population.cur_x].
  unfold population.set_v, population.get_individual.
  cbn [population.m_container population.problem].
  rewrite list_lookup_insert_eq by done. cbn [obind].
  rewrite list_insert_insert_eq. reflexivity.
Qed.

(** [evolve] returns exactly when its four tests pass, the division that
    gives [niterOuter] is defined and the population is not empty; then it
    returns the population with the best individual written, or as it was. *)
Lemma evolve_Ok (a : t) (pop : population.t num) g r :
  evolve m_drng set_x_evaluates a pop g = Ok r <->
  exists n b best,
    let prob := population.problem pop in
    let Dc := problem.get_dimension prob - problem.get_i_dimension prob in
    let s := final_state a pop best n g in
    Dc <> 0 /\ problem.get_c_dimension prob = 0 /\
    problem.get_f_dimension prob = 1 /\
    niterOuter a Dc = Ok n /\ n <> 0%Z /\
    population.get_best_idx pop = Ok b /\
    population.m_container pop !! b = Some best /\
    r = mkEvolved
          (if problem.compare_fitness prob (fOLD s) (population.cur_f best)
           then population.mkPopulation prob
                  (<[b := written pop best s]> (population.m_container pop))
           else pop)
          (drng s) (rev (moves s)).
Proof.
  unfold evolve. cbv zeta.
  destruct (Nat.eqb_spec (problem.get_dimension (population.problem pop)
              - problem.get_i_dimension (population.problem pop)) 0)
    as [HD|HD].
  { split; [discriminate | intros (n & b & best & ? & _); done]. }
  destruct (Nat.eqb_spec (problem.get_c_dimension (population.problem pop)) 0)
    as [Hc|Hc]; cbn [negb];
    [|split; [discriminate | intros (n & b & best & _ & ? & _); done]].
  destruct (Nat.eqb_spec (problem.get_f_dimension (population.problem pop)) 1)
    as [Hf|Hf]; cbn [negb];
    [|split; [discriminate | intros (n & b & best & _ & _ & ? & _); done]].
  destruct (niterOuter a _) as [n| |] eqn:Hn; cbn [obind];
    [|split; [discriminate | intros (n & b & best & _ & _ & _ & ? & _); done]..].
  destruct (Z.eqb_spec n 0) as [Hn0|Hn0].
  { split; [discriminate|].
    intros (n' & b & best & _ & _ & _ & [= <-] & ? & _). done. }
  destruct (population.get_best_idx pop) as [b| |] eqn:Hb; cbn [obind];
    [|split; [discriminate
             |intros (n' & b & best & _ & _ & _ & _ & _ & ? & _); done]..].
  destruct (get_best_idx_Ok pop b Hb) as (best & Hbest & Hget).
  rewrite Hget. cbn [obind].
  fold (final_state a pop best n g).
  set (s := final_state a pop best n g).
  assert (Hrun :
    (if problem.compare_fitness (population.problem pop) (fOLD s)
          (population.cur_f best)
     then
       let* pop1 := population.set_x set_x_evaluates pop b (xOLD s) in
       let* stored := population.get_individual pop1 b in
       let* pop2 := population.set_v pop1 b
                      (zip_with nsub (xOLD s) (population.cur_x stored)) in
       Ok (mkEvolved pop2 (drng s) (rev (moves s)))
     else Ok (mkEvolved pop (drng s) (rev (moves s))))
    = Ok (mkEvolved
            (if problem.compare_fitness (population.problem pop) (fOLD s)
                  (population.cur_f best)
             then population.mkPopulation (population.problem pop)
                    (<[b := written pop best s]> (population.m_container pop))
             else pop)
            (drng s) (rev (moves s)))).
  { destruct (problem.compare_fitness _ _ _); [|reflexivity].
    apply (write_back pop b best (xOLD s)
             (fun pop2 => Ok (mkEvolved pop2 (drng s) (rev (moves s)))) Hbest). }
  rewrite Hrun. split.
  - intros [= <-]. exists n, b, best. repeat split; done.
  - intros (n' & b' & best' & _ & _ & _ & [= <-] & _ & [= <-] & Hbest' & ->).
    rewrite Hbest in Hbest'. injection Hbest' as <-. reflexivity.
Qed.

(** [evolve] returns for a problem that passes its tests, periods of at
    least 1 whose products fit, a budget of at least one round of the outer
    loop and a population that is not empty. *)
Lemma evolve_returns (a : t) (pop : population.t num) g :
  let prob := population.problem pop in
  let Dc := problem.get_dimension prob - problem.get_i_dimension prob in
  1 <= Dc -> problem.get_c_dimension prob = 0 ->
  problem.get_f_dimension prob = 1 ->
  (1 <= m_niterT a)%Z -> (1 <= m_niterR a)%Z ->
  (m_niterT a * m_niterR a <= INT_MAX)%Z ->
  (m_niterT a * m_niterR a * Z.of_nat Dc < SIZE_MOD)%Z ->
  (m_niterT a * m_niterR a * Z.of_nat Dc <= m_niter a)%Z ->
  population.m_container pop <> [] ->
  exists r, evolve m_drng set_x_evaluates a pop g = Ok r.
Proof.
  intros prob Dc HD Hc Hf HT HR Hint Hsize Hbudget Hne.
  destruct (population.get_best_idx pop) as [b| |] eqn:Hb;
    try (unfold population.get_best_idx in Hb;
         destruct (population.m_container pop); [done | discriminate]).
  destruct (get_best_idx_Ok pop b Hb) as (best & Hbest & _).
  eexists. apply evolve_Ok.
  exists (m_niter a / (m_niterT a * m_niterR a * Z.of_nat Dc))%Z, b, best.
  cbv zeta. fold prob. fold Dc.
  split; [lia|]. split; [exact Hc|]. split; [exact Hf|].
  split; [apply niterOuter_positive_periods; assumption|].
  split.
  { assert (1 <= m_niter a / (m_niterT a * m_niterR a * Z.of_nat Dc))%Z; [|lia].
    apply Z.div_le_lower_bound; nia. }
  split; [exact Hb|]. split; [exact Hbest|]. reflexivity.
Qed.

(** What [evolve] does to the population, for every instance of the
    numbers: only the best individual is written, and only if the last
    working point improves on its fitness; its decision vector becomes that
    point [x], and its velocity the difference of [x] with itself, because
    the difference is taken with the decision vector stored by [set_x]. *)
Lemma evolve_write_back (a : t) (pop : population.t num) g r :
  evolve m_drng set_x_evaluates a pop g = Ok r ->
  exists n b best,
    let prob := population.problem pop in
    let s := final_state a pop best n g in
    population.get_best_idx pop = Ok b /\
    population.m_container pop !! b = Some best /\
    population.problem (ev_pop r) = prob /\
    (forall j, j <> b ->
       population.m_container (ev_pop r) !! j
       = population.m_container pop !! j) /\
    (problem.compare_fitness prob (fOLD s) (population.cur_f best) = false ->
       ev_pop r = pop) /\
    (problem.compare_fitness prob (fOLD s) (population.cur_f best) = true ->
       exists w,
         population.m_container (ev_pop r) !! b = Some w /\
         population.cur_x w = xOLD s /\
         population.cur_v w = zip_with nsub (xOLD s) (xOLD s)).
Proof.
  intros (n & b & best & _ & _ & _ & _ & _ & Hb & Hbest & ->)%evolve_Ok.
  exists n, b, best. cbv zeta. cbn [ev_pop].
  split; [exact Hb|]. split; [exact Hbest|].
  destruct (problem.compare_fitness _ _ _).
  - cbn. repeat split; try done.
    + intros j Hj. apply list_lookup_insert_ne. congruence.
    + intros _. eexists.
      split; [apply list_lookup_insert_eq; eapply lookup_lt_Some, Hbest|].
      split; reflexivity.
  - repeat split; done.
Qed.


End EvolveFacts.

(** *** Runs on the rationals *)

Lemma sphere_ranking D lb ub :
  ranking (problem.compare_fitness (sphere D lb ub)).
Proof.
  split; cbn [sphere problem.compare_fitness].
  - intros f. apply Qltb_ge, Qle_refl.
  - intros f g h H1%Qltb_lt H2%Qltb_lt. apply Qltb_lt. eapply Qlt_trans; eauto.
  - intros f g h H1%Qltb_ge H2%Qltb_ge. apply Qltb_ge. eapply Qle_trans; eauto.
Qed.

Lemma pop1_within i ind :
  population.m_container pop1 !! i = Some ind ->
  within (Numeric0 := Qdemo) sphere1 (population.cur_x ind).
Proof.
  destruct i as [|[|i]]; cbn; intros [= <-]; intros [|j] c; cbn;
    try discriminate; intros [= <-]; vm_compute; reflexivity.
Qed.

Lemma move_spec_witness :
  xNEW start1 = xOLD start1 /\ 0 < length (xOLD start1) /\
  exists m,
    moves (move (Numeric0 := Qdemo) (cycle [0; 1 # 4]%Q) sphere1 0 start1)
    = m :: moves start1 /\ mv_dim m = 0.
Proof.
  assert (H1 : xNEW start1 = xOLD start1) by reflexivity.
  assert (H2 : 0 < length (xOLD start1)) by (simpl; lia).
  split; [exact H1|]. split; [exact H2|].
  destruct (move_spec (Numeric0 := Qdemo) (cycle [0; 1 # 4]%Q) sphere1 0
              start1 H1 H2) as (m & Hm & Hdim & _).
  exists m. split; [exact Hm | exact Hdim].
Defined.


(** C1, at a run of one accepted move.  The best individual is at 3 with
    fitness 9; the move takes the working point to 1/2, of fitness 1/4,
    which improves on 9.  [evolve] writes the point 1/2 to the best
    individual and leaves the other individual alone, but the velocity it
    writes is 0: neither 1/2 - 3 nor 3 - 1/2, the difference between the
    old and the new decision vector. *)
Theorem evolve_velocity_is_zero :
  exists r w other,
    evolve (Numeric0 := Qdemo) (cycle [0; 1 # 4]%Q) true one_move pop1 0%nat
    = Ok r /\
    population.m_container (ev_pop r) = [w; other] /\
    population.m_container pop1 !! 1%nat = Some other /\
    Forall2 Qeq (population.cur_x w) [1 # 2]%Q /\
    Forall2 Qeq (population.cur_v w) [0]%Q /\
    ~ Forall2 Qeq (population.cur_v w) [(1 # 2) - 3]%Q /\
    ~ Forall2 Qeq (population.cur_v w) [3 - (1 # 2)]%Q.
Proof.
  eexists. eexists. eexists. split; [vm_compute; reflexivity|].
  split; [vm_compute; reflexivity|]. split; [reflexivity|].
  split; [repeat constructor|]. split; [repeat constructor|].
  split; intros H; apply Forall2_cons_1 in H as [H _]; vm_compute in H;
    discriminate.
Qed.

(** C3, at a budget of 0 iterations.  The constructor tests [niter < 0]:
    it accepts 0, which its documentation lists among the arguments that
    throw ("niter is non positive").  The failure comes later, from
    [evolve] ("niterOuter is zero, increase niter"). *)
Theorem sa_corana_accepts_zero_niter :
  sa_corana (Numeric0 := Qdemo) 0 10%Q 0.1%Q 1 1 0.5%Q
  = Ok (mkAlgorithm 0 10%Q 0.1%Q 1 1 0.5%Q) /\
  ~ is_fault (sa_corana (Numeric0 := Qdemo) 0 10%Q 0.1%Q 1 1 0.5%Q) /\
  evolve (Numeric0 := Qdemo) (cycle [0; 1 # 4]%Q) true
    (mkAlgorithm 0 10%Q 0.1%Q 1 1 0.5%Q) pop1 0%nat
  = Throw (value_error "niterOuter is zero, increase niter").
Proof.
  split; [vm_compute; reflexivity|].
  split; [intros [e He]; vm_compute in He; discriminate|].
  vm_compute. reflexivity.
Qed.

(** C10.  The constructor accepts a period of 0, for the temperature or
    for the step, and [evolve] then divides by 0 when it computes
    [niterOuter].  For an algorithm that the constructor returned, the
    division is defined only if both periods are at least 1 (and the
    continuous dimension too); if they are, and the products do not leave
    [int] and [size_t], it is defined. *)
Theorem niterOuter_divides_by_zero :
  (exists a,
     sa_corana (Numeric0 := Qdemo) 8 10%Q 0.1%Q 0 2 0.5%Q = Ok a /\
     evolve (Numeric0 := Qdemo) (cycle [0; 1 # 4]%Q) true a pop1 0%nat
     = Undefined division_by_zero) /\
  (exists a,
     sa_corana (Numeric0 := Qdemo) 8 10%Q 0.1%Q 2 0 0.5%Q = Ok a /\
     evolve (Numeric0 := Qdemo) (cycle [0; 1 # 4]%Q) true a pop1 0%nat
     = Undefined division_by_zero) /\
  (forall (num : Type) (N : Numeric num) niter (Ts Tf : num) niterT niterR
          range a Dc,
     sa_corana niter Ts Tf niterT niterR range = Ok a ->
     (forall n, niterOuter a Dc = Ok n ->
        (1 <= niterT)%Z /\ (1 <= niterR)%Z /\ 1 <= Dc) /\
     ((niterT = 0 \/ niterR = 0)%Z ->
        niterOuter a Dc = Undefined division_by_zero) /\
     ((1 <= niterT)%Z -> (1 <= niterR)%Z -> 1 <= Dc ->
      (niterT * niterR <= INT_MAX)%Z ->
      (niterT * niterR * Z.of_nat Dc < SIZE_MOD)%Z ->
      niterOuter a Dc = Ok (niter / (niterT * niterR * Z.of_nat Dc))%Z)).
Proof.
  split.
  { exists (mkAlgorithm 8 10%Q 0.1%Q 0 2 0.5%Q). split; vm_compute; reflexivity. }
  split.
  { exists (mkAlgorithm 8 10%Q 0.1%Q 2 0 0.5%Q). split; vm_compute; reflexivity. }
  intros num N niter Ts Tf niterT niterR range a Dc Ha.
  apply sa_corana_Ok in Ha as (-> & _ & _ & _ & _ & HT & HR & _).
  split; [|split].
  - intros n Hn. apply niterOuter_defined in Hn as (H1 & H2 & H3).
    cbn in H1, H2. lia.
  - intros H. apply niterOuter_zero_period. exact H.
  - intros. apply niterOuter_positive_periods;
      cbn [m_niterT m_niterR m_niter]; assumption.
Qed.

Lemma niterOuter_divides_by_zero_witness :
  exists a,
    sa_corana (Numeric0 := Qdemo) 8 10%Q 0.1%Q 2 2 0.5%Q = Ok a /\
    niterOuter a 1 = Ok 2%Z.
Proof.
  destruct niterOuter_divides_by_zero as (_ & _ & H).
  exists (mkAlgorithm 8 10%Q 0.1%Q 2 2 0.5%Q).
  assert (Ha : sa_corana (Numeric0 := Qdemo) 8 10%Q 0.1%Q 2 2 0.5%Q
               = Ok (mkAlgorithm 8 10%Q 0.1%Q 2 2 0.5%Q))
    by (vm_compute; reflexivity).
  split; [exact Ha|].
  destruct (H Q Qdemo 8%Z 10%Q 0.1%Q 2%Z 2%Z 0.5%Q _ 1%nat Ha) as (_ & _ & Hdef).
  apply Hdef; vm_compute; try discriminate; auto.
Defined.

(** *** The Boltzmann test, over the real numbers *)

Section Boltzmann.

Local Open Scope R_scope.

Context {rng_double : Type} (m_drng : rng_double -> R * rng_double).

Lemma Rltb_true x y : x < y -> Rltb x y = true.
Proof. intros H. unfold Rltb. destruct (Rlt_dec x y); [done | contradiction]. Qed.

Lemma Rleb_false x y : Rleb x y = false -> y < x.
Proof. unfold Rleb. destruct (Rle_dec x y); [discriminate | intros _; lra]. Qed.

(** The exponent is not negative, so the exponential is at least 1. *)
Lemma probab_ge_1 (s : state (num := R) (rng_double := rng_double)) fnew :
  0 < currentT s -> 1 <= probab (Numeric0 := RNumeric) s fnew.
Proof.
  intros HT. unfold probab. cbn [nexp ndiv nfabs nsub RNumeric].
  set (e := Rabs _ / currentT s).
  assert (He : 0 <= e).
  { unfold e, Rdiv. apply Rmult_le_pos; [apply Rabs_pos|].
    apply Rlt_le, Rinv_0_lt_compat, HT. }
  pose proof (exp_ineq1_le e). lra.
Qed.

Hypothesis draws_below_1 : forall g, fst (m_drng g) < 1.

Lemma hot_move prob nter s :
  hot s -> hot (move (Numeric0 := RNumeric) m_drng prob nter s).
Proof.
  intros (Heq & HT & Hall).
  rewrite (move_cases (Numeric0 := RNumeric) m_drng prob nter s Heq).
  cbv zeta. destruct (outside prob nter _).
  { repeat split; cbn; auto. constructor; [|done]. cbn. split; done. }
  destruct (problem.compare_fitness prob _ _).
  { repeat split; cbn; auto. constructor; [|done]. cbn.
    split; [done | congruence]. }
  cbn [nlt RNumeric]. rewrite Rltb_true.
  - repeat split; cbn; auto. constructor; [|done]. cbn.
    split; [done | congruence].
  - eapply Rlt_le_trans; [apply draws_below_1 | apply probab_ge_1, HT].
Qed.

Lemma hot_main_loops (a : t) prob Dc n s :
  hot s -> hot (main_loops (Numeric0 := RNumeric) m_drng a prob Dc n s).
Proof.
  apply main_loops_preserves.
  - intros nter s'. apply hot_move.
  - intros s' st ac g H. exact H.
  - intros s' (Heq & HT & Hall). repeat split; cbn; auto.
    apply Rmult_lt_0_compat; [exact HT|].
    unfold Tcoeff. cbn [npow RNumeric]. unfold Rpower. apply exp_pos.
Qed.

Local Existing Instance RNumeric.

(** A move made at a positive temperature accepts the point it proposes
    exactly if the point passes the test of the bounds. *)
Lemma ready_move prob nter (s : state (num := R) (rng_double := rng_double)) :
  ready s ->
  ready (move m_drng prob nter s) /\
  (outside prob nter (vget (proposed m_drng prob nter s) nter) = false ->
   xOLD (move m_drng prob nter s) = proposed m_drng prob nter s /\
   fOLD (move m_drng prob nter s)
   = problem.objfun prob (proposed m_drng prob nter s) /\
   acp (move m_drng prob nter s)
   = <[nter := (iget (acp s) nter + 1)%Z]> (acp s) /\
   exists m,
     moves (move m_drng prob nter s) = m :: moves s /\
     mv_evaluated m = Some (proposed m_drng prob nter s) /\
     mv_x m = proposed m_drng prob nter s /\
     (mv_verdict m = Improved \/ mv_verdict m = Boltzmann)) /\
  (outside prob nter (vget (proposed m_drng prob nter s) nter) = true ->
   xOLD (move m_drng prob nter s) = xOLD s /\
   fOLD (move m_drng prob nter s) = fOLD s /\
   acp (move m_drng prob nter s) = acp s /\
   exists m,
     moves (move m_drng prob nter s) = m :: moves s /\
     mv_evaluated m = None /\ mv_x m = xOLD s /\ mv_verdict m = Infeasible).
Proof.
  intros [Heq HT]. unfold proposed.
  rewrite (move_cases m_drng prob nter s Heq).
  cbv zeta. destruct (outside prob nter _) eqn:Hout.
  { split; [split; [reflexivity | exact HT]|]. split; [discriminate|].
    intros _. cbn. repeat split. eexists. repeat split. }
  assert (Hacc :
    nlt (fst (m_drng (snd (m_drng (drng s)))))
      (probab s
         (problem.objfun prob
            (<[nter := candidate m_drng prob nter s]> (xOLD s)))) = true).
  { cbn [nlt RNumeric]. apply Rltb_true.
    eapply Rlt_le_trans; [apply draws_below_1 | apply probab_ge_1, HT]. }
  destruct (problem.compare_fitness prob _ _).
  - split; [split; [reflexivity | exact HT]|]. split; [|discriminate].
    intros _. cbn. repeat split. eexists. repeat split. by left.
  - rewrite Hacc.
    split; [split; [reflexivity | exact HT]|]. split; [|discriminate].
    intros _. cbn. repeat split. eexists. repeat split. by right.
Qed.


End Boltzmann.



End SaCoranaFacts.

(** ** The other members of [Population] *)

Module PopulationMore.
Import Population PopulationSpec.

Local Abbreviation fit := getFitness.

(** A counted loop keeps an invariant that each of its rounds keeps. *)
Lemma for_loop_inv {L} (Inv : nat -> L -> Prop) (body : Z -> L -> outcome L) n :
  forall i s,
    Inv i s ->
    (forall k s, i <= k < i + n -> Inv k s ->
       exists s', body (Z.of_nat k) s = Ok s' /\ Inv (S k) s') ->
    exists s', for_loop n (Z.of_nat i) body s = Ok s' /\ Inv (i + n) s'.
Proof.
  induction n as [|n IH]; intros i s Hi Hbody.
  - exists s. rewrite Nat.add_0_r. done.
  - destruct (Hbody i s) as (s1 & E1 & H1); [lia | done |].
    destruct (IH (S i) s1 H1) as (s2 & E2 & H2).
    { intros k s' Hk. apply Hbody. lia. }
    exists s2. split.
    + cbn [for_loop]. rewrite E1. cbn [obind].
      replace (Z.of_nat i + 1)%Z with (Z.of_nat (S i)) by lia. exact E2.
    + replace (i + S n) with (S i + n) by lia. exact H2.
Qed.

(** *** The best and the worst individual *)

Lemma size_pos_head (pop : Population) :
  pop <> [] -> exists x0, pop !! 0 = Some x0 /\ vec_at pop 0 = Ok x0.
Proof.
  destruct pop as [|x0 pop]; [done|]. intros _. exists x0. done.
Qed.

(** The scan of [extractBestIndividual]. *)
Lemma best_scan_ok (pop : Population) x0 :
  pop !! 0 = Some x0 ->
  exists b x,
    for_loop (Z.to_nat (size pop - 1)) 1
      (fun i '(f, index) =>
         let* x := vec_at pop i in
         Ok (if Qltb (fit x) f then (fit x, i) else (f, index)))
      (fit x0, 0%Z) = Ok (fit x, Z.of_nat b) /\
    first_best pop b x.
Proof.
  intros H0.
  assert (Hlen : 1 <= length pop).
  { apply lookup_lt_Some in H0. lia. }
  destruct (for_loop_inv
    (fun i (st : Q * Z) => exists b x, st = (fit x, Z.of_nat b) /\
                                     first_best_upto pop i b x)
    (fun i '(f, index) =>
         let* x := vec_at pop i in
         Ok (if Qltb (fit x) f then (fit x, i) else (f, index)))
    (Z.to_nat (size pop - 1)) 1 (fit x0, 0%Z)) as (st & E & b & x & -> & Hb).
  - exists 0, x0. split; [done|]. split; [lia|]. split; [done|]. split.
    + intros k d Hk Hd. assert (k = 0) as -> by lia.
      rewrite H0 in Hd. injection Hd as <-. apply Qle_refl.
    + intros k d Hk. lia.
  - intros k st Hk (b & x & -> & Hlt & Hbx & Hmin & Hfirst).
    unfold size in Hk.
    destruct (lookup_lt_is_Some_2 pop k) as [y Hy]; [lia|].
    rewrite (vec_at_nat _ _ _ Hy). cbn [obind].
    destruct (Qltb (fit y) (fit x)) eqn:Hc; eexists; (split; [reflexivity|]).
    + apply Qltb_lt in Hc. exists k, y. split; [done|].
      split; [lia|]. split; [done|]. split.
      * intros j d Hj Hd. destruct (decide (j = k)) as [->|Hne].
        -- rewrite Hy in Hd. injection Hd as <-. apply Qle_refl.
        -- apply Qlt_le_weak. eapply Qlt_le_trans; [exact Hc|].
           apply (Hmin j); [lia | done].
      * intros j d Hj Hd. eapply Qlt_le_trans; [exact Hc|].
        apply (Hmin j); [lia | done].
    + apply Qltb_ge in Hc. exists b, x. split; [done|].
      split; [lia|]. split; [done|]. split.
      * intros j d Hj Hd. destruct (decide (j = k)) as [->|Hne].
        -- rewrite Hy in Hd. injection Hd as <-. exact Hc.
        -- apply (Hmin j); [lia | done].
      * exact Hfirst.
  - exists b, x. split; [exact E|]. unfold first_best.
    replace (length pop) with (1 + Z.to_nat (size pop - 1)) by (unfold size; lia).
    exact Hb.
Qed.

(** The scan of [extractWorstIndividual]. *)
Lemma worst_scan_ok (pop : Population) x0 :
  pop !! 0 = Some x0 ->
  exists w x,
    for_loop (Z.to_nat (size pop - 1)) 1
      (fun i '(f, index) =>
         let* x := vec_at pop i in
         Ok (if Qltb f (fit x) then (fit x, i) else (f, index)))
      (fit x0, 0%Z) = Ok (fit x, Z.of_nat w) /\
    first_least_fit pop w x.
Proof.
  intros H0.
  assert (Hlen : 1 <= length pop).
  { apply lookup_lt_Some in H0. lia. }
  destruct (for_loop_inv
    (fun i (st : Q * Z) => exists w x, st = (fit x, Z.of_nat w) /\
       w < i /\ pop !! w = Some x /\
       (forall k d, k < i -> pop !! k = Some d -> (fit d <= fit x)%Q) /\
       (forall k d, k < w -> pop !! k = Some d -> (fit d < fit x)%Q))
    (fun i '(f, index) =>
         let* x := vec_at pop i in
         Ok (if Qltb f (fit x) then (fit x, i) else (f, index)))
    (Z.to_nat (size pop - 1)) 1 (fit x0, 0%Z))
    as (st & E & w & x & -> & Hlt & Hwx & Hmax & Hfirst).
  - exists 0, x0. split; [done|]. split; [lia|]. split; [done|]. split.
    + intros k d Hk Hd. assert (k = 0) as -> by lia.
      rewrite H0 in Hd. injection Hd as <-. apply Qle_refl.
    + intros k d Hk. lia.
  - intros k st Hk (w & x & -> & Hlt & Hwx & Hmax & Hfirst).
    unfold size in Hk.
    destruct (lookup_lt_is_Some_2 pop k) as [y Hy]; [lia|].
    rewrite (vec_at_nat _ _ _ Hy). cbn [obind].
    destruct (Qltb (fit x) (fit y)) eqn:Hc; eexists; (split; [reflexivity|]).
    + apply Qltb_lt in Hc. exists k, y. split; [done|].
      split; [lia|]. split; [done|]. split.
      * intros j d Hj Hd. destruct (decide (j = k)) as [->|Hne].
        -- rewrite Hy in Hd. injection Hd as <-. apply Qle_refl.
        -- apply Qlt_le_weak. eapply Qle_lt_trans; [|exact Hc].
           apply (Hmax j); [lia | done].
      * intros j d Hj Hd. eapply Qle_lt_trans; [|exact Hc].
        apply (Hmax j); [lia | done].
    + apply Qltb_ge in Hc. exists w, x. split; [done|].
      split; [lia|]. split; [done|]. split.
      * intros j d Hj Hd. destruct (decide (j = k)) as [->|Hne].
        -- rewrite Hy in Hd. injection Hd as <-. exact Hc.
        -- apply (Hmax j); [lia | done].
      * exact Hfirst.
  - exists w, x. split; [exact E|]. split; [done|]. split; [|done].
    intros k d Hd. apply (Hmax k); [|done].
    apply lookup_lt_Some in Hd. unfold size. lia.
Qed.

Lemma extractBestIndividual_ok (pop : Population) :
  pop <> [] ->
  exists b x, extractBestIndividual pop = Ok x /\ first_best pop b x.
Proof.
  intros Hne. destruct (size_pos_head pop Hne) as (x0 & H0 & E0).
  destruct (best_scan_ok pop x0 H0) as (b & x & E & Hb).
  exists b, x. split; [|done].
  unfold extractBestIndividual. rewrite E0. cbn [obind].
  rewrite E. cbn [obind snd]. apply vec_at_nat. apply Hb.
Qed.

Lemma extractWorstIndividual_ok (pop : Population) :
  pop <> [] ->
  exists w x, extractWorstIndividual pop = Ok x /\ first_least_fit pop w x.
Proof.
  intros Hne. destruct (size_pos_head pop Hne) as (x0 & H0 & E0).
  destruct (worst_scan_ok pop x0 H0) as (w & x & E & Hw).
  exists w, x. split; [|done].
  unfold extractWorstIndividual. rewrite E0. cbn [obind].
  rewrite E. cbn [obind snd]. apply vec_at_nat. apply Hw.
Qed.

(** *** The mean *)

Section Rounding.

Context (fl : Q -> Q).

Lemma mean_loop (pop : Population) :
  for_loop (length pop) 0
    (fun i mean => let* x := vec_at pop i in Ok (fl (mean + fit x)%Q)) 0%Q
  = Ok (rounded_sum fl 0 pop).
Proof.
  destruct (for_loop_inv
    (fun k acc => acc = rounded_sum fl 0 (take k pop))
    (fun i mean => let* x := vec_at pop i in Ok (fl (mean + fit x)%Q))
    (length pop) 0 0%Q) as (s & E & Hs).
  - done.
  - intros k s Hk ->.
    destruct (lookup_lt_is_Some_2 pop k) as [y Hy]; [lia|].
    rewrite (vec_at_nat _ _ _ Hy). cbn [obind]. eexists. split; [reflexivity|].
    unfold rounded_sum. rewrite (take_S_r _ _ _ Hy), foldl_app. reflexivity.
  - change (Z.of_nat 0) with 0%Z in E. rewrite E, Hs. cbn [Nat.add].
    rewrite firstn_all. reflexivity.
Qed.

Lemma evaluateMean_eq (pop : Population) :
  evaluateMean fl pop
  = Ok (fl (rounded_sum fl 0 pop / inject_Z (size pop))%Q).
Proof.
  unfold evaluateMean, size. rewrite Nat2Z.id, mean_loop. reflexivity.
Qed.

(** Rounding keeps the order: *)
Hypothesis fl_monotone : forall x y, (x <= y)%Q -> (fl x <= fl y)%Q.

(** so the rounded sum of smaller fitnesses is smaller. *)
Lemma rounded_sum_le (pop' pop : Population) :
  Forall2 (fun x' x => (fit x' <= fit x)%Q) pop' pop ->
  forall a' a, (a' <= a)%Q ->
    (rounded_sum fl a' pop' <= rounded_sum fl a pop)%Q.
Proof.
  unfold rounded_sum.
  induction 1 as [|x' x pop' pop Hx _ IH]; intros a' a Ha; cbn [foldl];
    [done|].
  apply IH, fl_monotone. lra.
Qed.

Lemma evaluateMean_le (pop' pop : Population) :
  Forall2 (fun x' x => (fit x' <= fit x)%Q) pop' pop ->
  exists m' m, evaluateMean fl pop' = Ok m' /\ evaluateMean fl pop = Ok m /\
               (m' <= m)%Q.
Proof.
  intros H. exists (fl (rounded_sum fl 0 pop' / inject_Z (size pop'))%Q),
                   (fl (rounded_sum fl 0 pop / inject_Z (size pop))%Q).
  split; [apply evaluateMean_eq|]. split; [apply evaluateMean_eq|].
  apply fl_monotone. unfold size. rewrite (Forall2_length _ _ _ H).
  apply Qmult_le_compat_r.
  - apply rounded_sum_le; [done | apply Qle_refl].
  - apply Qinv_le_0_compat. change 0%Q with (inject_Z 0).
    rewrite <- Zle_Qle. lia.
Qed.

End Rounding.

Lemma to_eighths_monotone (x y : Q) :
  (x <= y)%Q -> (to_eighths x <= to_eighths y)%Q.
Proof.
  intros H. unfold to_eighths. apply Qmult_le_compat_r; [|done].
  rewrite <- Zle_Qle. apply Qfloor_resp_le. lra.
Qed.

(** *** [insertDemeForced], and a deme handed back *)

Lemma insertDemeForced_from_ok deme todo :
  forall i pop,
    (forall p, p ∈ todo -> (0 <= p < size pop)%Z) ->
    i + length todo <= length deme ->
    exists pop',
      insertDemeForced_from (Z.of_nat i) todo deme pop = Ok pop' /\
      length pop' = length pop /\
      (forall k p d, todo !! k = Some p -> deme !! (i + k) = Some d ->
         p ∉ drop (S k) todo -> pop' !! Z.to_nat p = Some d) /\
      (forall q, Z.of_nat q ∉ todo -> pop' !! q = pop !! q).
Proof.
  induction todo as [|p todo IH]; intros i pop Hin Hlen.
  - exists pop. split; [done|]. split; [done|]. split; [|done].
    intros k p d Hk. done.
  - assert (Hp : (0 <= p < size pop)%Z) by (apply Hin; left).
    unfold size in Hp. cbn [length] in Hlen.
    destruct (lookup_lt_is_Some_2 deme i) as [d Hd]; [lia|].
    destruct (vec_at_in_range pop p Hp) as [t Ht].
    destruct (IH (S i) (<[Z.to_nat p := d]> pop)) as (pop' & E & Hl & Hset & Hfr).
    { intros q Hq. unfold size. rewrite length_insert. apply Hin. by right. }
    { lia. }
    exists pop'. split; [|split; [|split]].
    + cbn [insertDemeForced_from]. unfold operator_subscript.
      rewrite (vec_at_nat _ _ _ Hd). cbn [obind].
      rewrite (vec_set_Ok _ _ _ _ Ht). cbn [obind].
      replace (Z.of_nat i + 1)%Z with (Z.of_nat (S i)) by lia. exact E.
    + rewrite Hl. apply length_insert.
    + intros k q dq Hk Hdq Hnot. destruct k as [|k].
      * cbn in Hk. injection Hk as <-. rewrite Nat.add_0_r, Hd in Hdq.
        injection Hdq as <-. cbn [drop] in Hnot.
        rewrite Hfr by (rewrite Z2Nat.id by lia; done).
        apply list_lookup_insert_eq. lia.
      * cbn in Hk. apply (Hset k); [done | | done].
        replace (S i + k) with (i + S k) by lia. done.
    + intros q Hq. rewrite Hfr.
      * apply list_lookup_insert_ne. intros <-. apply Hq.
        rewrite Z2Nat.id by lia. by left.
      * intros Hq'. apply Hq. by right.
Qed.

(** Writing back what is there changes nothing. *)
Lemma insert_copies_from deme todo :
  forall i pop,
    (forall k p, todo !! k = Some p ->
       exists d, deme !! (i + k) = Some d /\ vec_at pop p = Ok d) ->
    insertDemeForced_from (Z.of_nat i) todo deme pop = Ok pop /\
    insertDeme_from (Z.of_nat i) todo deme pop = Ok pop.
Proof.
  induction todo as [|p todo IH]; intros i pop H; [done|].
  destruct (H 0 p) as (d & Hd & Hp); [done|]. rewrite Nat.add_0_r in Hd.
  destruct (IH (S i) pop) as [IH1 IH2].
  { intros k q Hk. destruct (H (S k) q Hk) as (dq & Hdq & Hq).
    exists dq. split; [|done]. by replace (S i + k) with (i + S k) by lia. }
  apply vec_at_Ok in Hp as Hp'. destruct Hp' as [Hp0 Hpl].
  cbn [insertDemeForced_from insertDeme_from]. unfold operator_subscript.
  rewrite (vec_at_nat _ _ _ Hd). cbn [obind].
  rewrite (vec_set_Ok _ _ _ _ Hp), Hp. cbn [obind].
  rewrite (list_insert_id _ _ _ Hpl).
  replace (Z.of_nat i + 1)%Z with (Z.of_nat (S i)) by lia.
  split; [done|].
  assert (Hc : Qltb (fit d) (fit d) = false) by (apply Qltb_ge, Qle_refl).
  rewrite Hc. done.
Qed.

Lemma insert_copies pop picks deme :
  copies pop picks deme ->
  insertDemeForced deme picks pop = Ok pop /\
  insertDeme deme picks pop = Ok pop.
Proof.
  intros Hc. apply (insert_copies_from deme picks 0 pop).
  intros k p Hk. destruct (Forall2_lookup_l _ _ _ _ _ Hc Hk) as (d & Hd & Hp).
  by exists d.
Qed.

Section Extracted.

Context {rng_type : Type} (nextDouble : rng_type -> Q * rng_type).

Lemma extract_loop_copies pop n :
  forall PossiblePicks picks deme rng PossiblePicks' picks' deme' rng',
    extract_loop nextDouble n pop (PossiblePicks, picks, deme, rng)
    = Ok (PossiblePicks', picks', deme', rng') ->
    copies pop picks deme -> copies pop picks' deme'.
Proof.
  induction n as [|n IH]; intros PP picks deme rng PP' picks' deme' rng' E Hc.
  - cbn in E. by injection E as <- <- <- <-.
  - rewrite PopulationFacts.extract_loop_S in E. unfold extract_one in E.
    destruct (nextDouble rng) as [d g].
    destruct (vec_at PP _) as [p| |] eqn:Ep; try discriminate.
    cbn [obind] in E.
    destruct (vec_at pop p) as [ind| |] eqn:Ei; try discriminate.
    cbn [obind] in E. apply IH in E; [done|].
    apply Forall2_app; [done|]. by constructor.
Qed.

Lemma extractRandomDeme_copies N rng pop e :
  extractRandomDeme nextDouble N [] rng pop = Ok e ->
  ex_pop e = pop /\ copies pop (ex_picks e) (ex_deme e).
Proof.
  unfold extractRandomDeme. intros E.
  destruct (extract_loop _ _ _ _) as [[[[PP' picks'] deme'] rng']| |] eqn:El;
    try discriminate.
  cbn [obind] in E. injection E as <-. cbn. split; [done|].
  eapply extract_loop_copies; [exact El|]. constructor.
Qed.

End Extracted.

(** *** The loops over the members *)

Lemma operator_assign_ok (newpop pop : Population) :
  operator_assign newpop pop = Ok newpop.
Proof.
  unfold operator_assign, size. rewrite Nat2Z.id.
  destruct (for_loop_inv (fun k (acc : Population) => acc = take k newpop)
    (fun i acc =>
       let* x := operator_subscript newpop i in Ok (addIndividual acc x))
    (length newpop) 0 []) as (s & E & Hs).
  - done.
  - intros k s Hk ->.
    destruct (lookup_lt_is_Some_2 newpop k) as [y Hy]; [lia|].
    unfold operator_subscript. rewrite (vec_at_nat _ _ _ Hy). cbn [obind].
    eexists. split; [reflexivity|]. unfold addIndividual.
    symmetry. by apply take_S_r.
  - change (Z.of_nat 0) with 0%Z in E. rewrite E, Hs. cbn [Nat.add].
    by rewrite firstn_all.
Qed.

Section MemberLoops.

Context {rng_type : Type}.
Context (createRandomIndividual :
           list Q -> list Q -> Individual -> rng_type -> Individual * rng_type).
Context (resetVelocity :
           list Q -> list Q -> Individual -> rng_type -> Individual * rng_type).
Context {GOProblem : Type}.
Context (evaluateFitness : GOProblem -> Individual -> Individual).

Lemma create_loop_ok (P : Individual -> Prop) LB UB n :
  (forall x g, P (fst (createRandomIndividual LB UB x g))) ->
  forall x pop rng,
    Forall P pop ->
    length (fst (create_loop createRandomIndividual n LB UB x pop rng))
    = length pop + n /\
    Forall P (fst (create_loop createRandomIndividual n LB UB x pop rng)).
Proof.
  intros HP. induction n as [|n IH]; intros x pop rng Hpop; cbn [create_loop].
  - cbn. split; [lia | done].
  - pose proof (HP x rng) as Hx.
    destruct (createRandomIndividual LB UB x rng) as [x' rng'].
    destruct (IH x' (addIndividual pop x') rng') as [H1 H2].
    + unfold addIndividual. apply Forall_app. split; [done|]. by constructor.
    + split; [|done]. rewrite H1. unfold addIndividual.
      rewrite length_app. cbn. lia.
Qed.

Lemma evaluatePopulation_ok problem (pop : Population) :
  evaluatePopulation evaluateFitness problem pop
  = Ok (evaluateFitness problem <$> pop).
Proof.
  unfold evaluatePopulation.
  destruct (for_loop_inv
    (fun k (p : Population) =>
       p = (evaluateFitness problem <$> take k pop) ++ drop k pop)
    (fun i pop =>
       let* x := vec_at pop i in vec_set pop i (evaluateFitness problem x))
    (length pop) 0 pop) as (s & E & Hs).
  - done.
  - intros k s Hk ->.
    destruct (lookup_lt_is_Some_2 pop k) as [y Hy]; [lia|].
    assert (Hlen : length (evaluateFitness problem <$> take k pop) = k).
    { rewrite length_fmap, length_take. lia. }
    assert (Hat : ((evaluateFitness problem <$> take k pop) ++ drop k pop) !! k
                  = Some y).
    { rewrite lookup_app_r by lia. rewrite Hlen, Nat.sub_diag, lookup_drop.
      by rewrite Nat.add_0_r. }
    rewrite (vec_at_nat _ _ _ Hat). cbn [obind].
    rewrite (vec_set_Ok _ _ _ _ (vec_at_nat _ _ _ Hat)), Nat2Z.id.
    eexists. split; [reflexivity|].
    rewrite insert_app_r_alt by lia. rewrite Hlen, Nat.sub_diag.
    rewrite (drop_S _ _ _ Hy). cbn [insert list_insert].
    rewrite (take_S_r _ _ _ Hy), fmap_app, <- app_assoc. reflexivity.
  - change (Z.of_nat 0) with 0%Z in E. rewrite E, Hs. cbn [Nat.add].
    rewrite firstn_all, drop_all, app_nil_r. reflexivity.
Qed.

End MemberLoops.

Section Turns.

Context {rng_type : Type}.
Context (resetVelocity :
           list Q -> list Q -> Individual -> rng_type -> Individual * rng_type).

Lemma each_in_turn_snoc (f : Individual -> rng_type -> Individual * rng_type)
  (pop : Population) y :
  forall rng,
    each_in_turn f (pop ++ [y]) rng
    = let (r, rng') := each_in_turn f pop rng in
      let (y', rng'') := f y rng' in (r ++ [y'], rng'').
Proof.
  induction pop as [|x pop IH]; intros rng; cbn [each_in_turn app].
  - destruct (f y rng). reflexivity.
  - destruct (f x rng) as [x' rng1]. rewrite IH.
    destruct (each_in_turn f pop rng1) as [r rng2].
    destruct (f y rng2). reflexivity.
Qed.

Lemma each_in_turn_length (f : Individual -> rng_type -> Individual * rng_type)
  (pop : Population) :
  forall rng, length (fst (each_in_turn f pop rng)) = length pop.
Proof.
  induction pop as [|x pop IH]; intros rng; cbn [each_in_turn]; [done|].
  destruct (f x rng) as [x' rng1]. specialize (IH rng1).
  destruct (each_in_turn f pop rng1). cbn in *. by rewrite IH.
Qed.

Lemma resetVelocities_ok LB UB rng (pop : Population) :
  resetVelocities resetVelocity LB UB rng pop
  = Ok (each_in_turn (resetVelocity LB UB) pop rng).
Proof.
  unfold resetVelocities.
  destruct (for_loop_inv
    (fun k (st : Population * rng_type) =>
       exists r, each_in_turn (resetVelocity LB UB) (take k pop) rng
                 = (r, snd st) /\
                 fst st = r ++ drop k pop /\ length r = k)
    (fun j '(pop, rng) =>
       let* x := vec_at pop j in
       let (x', rng') := resetVelocity LB UB x rng in
       let* pop' := vec_set pop j x' in
       Ok (pop', rng'))
    (length pop) 0 (pop, rng)) as ([p g] & E & r & Hr & Hp & Hl).
  - exists []. done.
  - intros k [p g] Hk (r & Hr & Hp & Hl). cbn [fst snd] in Hr, Hp. subst p.
    destruct (lookup_lt_is_Some_2 pop k) as [y Hy]; [lia|].
    assert (Hat : (r ++ drop k pop) !! k = Some y).
    { rewrite lookup_app_r by lia. rewrite Hl, Nat.sub_diag, lookup_drop.
      by rewrite Nat.add_0_r. }
    rewrite (vec_at_nat _ _ _ Hat). cbn [obind].
    destruct (resetVelocity LB UB y g) as [y' g'] eqn:Ey.
    rewrite (vec_set_Ok _ _ _ _ (vec_at_nat _ _ _ Hat)), Nat2Z.id. cbn [obind].
    eexists. split; [reflexivity|]. exists (r ++ [y']). cbn [fst snd].
    split; [|split].
    + rewrite (take_S_r _ _ _ Hy), each_in_turn_snoc, Hr, Ey. reflexivity.
    + rewrite insert_app_r_alt by lia. rewrite Hl, Nat.sub_diag.
      rewrite (drop_S _ _ _ Hy). cbn [insert list_insert].
      by rewrite <- app_assoc.
    + rewrite length_app. cbn. lia.
  - change (Z.of_nat 0) with 0%Z in E. rewrite E. f_equal.
    cbn [Nat.add fst snd] in Hr, Hp. rewrite firstn_all in Hr.
    rewrite drop_all, app_nil_r in Hp. rewrite Hr. by subst p.
Qed.

End Turns.

(** *** Properties of the members *)



Lemma vec_at_cases {A} (v : list A) n :
  (exists a, vec_at v n = Ok a /\ (0 <= n < Z.of_nat (length v))%Z) \/
  vec_at v n = Undefined out_of_range.
Proof.
  destruct (decide (0 <= n < Z.of_nat (length v))%Z) as [H|H].
  - left. destruct (vec_at_in_range v n H) as [a Ha]. by exists a.
  - right. by apply vec_at_out_of_range.
Qed.

Lemma insertDemeForced_from_cases deme todo :
  forall i pop,
    i <= length deme ->
    (exists pop', insertDemeForced_from (Z.of_nat i) todo deme pop = Ok pop' /\
                  (forall p, p ∈ todo -> (0 <= p < size pop)%Z) /\
                  i + length todo <= length deme) \/
    insertDemeForced_from (Z.of_nat i) todo deme pop = Undefined out_of_range.
Proof.
  induction todo as [|p todo IH]; intros i pop Hle.
  - left. exists pop. split; [done|]. split; [|cbn [length]; lia].
    intros p Hp. by apply elem_of_nil in Hp.
  - cbn [insertDemeForced_from]. unfold operator_subscript, vec_set.
    destruct (vec_at_cases deme (Z.of_nat i)) as [(d & -> & Hi)| ->];
      [|by right]. cbn [obind].
    destruct (vec_at_cases pop p) as [(t & -> & Hp)| ->]; [|by right].
    cbn [obind]. replace (Z.of_nat i + 1)%Z with (Z.of_nat (S i)) by lia.
    destruct (IH (S i) (<[Z.to_nat p := d]> pop))
      as [(pop' & -> & Hin & Hlen)| ->]; [lia| |by right].
    left. exists pop'. split; [done|]. split; [|cbn [length]; lia].
    intros q [->|Hq]%elem_of_cons; [done|].
    specialize (Hin q Hq). unfold size in Hin. by rewrite length_insert in Hin.
Qed.

(** X4.  When every pick is a position of the population and the deme has
    a member for every pick, [insertDemeForced] returns: it keeps the size,
    leaves at every picked position the deme member of the last pick naming
    it, whatever the fitnesses, and leaves the other positions as they were.
    When a pick is no position, or the deme is too short, no test stops the
    loop: it goes on to an access outside a vector, which is undefined
    behaviour, and nothing is promised of what happens then. *)
Theorem insertDemeForced_spec (deme : Population) (picks : list Z)
  (pop : Population) :
  (placeable deme picks pop ->
   exists pop',
     insertDemeForced deme picks pop = Ok pop' /\
     size pop' = size pop /\
     (forall i p d, picks !! i = Some p -> deme !! i = Some d ->
        p ∉ drop (S i) picks -> operator_subscript pop' p = Ok d) /\
     (forall q, q ∉ picks ->
        operator_subscript pop' q = operator_subscript pop q)) /\
  (~ placeable deme picks pop ->
   insertDemeForced deme picks pop = Undefined out_of_range).
Proof.
  split.
  - intros [Hin Hlen].
    destruct (insertDemeForced_from_ok deme picks 0 pop Hin)
      as (pop' & E & Hl & Hset & Hfr); [lia|].
    exists pop'. split; [exact E|]. split; [unfold size; by rewrite Hl|].
    split.
    + intros i p d Hi Hd Hnot. apply vec_at_Ok. split.
      * apply list_elem_of_lookup_2 in Hi. apply Hin in Hi. lia.
      * by apply (Hset i).
    + intros q Hq. unfold operator_subscript, vec_at.
      destruct (q <? 0)%Z eqn:Hq0; [done|]. apply Z.ltb_ge in Hq0.
      rewrite Hfr; [done|]. by rewrite Z2Nat.id.
  - intros Hnot.
    destruct (insertDemeForced_from_cases deme picks 0 pop)
      as [(pop' & _ & Hin & Hlen)|E]; [lia| |exact E].
    exfalso. apply Hnot. split; [done | lia].
Qed.

Lemma insertDemeForced_spec_witness :
  insertDemeForced [ind7; ind5] [2%Z; 0%Z] [ind3; ind5; ind3]
  = Ok [ind5; ind5; ind7] /\
  exists pop',
    insertDemeForced [ind7; ind5] [2%Z; 0%Z] [ind3; ind5; ind3] = Ok pop' /\
    size pop' = size [ind3; ind5; ind3] /\
    (forall i p d, [2%Z; 0%Z] !! i = Some p -> [ind7; ind5] !! i = Some d ->
       p ∉ drop (S i) [2%Z; 0%Z] -> operator_subscript pop' p = Ok d) /\
    (forall q, q ∉ [2%Z; 0%Z] ->
       operator_subscript pop' q = operator_subscript [ind3; ind5; ind3] q).
Proof.
  split; [reflexivity|].
  apply (insertDemeForced_spec [ind7; ind5] [2%Z; 0%Z] [ind3; ind5; ind3]).
  split.
  - intros p Hp. unfold size. cbn [length].
    apply elem_of_cons in Hp as [->|Hp]; [lia|].
    apply elem_of_cons in Hp as [->|Hp]; [lia|]. by apply elem_of_nil in Hp.
  - cbn [length]. lia.
Defined.

(** X5.  A deme returned by [extractRandomDeme] (called with an empty
    [picks]) holds copies of the individuals at the picked positions, in the
    order of the picks; handing it back unchanged, with these picks, through
    [insertDemeForced] or through [insertDeme] leaves the population exactly
    as it was. *)
Theorem migration_round_trip {rng_type : Type}
  (nextDouble : rng_type -> Q * rng_type) (N : Z) (rng : rng_type)
  (pop : Population) (e : extraction rng_type) :
  extractRandomDeme nextDouble N [] rng pop = Ok e ->
  copies pop (ex_picks e) (ex_deme e) /\
  insertDemeForced (ex_deme e) (ex_picks e) (ex_pop e) = Ok pop /\
  insertDeme (ex_deme e) (ex_picks e) (ex_pop e) = Ok pop.
Proof.
  intros E. destruct (extractRandomDeme_copies _ _ _ _ _ E) as [-> Hc].
  split; [done|]. by apply insert_copies.
Qed.

Lemma migration_round_trip_witness :
  exists e,
    extractRandomDeme halves 2 [] 0 [ind5; ind3; ind7] = Ok e /\
    ex_picks e = [1%Z; 2%Z] /\
    insertDemeForced (ex_deme e) (ex_picks e) (ex_pop e)
    = Ok [ind5; ind3; ind7] /\
    insertDeme (ex_deme e) (ex_picks e) (ex_pop e) = Ok [ind5; ind3; ind7].
Proof.
  eexists. split; [reflexivity|]. split; [reflexivity|].
  apply (migration_round_trip halves 2 0 [ind5; ind3; ind7]). reflexivity.
Defined.



(** X7.  After [substituteIndividual x n] with [n] in range, [operator[]]
    returns [x] at [n] and what it returned before at every other index; the
    size is unchanged, a second identical call changes nothing, and a later
    substitution at [n] makes an earlier one unobservable. *)
Theorem substituteIndividual_then_read (x : Individual) (n : Z)
  (pop : Population) :
  (0 <= n < size pop)%Z ->
  exists pop',
    substituteIndividual x n pop = Ok pop' /\
    size pop' = size pop /\
    operator_subscript pop' n = Ok x /\
    (forall m, m <> n ->
       operator_subscript pop' m = operator_subscript pop m) /\
    substituteIndividual x n pop' = Ok pop' /\
    (forall y, substituteIndividual y n pop' = substituteIndividual y n pop).
Proof.
  intros Hn. exists (<[Z.to_nat n := x]> pop).
  assert (Hn' : (0 <= n < size (<[Z.to_nat n := x]> pop))%Z).
  { unfold size in *. by rewrite length_insert. }
  split; [by apply PopulationFacts.substituteIndividual_in_range|].
  split; [unfold size; by rewrite length_insert|]. split; [|split; [|split]].
  - apply vec_at_Ok. split; [lia|]. apply list_lookup_insert_eq.
    unfold size in Hn. lia.
  - intros m Hm. unfold operator_subscript, vec_at.
    destruct (m <? 0)%Z eqn:Hm0; [done|]. apply Z.ltb_ge in Hm0.
    rewrite list_lookup_insert_ne; [done | lia].
  - rewrite PopulationFacts.substituteIndividual_in_range by done.
    by rewrite list_insert_insert_eq.
  - intros y. rewrite !PopulationFacts.substituteIndividual_in_range by done.
    by rewrite list_insert_insert_eq.
Qed.

Lemma substituteIndividual_then_read_witness :
  exists pop',
    substituteIndividual ind7 1 [ind5; ind3] = Ok pop' /\
    size pop' = size [ind5; ind3] /\
    operator_subscript pop' 1 = Ok ind7 /\
    (forall m, m <> 1%Z ->
       operator_subscript pop' m = operator_subscript [ind5; ind3] m) /\
    substituteIndividual ind7 1 pop' = Ok pop' /\
    (forall y, substituteIndividual y 1 pop'
               = substituteIndividual y 1 [ind5; ind3]).
Proof.
  apply (substituteIndividual_then_read ind7 1 [ind5; ind3]).
  unfold size. cbn [length]. lia.
Defined.

(** X8.  [createRandomPopulation] discards the old contents and leaves
    exactly max (0, N) individuals, each one a result of
    [createRandomIndividual]: whatever that method guarantees of its result
    holds of every member. *)
Theorem createRandomPopulation_spec {rng_type : Type}
  (createRandomIndividual :
     list Q -> list Q -> Individual -> rng_type -> Individual * rng_type)
  (P : Individual -> Prop) (x0 : Individual) (LB UB : list Q) (N : Z)
  (rng : rng_type) (pop : Population) :
  (forall x g, P (fst (createRandomIndividual LB UB x g))) ->
  size (fst (createRandomPopulation createRandomIndividual x0 LB UB N rng pop))
  = Z.max 0 N /\
  Forall P
    (fst (createRandomPopulation createRandomIndividual x0 LB UB N rng pop)).
Proof.
  intros HP. unfold createRandomPopulation.
  destruct (create_loop_ok createRandomIndividual P LB UB (Z.to_nat N) HP
              x0 [] rng) as [H1 H2]; [constructor|].
  split; [|done]. unfold size. rewrite H1. cbn [length]. lia.
Qed.

Lemma createRandomPopulation_spec_witness :
  createRandomPopulation fresh ind3 [0%Q] [1%Q] 2 0%nat [ind7; ind7; ind7]
  = ([mkIndividual [0%Q] [1%Q] (3 + 1); mkIndividual [0%Q] [1%Q] (3 + 1 + 1)],
     2%nat) /\
  size (fst (createRandomPopulation fresh ind3 [0%Q] [1%Q] 2 0%nat
               [ind7; ind7; ind7])) = Z.max 0 2 /\
  Forall (fun x => getDecisionVector x = [0%Q])
    (fst (createRandomPopulation fresh ind3 [0%Q] [1%Q] 2 0%nat
            [ind7; ind7; ind7])).
Proof.
  split; [reflexivity|].
  apply (createRandomPopulation_spec fresh
           (fun x => getDecisionVector x = [0%Q])).
  intros x g. reflexivity.
Defined.

(** X9.  Assigning a population copies it member by member: afterwards the
    population is exactly [newpop], whatever it held before; assigning an
    individual leaves that individual alone. *)
Theorem operator_assign_copies (newpop pop : Population) (x : Individual) :
  operator_assign newpop pop = Ok newpop /\
  operator_assign_individual x pop = [x].
Proof. split; [apply operator_assign_ok | reflexivity]. Qed.

(** X10.  [evaluatePopulation] and [resetVelocities] never index out of
    range, the empty population included.  The first replaces every
    individual by its evaluation; the second resets the individuals in index
    order, the generator left by one reset being the one the next draws
    from. *)
Theorem loops_visit_each_in_turn {rng_type GOProblem : Type}
  (resetVelocity :
     list Q -> list Q -> Individual -> rng_type -> Individual * rng_type)
  (evaluateFitness : GOProblem -> Individual -> Individual)
  (LB UB : list Q) (rng : rng_type) (problem : GOProblem) (pop : Population) :
  evaluatePopulation evaluateFitness problem pop
  = Ok (evaluateFitness problem <$> pop) /\
  resetVelocities resetVelocity LB UB rng pop
  = Ok (each_in_turn (resetVelocity LB UB) pop rng).
Proof.
  split; [apply evaluatePopulation_ok | apply resetVelocities_ok].
Qed.

End PopulationMore.

(** ** The loops of the simulated annealing *)

Module SaCoranaMore.
Import sa_corana SaCoranaSpec SaCoranaFacts.

(** *** What a move changes, and a rule for the loops *)

Section Loops.

Context {num : Type} `{!Numeric num} {rng_double : Type}.
Context (m_drng : rng_double -> num * rng_double).
Context (prob : problem.base num).

(** The branches of a move. *)
Ltac branches :=
  unfold move;
  repeat match goal with
    | |- context [m_drng ?g] => destruct (m_drng g)
    | |- context [if ?c then _ else _] => destruct c
    end.

Lemma move_moves nter s :
  exists m, moves (move m_drng prob nter s) = m :: moves s /\ mv_dim m = nter.
Proof. branches; eexists; (split; [reflexivity|reflexivity]). Qed.

Lemma move_frame nter s :
  Step (move m_drng prob nter s) = Step s /\
  currentT (move m_drng prob nter s) = currentT s.
Proof. branches; done. Qed.

Lemma move_acp nter s :
  acp (move m_drng prob nter s) = acp s \/
  acp (move m_drng prob nter s) = <[nter := (iget (acp s) nter + 1)%Z]> (acp s).
Proof. branches; auto. Qed.

Lemma move_xOLD nter s :
  xOLD (move m_drng prob nter s) = xOLD s \/
  exists c, xOLD (move m_drng prob nter s) = <[nter := c]> (xOLD s).
Proof. branches; eauto. Qed.

Section Invariant.

Variable a : t (num := num).
Variable Dc : nat.
Variable P : state (num := num) (rng_double := rng_double) -> Prop.

Hypothesis Dc_pos : 0 < Dc.
Hypothesis P_move :
  forall nter s, nter < Dc -> P s -> P (move m_drng prob nter s).
Hypothesis P_draw : forall s g,
  P s ->
  P (mkState (xNEW s) (xOLD s) (fNEW s) (fOLD s) (Step s) (acp s)
       (currentT s) g (moves s)).
Hypothesis P_adjust : forall iter s, iter < Dc -> P s -> P (adjust a iter s).

Lemma visit_keeps numb nter s : P s -> P (visit m_drng prob Dc numb nter s).
Proof.
  revert nter s. induction numb as [|numb IH]; intros nter s Hs; cbn; [done|].
  apply IH, P_move; [|done]. apply Nat.mod_upper_bound. lia.
Qed.

Lemma sweep_keeps s : P s -> P (sweep m_drng prob Dc s).
Proof.
  intros Hs. unfold sweep. destruct (m_drng (drng s)) as [d g1].
  apply visit_keeps, P_draw, Hs.
Qed.

Lemma adjust_all_keeps s : P s -> P (adjust_all a Dc s).
Proof.
  unfold adjust_all.
  assert (H : forall l, (forall i, i ∈ l -> i < Dc) ->
            forall s, P s -> P (foldl (fun s iter => adjust a iter s) s l)).
  { induction l as [|i l IH]; intros Hl s' Hs'; cbn; [done|].
    apply IH; [intros j Hj; apply Hl; by right|].
    apply P_adjust; [apply Hl; by left | done]. }
  apply H. intros i Hi%elem_of_seq. lia.
Qed.

Lemma stage_keeps s : P s -> P (stage m_drng a prob Dc s).
Proof.
  intros Hs. unfold stage. apply adjust_all_keeps, iter_preserves; [|done].
  apply sweep_keeps.
Qed.

Lemma main_loops_keeps n s :
  (forall c s', P s' -> P (cool c s')) ->
  P s -> P (main_loops m_drng a prob Dc n s).
Proof.
  intros Hcool Hs. unfold main_loops. apply iter_preserves; [|done].
  intros y Hy. unfold anneal. apply Hcool, iter_preserves; [|done].
  apply stage_keeps.
Qed.

End Invariant.

(** *** The number of moves *)

Lemma iter_adds {A} (len : A -> nat) (f : A -> A) k n x :
  (forall y, len (f y) = k + len y) -> len (Nat.iter n f x) = n * k + len x.
Proof.
  intros Hf. induction n as [|n IH]; [done|].
  rewrite Nat.iter_succ, Hf, IH. lia.
Qed.

Lemma visit_length Dc numb nter s :
  length (moves (visit m_drng prob Dc numb nter s)) = numb + length (moves s).
Proof.
  revert nter s. induction numb as [|numb IH]; intros nter s; cbn [visit]; [done|].
  rewrite IH. destruct (move_moves ((nter + 1) mod Dc) s) as (m & -> & _).
  cbn [length]. lia.
Qed.

Lemma sweep_length Dc s :
  length (moves (sweep m_drng prob Dc s)) = Dc + length (moves s).
Proof.
  unfold sweep. destruct (m_drng (drng s)). by rewrite visit_length.
Qed.

Lemma adjust_all_moves (a : @t num) Dc
  (s : state (num := num) (rng_double := rng_double)) :
  moves (adjust_all a Dc s) = moves s /\
  currentT (adjust_all a Dc s) = currentT s /\
  xOLD (adjust_all a Dc s) = xOLD s /\
  fOLD (adjust_all a Dc s) = fOLD s /\
  drng (adjust_all a Dc s) = drng s.
Proof.
  unfold adjust_all. generalize (seq 0 Dc). intros l. revert s.
  induction l as [|i l IH]; intros s; cbn [foldl]; [done|].
  destruct (IH (adjust a i s)) as (-> & -> & -> & -> & ->). done.
Qed.

Lemma stage_length (a : @t num) Dc s :
  length (moves (stage m_drng a prob Dc s))
  = Z.to_nat (m_niterR a) * Dc + length (moves s).
Proof.
  unfold stage. destruct (adjust_all_moves a Dc
    (Nat.iter (Z.to_nat (m_niterR a)) (sweep m_drng prob Dc) s)) as [-> _].
  apply (iter_adds (fun s => length (moves s))). apply sweep_length.
Qed.

Lemma anneal_length (a : @t num) Dc c s :
  length (moves (anneal m_drng a prob Dc c s))
  = Z.to_nat (m_niterT a) * (Z.to_nat (m_niterR a) * Dc) + length (moves s).
Proof.
  unfold anneal. cbn [cool moves].
  apply (iter_adds (fun s => length (moves s))). apply stage_length.
Qed.

Lemma main_loops_length (a : @t num) Dc n s :
  length (moves (main_loops m_drng a prob Dc n s))
  = Z.to_nat n * (Z.to_nat (m_niterT a) * (Z.to_nat (m_niterR a) * Dc))
    + length (moves s).
Proof.
  unfold main_loops.
  apply (iter_adds (fun s => length (moves s))). intros y. apply anneal_length.
Qed.

End Loops.

(** *** The budget *)

Section Budget.

Context {num : Type} `{!Numeric num} {rng_double : Type}.
Context (m_drng : rng_double -> num * rng_double).
Context (set_x_evaluates : bool).

(** X11.  A run of [evolve] that returns, for an algorithm built by the
    constructor and a round of the outer loop that fits a [size_t], makes
    exactly [niter / (niterT * niterR * Dc)] rounds of [niterT * niterR * Dc]
    moves each: at least one round, at most [m_niter] moves, and fewer than
    one round short of [m_niter]; what is left of the budget is not used. *)
Theorem evolve_budget niter (Ts Tf : num) niterT niterR range a
  (pop : population.t num) (g : rng_double) r :
  sa_corana niter Ts Tf niterT niterR range = Ok a ->
  evolve m_drng set_x_evaluates a pop g = Ok r ->
  (schedule a (population.problem pop) < SIZE_MOD)%Z ->
  (1 <= schedule a (population.problem pop) <= m_niter a)%Z /\
  Z.of_nat (length (ev_moves r))
  = (m_niter a / schedule a (population.problem pop)
     * schedule a (population.problem pop))%Z /\
  (Z.of_nat (length (ev_moves r)) <= m_niter a)%Z /\
  (m_niter a - Z.of_nat (length (ev_moves r))
   < schedule a (population.problem pop))%Z.
Proof.
  intros Ha Hr. unfold schedule, continuous.
  set (prob := population.problem pop).
  set (Dc := problem.get_dimension prob - problem.get_i_dimension prob).
  apply sa_corana_Ok in Ha as (-> & Hn & _ & _ & _ & HT & HR & _).
  apply evolve_Ok in Hr as (n & b & best & _ & _ & _ & Hout & Hn0 & _ & _ & ->).
  fold prob in Hout. fold Dc in Hout.
  pose proof (niterOuter_defined _ _ _ Hout) as (HT0 & HR0 & HD0).
  cbn [m_niterT m_niterR m_niter] in *.
  set (period := (niterT * niterR * Z.of_nat Dc)%Z). intros Hsize.
  unfold niterOuter in Hout. cbn [m_niterT m_niterR m_niter] in Hout.
  destruct (_ || _); [discriminate|]. fold period in Hout.
  assert (Hp : (1 <= period)%Z) by (unfold period; nia).
  rewrite Z.mod_small in Hout by lia.
  destruct (period =? 0)%Z; [discriminate|]. injection Hout as <-.
  cbv zeta. fold prob. fold Dc. cbn [ev_moves].
  assert (Hq : (0 <= niter / period)%Z) by (apply Z.div_pos; lia).
  assert (Hlen : Z.of_nat (length (rev (moves
            (final_state m_drng (mkAlgorithm niter Ts Tf niterT niterR range)
               pop best (niter / period) g))))
          = (niter / period * period)%Z).
  { rewrite length_rev. unfold final_state.
    rewrite main_loops_length. cbn [initial moves length m_niterT m_niterR].
    fold prob. fold Dc.
    rewrite Nat.add_0_r, !Nat2Z.inj_mul, !Z2Nat.id by lia.
    unfold period. ring. }
  rewrite Hlen.
  pose proof (Z.mul_div_le niter period ltac:(lia)).
  pose proof (Z.mul_succ_div_gt niter period ltac:(lia)).
  assert (niter / period <> 0)%Z by exact Hn0.
  split; [nia|]. split; [done|]. split; nia.
Qed.

End Budget.

(** *** The components of a sweep *)

Lemma rotation_S Dc nter numb :
  rotation Dc nter (S numb)
  = (nter + 1) mod Dc :: rotation Dc ((nter + 1) mod Dc) numb.
Proof.
  unfold rotation. cbn [seq map]. f_equal.
  rewrite <- (fmap_S_seq 1). rewrite <- list_fmap_compose.
  apply list_fmap_ext. intros _ k _. cbn.
  rewrite Nat.Div0.add_mod_idemp_l. f_equal. lia.
Qed.

Lemma rotation_NoDup Dc nter numb : numb <= Dc -> NoDup (rotation Dc nter numb).
Proof.
  intros Hle. unfold rotation. apply NoDup_fmap_2_strong; [|apply NoDup_seq].
  intros k1 k2 [H1 H1']%elem_of_seq [H2 H2']%elem_of_seq E.
  pose proof (Nat.div_mod_eq (nter + k1) Dc) as E1.
  pose proof (Nat.div_mod_eq (nter + k2) Dc) as E2.
  rewrite E in E1.
  generalize dependent ((nter + k1) / Dc). intros q1 E1.
  generalize dependent ((nter + k2) / Dc). intros q2 E2.
  generalize dependent ((nter + k2) mod Dc). intros r _ E1 E2.
  destruct (Nat.lt_trichotomy q1 q2) as [H|[H|H]]; [|subst; lia|].
  - assert (Dc * q1 + Dc <= Dc * q2) by nia. lia.
  - assert (Dc * q2 + Dc <= Dc * q1) by nia. lia.
Qed.

Lemma rotation_perm Dc nter : 0 < Dc -> rotation Dc nter Dc ≡ₚ seq 0 Dc.
Proof.
  intros Hpos. apply submseteq_length_Permutation.
  - apply NoDup_submseteq; [by apply rotation_NoDup|].
    intros x (k & -> & _)%list_elem_of_fmap. apply elem_of_seq.
    pose proof (Nat.mod_upper_bound (nter + k) Dc). lia.
  - unfold rotation. by rewrite length_map, !length_seq.
Qed.

Section Rotation.

Context {num : Type} `{!Numeric num} {rng_double : Type}.
Context (m_drng : rng_double -> num * rng_double).
Context (prob : problem.base num).

Lemma visit_dims Dc numb :
  forall nter s,
    exists new,
      moves (visit m_drng prob Dc numb nter s) = rev new ++ moves s /\
      map mv_dim new = rotation Dc nter numb.
Proof.
  induction numb as [|numb IH]; intros nter s.
  - exists []. done.
  - cbn [visit]. destruct (IH ((nter + 1) mod Dc)
      (move m_drng prob ((nter + 1) mod Dc) s)) as (new & E & Hd).
    destruct (move_moves m_drng prob ((nter + 1) mod Dc) s) as (m & Em & Hm).
    exists (m :: new). split.
    + rewrite E, Em. cbn [rev]. by rewrite <- app_assoc.
    + rewrite rotation_S. cbn [map]. by rewrite Hm, Hd.
Qed.

End Rotation.

Section Sweep.

Context {num : Type} `{!Numeric num} {rng_double : Type}.
Context (m_drng : rng_double -> num * rng_double).
Context (prob : problem.base num).

(** X12.  A sweep visits every continuous component exactly once: it makes
    [Dc] moves, on the components that follow the drawn one in rotation
    (modulo [Dc]), so that the components moved are a permutation of
    0, ..., [Dc] - 1. *)
Theorem sweep_visits_each_once (Dc : nat)
  (s : state (num := num) (rng_double := rng_double)) :
  0 < Dc ->
  exists new,
    moves (sweep m_drng prob Dc s) = rev new ++ moves s /\
    map mv_dim new = rotation Dc (first_component m_drng Dc s) Dc /\
    map mv_dim new ≡ₚ seq 0 Dc.
Proof.
  intros Hpos. unfold sweep, first_component.
  destruct (m_drng (drng s)) as [d g1]. cbn [fst].
  destruct (visit_dims m_drng prob Dc Dc
    (Z.to_nat (ntrunc (nmul d (of_int (Z.of_nat Dc)))))
    (mkState (xNEW s) (xOLD s) (fNEW s) (fOLD s) (Step s) (acp s)
       (currentT s) g1 (moves s))) as (new & E & Hd).
  exists new. split; [exact E|]. split; [exact Hd|].
  rewrite Hd. by apply rotation_perm.
Qed.

Section Untouched.

Variable a : t (num := num).
Variable Dc : nat.
Variable x0 : decision_vector num.

Lemma beyond_main_loops n s :
  0 < Dc -> beyond Dc x0 s -> beyond Dc x0 (main_loops m_drng a prob Dc n s).
Proof.
  intros Hpos. apply (main_loops_keeps m_drng prob a Dc (beyond Dc x0)); [done| | | |].
  - intros nter s' Hn [Hl Hi]. unfold beyond.
    destruct (move_xOLD m_drng prob nter s') as [->|[c ->]]; [done|].
    split; [by rewrite length_insert|].
    intros i Hge. rewrite list_lookup_insert_ne by lia. by apply Hi.
  - intros s' g H. exact H.
  - intros iter s' _ H. exact H.
  - intros c s' H. exact H.
Qed.

End Untouched.

End Sweep.

(** *** The integer part *)

Section IntegerPart.

Context {num : Type} `{!Numeric num} {rng_double : Type}.
Context (m_drng : rng_double -> num * rng_double).
Context (set_x_evaluates : bool).

(** X13.  [evolve] keeps the number of individuals and the length of every
    decision vector, and never changes a component of the integer part:
    from the index [Dc] on, every decision vector is what it was. *)
Theorem evolve_keeps_integer_part (a : t) (pop : population.t num)
  (g : rng_double) r :
  evolve m_drng set_x_evaluates a pop g = Ok r ->
  length (population.m_container (ev_pop r))
  = length (population.m_container pop) /\
  forall j ind ind',
    population.m_container pop !! j = Some ind ->
    population.m_container (ev_pop r) !! j = Some ind' ->
    length (population.cur_x ind') = length (population.cur_x ind) /\
    forall i, continuous (population.problem pop) <= i ->
      population.cur_x ind' !! i = population.cur_x ind !! i.
Proof.
  intros (n & b & best & HD & _ & _ & _ & _ & _ & Hbest & ->)%evolve_Ok.
  cbn [ev_pop].
  set (s := final_state m_drng a pop best n g).
  assert (Hs : beyond (continuous (population.problem pop))
                 (population.cur_x best) s).
  { unfold s, final_state. apply beyond_main_loops; [unfold continuous; lia|].
    split; done. }
  destruct (problem.compare_fitness _ _ _).
  - cbn [population.m_container]. split; [by rewrite length_insert|].
    intros j ind ind' Hj Hj'. destruct (decide (j = b)) as [->|Hne].
    + rewrite Hbest in Hj. injection Hj as <-.
      rewrite list_lookup_insert_eq in Hj' by (by eapply lookup_lt_Some).
      injection Hj' as <-. cbn [written population.cur_x]. exact Hs.
    + rewrite list_lookup_insert_ne in Hj' by done.
      rewrite Hj in Hj'. by injection Hj' as <-.
  - split; [done|]. intros j ind ind' Hj Hj'.
    rewrite Hj in Hj'. by injection Hj' as <-.
Qed.

End IntegerPart.

(** *** The steps and the counters *)

Section Adapted.
Context {num : Type} `{!Numeric num}.

Lemma adjust_eq {rng_double : Type} (a : t (num := num)) iter
  (s : state (num := num) (rng_double := rng_double)) :
  adjust a iter s
  = mkState (xNEW s) (xOLD s) (fNEW s) (fOLD s)
      (<[iter := adapted a (vget (Step s) iter) (iget (acp s) iter)]> (Step s))
      (<[iter := 0%Z]> (acp s)) (currentT s) (drng s) (moves s).
Proof. reflexivity. Qed.

End Adapted.

Lemma iget_insert (l : list Z) n v i :
  iget (<[n := v]> l) i
  = if decide (i = n /\ n < length l) then v else iget l i.
Proof.
  unfold iget. destruct (decide _) as [[-> Hlt]|Hno].
  - by rewrite list_lookup_insert_eq.
  - destruct (decide (i = n)) as [->|Hne].
    + rewrite list_insert_ge by lia. done.
    + by rewrite list_lookup_insert_ne.
Qed.

Lemma vget_lookup {num : Type} `{!Numeric num} (l : list num) i c :
  l !! i = Some c -> vget l i = c.
Proof. intros H. unfold vget. by rewrite H. Qed.

Lemma vget_insert {num : Type} `{!Numeric num} (l : list num) n v i :
  vget (<[n := v]> l) i
  = if decide (i = n /\ n < length l) then v else vget l i.
Proof.
  unfold vget. destruct (decide _) as [[-> Hlt]|Hno].
  - by rewrite list_lookup_insert_eq.
  - destruct (decide (i = n)) as [->|Hne].
    + rewrite list_insert_ge by lia. done.
    + by rewrite list_lookup_insert_ne.
Qed.

Section Counters.

Context {num : Type} `{!Numeric num} {rng_double : Type}.
Context (m_drng : rng_double -> num * rng_double).
Context (prob : problem.base num).

Lemma move_counts nter (s : state (num := num) (rng_double := rng_double)) i :
  (i <> nter -> iget (acp (move m_drng prob nter s)) i = iget (acp s) i) /\
  (iget (acp s) i <= iget (acp (move m_drng prob nter s)) i
   <= iget (acp s) i + 1)%Z.
Proof.
  destruct (move_acp m_drng prob nter s) as [->| ->]; [split; [done | lia]|].
  rewrite iget_insert. destruct (decide _) as [[-> _]|_]; split; try done; lia.
Qed.

Lemma visit_counts Dc numb :
  forall nter (s : state (num := num) (rng_double := rng_double)) i,
    numb <= Dc ->
    (i ∉ rotation Dc nter numb ->
     iget (acp (visit m_drng prob Dc numb nter s)) i = iget (acp s) i) /\
    (iget (acp s) i <= iget (acp (visit m_drng prob Dc numb nter s)) i
     <= iget (acp s) i + 1)%Z.
Proof.
  induction numb as [|numb IH]; intros nter s i Hle.
  - cbn [visit]. split; [done | lia].
  - pose proof (rotation_NoDup Dc nter (S numb) Hle) as Hnd.
    rewrite rotation_S in Hnd |- *. apply NoDup_cons in Hnd as [Hfresh _].
    cbn [visit]. set (n' := (nter + 1) mod Dc) in *.
    destruct (IH n' (move m_drng prob n' s) i) as [IH1 IH2]; [lia|].
    destruct (move_counts n' s i) as [Hm1 Hm2].
    split.
    + intros Hi. apply not_elem_of_cons in Hi as [Hne Hi].
      rewrite IH1 by done. by apply Hm1.
    + destruct (decide (i = n')) as [->|Hne].
      * rewrite IH1 by done. exact Hm2.
      * rewrite <- Hm1 by done. exact IH2.
Qed.

Lemma sweep_counts Dc (s : state (num := num) (rng_double := rng_double)) i :
  (iget (acp s) i <= iget (acp (sweep m_drng prob Dc s)) i
   <= iget (acp s) i + 1)%Z /\
  Step (sweep m_drng prob Dc s) = Step s.
Proof.
  unfold sweep. destruct (m_drng (drng s)) as [d g1]. split.
  - set (s1 := mkState _ _ _ _ _ _ _ _ _).
    change (acp s) with (acp s1). apply (visit_counts Dc Dc _ s1 i). lia.
  - set (s1 := mkState _ _ _ _ _ _ _ _ _).
    change (Step s) with (Step s1). generalize s1.
    generalize (Z.to_nat (ntrunc (nmul d (of_int (Z.of_nat Dc))))).
    generalize Dc at 2. intros numb. induction numb as [|numb IH];
      intros nter s2; cbn [visit]; [done|].
    rewrite IH. apply move_frame.
Qed.

Lemma sweeps_counts Dc n (s : state (num := num) (rng_double := rng_double)) i :
  (iget (acp s) i <= iget (acp (Nat.iter n (sweep m_drng prob Dc) s)) i
   <= iget (acp s) i + Z.of_nat n)%Z /\
  Step (Nat.iter n (sweep m_drng prob Dc) s) = Step s.
Proof.
  induction n as [|n [IH1 IH2]]; [cbn; split; [lia | done]|].
  rewrite Nat.iter_succ.
  destruct (sweep_counts Dc (Nat.iter n (sweep m_drng prob Dc) s) i)
    as [H1 H2].
  split; [lia | congruence].
Qed.

(** Each adaptation reads the step and the counter that the stage left. *)
Lemma adjust_each (a : t (num := num)) (l : list nat) :
  NoDup l ->
  forall (s : state (num := num) (rng_double := rng_double)),
    let s' := foldl (fun s iter => adjust a iter s) s l in
    length (Step s') = length (Step s) /\
    length (acp s') = length (acp s) /\
    forall i,
      (i ∈ l ->
       vget (Step s') i
       = (if decide (i < length (Step s))
          then adapted a (vget (Step s) i) (iget (acp s) i)
          else vget (Step s) i) /\
       iget (acp s') i = 0%Z) /\
      (i ∉ l -> Step s' !! i = Step s !! i /\ acp s' !! i = acp s !! i).
Proof.
  induction l as [|j l IH]; intros Hnd s; cbn zeta.
  - cbn [foldl]. split; [done|]. split; [done|]. intros i. split; [|done].
    intros Hi. by apply elem_of_nil in Hi.
  - apply NoDup_cons in Hnd as [Hj Hnd]. cbn [foldl].
    assert (ES : Step (adjust a j s)
                 = <[j := adapted a (vget (Step s) j) (iget (acp s) j)]>
                     (Step s)) by reflexivity.
    assert (EA : acp (adjust a j s) = <[j := 0%Z]> (acp s)) by reflexivity.
    destruct (IH Hnd (adjust a j s)) as (Hl1 & Hl2 & Hi).
    generalize dependent (foldl (fun s iter => adjust a iter s)
                            (adjust a j s) l).
    generalize dependent (adjust a j s). intros s1 ES EA s' Hl1 Hl2 Hi.
    rewrite ES in Hl1, Hi. rewrite EA in Hl2, Hi.
    rewrite length_insert in Hl1. rewrite length_insert in Hl2.
    split; [done|]. split; [done|]. intros i.
    destruct (Hi i) as [Hin Hout]. split.
    + intros [->|Hil]%elem_of_cons.
      * destruct (Hout Hj) as [E1 E2].
        assert (V1 : vget (Step s') j
                     = vget (<[j := adapted a (vget (Step s) j)
                                      (iget (acp s) j)]> (Step s)) j)
          by (unfold vget; f_equal; exact E1).
        assert (I1 : iget (acp s') j = iget (<[j := 0%Z]> (acp s)) j)
          by (unfold iget; f_equal; exact E2).
        rewrite V1, I1, vget_insert, iget_insert. split.
        -- destruct (decide (j < length (Step s))) as [Hlt|Hge];
             destruct (decide (j = j /\ _)) as [[_ ?]|Hno]; try done; try lia.
        -- destruct (decide (j = j /\ j < length (acp s))) as [_|Hno]; [done|].
           unfold iget. rewrite lookup_ge_None_2; [done|]. lia.
      * destruct (Hin Hil) as [E1 E2]. split; [|done].
        assert (Hne : i <> j) by (intros ->; done).
        rewrite E1, length_insert, vget_insert, iget_insert.
        destruct (decide (i = j /\ _)) as [[? _]|_]; [done|].
        destruct (decide (i = j /\ _)) as [[? _]|_]; [done|]. done.
    + intros [Hne Hil]%not_elem_of_cons. destruct (Hout Hil) as [E1 E2].
      rewrite E1, E2. by rewrite !list_lookup_insert_ne.
Qed.

End Counters.

Section Steps.

Context (qexp : Q -> Q) (qpow : Q -> Q -> Q).
Local Hint Extern 0 (Numeric Q) => exact (QNumeric qexp qpow)
  : typeclass_instances.

Lemma adapted_in_range (a : t (num := Q)) st n :
  (0 <= st)%Q -> (st <= m_range a)%Q ->
  (0 <= adapted a st n)%Q /\ (adapted a st n <= m_range a)%Q /\
  ((0 < st)%Q -> (0 < adapted a st n)%Q).
Proof.
  intros H0 Hr. unfold adapted. cbn [lit nlt nmul ndiv nadd nsub QNumeric].
  set (ratio := (of_int n / of_int (m_niterR a))%Q).
  assert (Hst1 : exists st1,
    (if Qltb 0.6 ratio
     then (st * (1 + 2 * (ratio - 0.6) / 0.4))%Q
     else if Qltb ratio 0.4
          then (st / (1 + 2 * ((0.4 - ratio) / 0.4)))%Q
          else st) = st1 /\ (0 <= st1)%Q /\ ((0 < st)%Q -> (0 < st1)%Q)).
  { destruct (Qltb 0.6 ratio) eqn:Hhi.
    - apply Qltb_lt in Hhi. eexists. split; [reflexivity|].
      assert (Hf : (1 <= 1 + 2 * (ratio - 0.6) / 0.4)%Q).
      { assert (0 <= 2 * (ratio - 0.6) / 0.4)%Q; [|lra].
        apply Qle_shift_div_l; lra. }
      split; [apply Qmult_le_0_compat; lra|].
      intros Hpos. apply Qmult_lt_0_compat; lra.
    - destruct (Qltb ratio 0.4) eqn:Hlo; [|by eexists].
      apply Qltb_lt in Hlo. eexists. split; [reflexivity|].
      assert (Hf : (1 <= 1 + 2 * ((0.4 - ratio) / 0.4))%Q).
      { assert (0 <= (0.4 - ratio) / 0.4)%Q; [|lra].
        apply Qle_shift_div_l; lra. }
      split.
      + apply Qle_shift_div_l; lra.
      + intros Hpos. apply Qlt_shift_div_l; lra. }
  destruct Hst1 as (st1 & -> & H1 & H1').
  destruct (Qltb (m_range a) st1) eqn:Hc.
  - split; [lra|]. split; [lra|]. intros; lra.
  - apply Qltb_ge in Hc. split; [done|]. split; [done|]. exact H1'.
Qed.

Lemma ratio_unit (n R : Z) :
  (0 <= n <= R)%Z -> (1 <= R)%Z ->
  (0 <= of_int n / of_int R)%Q /\ (of_int n / of_int R <= 1)%Q.
Proof.
  intros Hn HR. unfold of_int. cbn [lit QNumeric].
  assert (0 < inject_Z R)%Q.
  { change 0%Q with (inject_Z 0). rewrite <- Zlt_Qlt. lia. }
  assert (0 <= inject_Z n)%Q.
  { change 0%Q with (inject_Z 0). rewrite <- Zle_Qle. lia. }
  assert (inject_Z n <= inject_Z R)%Q by (rewrite <- Zle_Qle; lia).
  split.
  - apply Qle_shift_div_l; lra.
  - apply Qle_shift_div_r; lra.
Qed.

Lemma adapted_factor (a : t (num := Q)) st n :
  (0 <= st)%Q -> (st <= m_range a)%Q ->
  (0 <= n <= m_niterR a)%Z -> (1 <= m_niterR a)%Z ->
  (st / 3 <= adapted a st n)%Q /\ (adapted a st n <= 3 * st)%Q.
Proof.
  intros H0 Hr Hn HR. unfold adapted.
  destruct (ratio_unit n (m_niterR a) Hn HR) as [Hr0 Hr1].
  cbn [lit nlt nmul ndiv nadd nsub QNumeric].
  set (ratio := (of_int n / of_int (m_niterR a))%Q) in *.
  assert (H3 : (st / 3 <= st)%Q) by (apply Qle_shift_div_r; lra).
  assert (Hst1 : exists st1,
    (if Qltb 0.6 ratio
     then (st * (1 + 2 * (ratio - 0.6) / 0.4))%Q
     else if Qltb ratio 0.4
          then (st / (1 + 2 * ((0.4 - ratio) / 0.4)))%Q
          else st) = st1 /\ (st / 3 <= st1)%Q /\ (st1 <= 3 * st)%Q).
  { destruct (Qltb 0.6 ratio) eqn:Hhi.
    - apply Qltb_lt in Hhi. eexists. split; [reflexivity|].
      assert (Hf1 : (0 <= 2 * (ratio - 0.6) / 0.4)%Q)
        by (apply Qle_shift_div_l; lra).
      assert (Hf2 : (2 * (ratio - 0.6) / 0.4 <= 2)%Q)
        by (apply Qle_shift_div_r; lra).
      generalize dependent (2 * (ratio - 0.6) / 0.4)%Q. intros f Hf1 Hf2.
      split; nra.
    - destruct (Qltb ratio 0.4) eqn:Hlo; [|eexists; split; [reflexivity|lra]].
      apply Qltb_lt in Hlo. eexists. split; [reflexivity|].
      assert (Hf1 : (0 <= (0.4 - ratio) / 0.4)%Q)
        by (apply Qle_shift_div_l; lra).
      assert (Hf2 : ((0.4 - ratio) / 0.4 <= 1)%Q)
        by (apply Qle_shift_div_r; lra).
      generalize dependent ((0.4 - ratio) / 0.4)%Q. intros f Hf1 Hf2.
      split.
      + apply Qle_shift_div_l; [lra|]. 
        assert (E : (st / 3 * (1 + 2 * f) == st * ((1 + 2 * f) / 3))%Q)
          by (field).
        rewrite E. assert ((1 + 2 * f) / 3 <= 1)%Q
          by (apply Qle_shift_div_r; lra).
        generalize dependent ((1 + 2 * f) / 3)%Q. intros; nra.
      + apply Qle_shift_div_r; [lra|]. nra. }
  destruct Hst1 as (st1 & -> & H1 & H1').
  destruct (Qltb (m_range a) st1) eqn:Hc.
  - apply Qltb_lt in Hc. split; lra.
  - split; done.
Qed.

Context {rng_double : Type} (m_drng : rng_double -> Q * rng_double).
Context (prob : problem.base Q).

Lemma steps_in_range_adjust a D iter
  (s : state (num := Q) (rng_double := rng_double)) :
  steps_in_range a D s -> steps_in_range a D (adjust a iter s).
Proof.
  intros [Hl Hs]. rewrite adjust_eq. split; cbn [Step].
  { by rewrite length_insert. }
  intros i st Hi. destruct (decide (i = iter)) as [->|Hne].
  - assert (Hlt : iter < length (Step s)).
    { apply lookup_lt_Some in Hi. by rewrite length_insert in Hi. }
    rewrite list_lookup_insert_eq in Hi by done. injection Hi as <-.
    destruct (lookup_lt_is_Some_2 _ _ Hlt) as [st0 H0].
    destruct (Hs _ _ H0) as (H1 & H2 & H3).
    assert (E : vget (Step s) iter = st0) by (apply vget_lookup, H0).
    rewrite E.
    destruct (adapted_in_range a st0 (iget (acp s) iter) H1 H2)
      as (A1 & A2 & A3).
    split; [done|]. split; [done|]. intros Hr. apply A3, H3, Hr.
  - rewrite list_lookup_insert_ne in Hi by done. by apply (Hs i).
Qed.

(** X14.  Over the rationals, for an algorithm built by the constructor
    (so that 0 <= range <= 1): after any number of rounds of the main loops
    there are still [D] steps, each between 0 and [range], and positive if
    [range] is. *)
Theorem steps_stay_in_range niter (Ts Tf : Q) niterT niterR range a
  (Dc D : nat) (n : Z) x0 fit0 (g : rng_double) :
  sa_corana (Numeric0 := QNumeric qexp qpow) niter Ts Tf niterT niterR range
  = Ok a ->
  0 < Dc ->
  (0 <= range)%Q /\ (range <= 1)%Q /\
  length (Step (main_loops m_drng a prob Dc n (initial a D x0 fit0 g))) = D /\
  forall i st,
    Step (main_loops m_drng a prob Dc n (initial a D x0 fit0 g)) !! i = Some st ->
    (0 <= st)%Q /\ (st <= range)%Q /\ ((0 < range)%Q -> (0 < st)%Q).
Proof.
  intros Ha Hpos.
  apply sa_corana_Ok in Ha as (-> & _ & _ & _ & _ & _ & _ & Hr0 & Hr1).
  cbn [nlt lit QNumeric] in Hr0, Hr1.
  apply Qltb_ge in Hr0, Hr1. split; [done|]. split; [done|].
  apply (main_loops_keeps m_drng prob _ Dc
           (steps_in_range (mkAlgorithm niter Ts Tf niterT niterR range) D)
           Hpos).
  - intros nter s _ H. unfold steps_in_range.
    by destruct (move_frame m_drng prob nter s) as [-> _].
  - intros s g' H. exact H.
  - intros iter s _. apply steps_in_range_adjust.
  - intros c s H. exact H.
  - split; cbn [initial Step m_range]; [by rewrite length_replicate|].
    intros i st [-> _]%lookup_replicate. split; [done|].
    split; [apply Qle_refl | done].
Qed.

(** X15.  Over the rationals, a stage that starts with the counters of the
    continuous components at 0 and every step between 0 and [m_range] ends
    with these counters at 0 again and every step between 0 and [m_range];
    the step of a continuous component is divided or multiplied by at most
    3, and the steps of the integer part are not touched. *)
Theorem stage_adapts_within_factor_3 (a : t (num := Q)) (Dc : nat)
  (s : state (num := Q) (rng_double := rng_double)) :
  (1 <= m_niterR a)%Z ->
  (forall i, i < Dc -> iget (acp s) i = 0%Z) ->
  (forall i st, Step s !! i = Some st -> (0 <= st)%Q /\ (st <= m_range a)%Q) ->
  (forall i, i < Dc -> iget (acp (stage m_drng a prob Dc s)) i = 0%Z) /\
  forall i st, Step s !! i = Some st ->
    exists st', Step (stage m_drng a prob Dc s) !! i = Some st' /\
      (0 <= st')%Q /\ (st' <= m_range a)%Q /\
      (i < Dc -> (st / 3 <= st')%Q /\ (st' <= 3 * st)%Q) /\
      (Dc <= i -> st' = st).
Proof.
  intros HR Hacp Hstep. unfold stage.
  set (s1 := Nat.iter (Z.to_nat (m_niterR a)) (sweep m_drng prob Dc) s).
  assert (H1 : forall i,
    (iget (acp s) i <= iget (acp s1) i
     <= iget (acp s) i + m_niterR a)%Z /\ Step s1 = Step s).
  { intros i.
    destruct (sweeps_counts m_drng prob Dc (Z.to_nat (m_niterR a)) s i) as [A B].
    rewrite Z2Nat.id in A by lia. done. }
  unfold adjust_all.
  destruct (adjust_each a (seq 0 Dc) (NoDup_seq _ _) s1) as (Hl1 & Hl2 & Hi).
  set (s' := foldl _ _ _) in *. split.
  - intros i Hlt. destruct (Hi i) as [Hin _]. apply Hin. apply elem_of_seq. lia.
  - intros i st Hst. destruct (H1 i) as [Hc ES]. rewrite ES in Hl1, Hi.
    assert (Hlt : i < length (Step s)) by (by eapply lookup_lt_Some).
    destruct (lookup_lt_is_Some_2 (Step s') i) as [st' Hst']; [lia|].
    exists st'. split; [done|].
    assert (Ev : vget (Step s) i = st) by (apply vget_lookup, Hst).
    assert (Ev' : vget (Step s') i = st') by (apply vget_lookup, Hst').
    destruct (Hstep i st Hst) as [Hs0 Hs1].
    destruct (Hi i) as [Hin Hout].
    destruct (decide (i < Dc)) as [Hd|Hd].
    + destruct Hin as [E _]; [apply elem_of_seq; lia|].
      rewrite Ev in E. destruct (decide _); [|lia].
      rewrite E in Ev'. subst st'.
      destruct (adapted_in_range a st (iget (acp s1) i) Hs0 Hs1)
        as (A1 & A2 & _).
      split; [done|]. split; [done|]. split; [|lia]. intros _.
      apply adapted_factor; try done. rewrite (Hacp i Hd) in Hc. lia.
    + destruct Hout as [E _]; [rewrite elem_of_seq; lia|].
      assert (st' = st) as ->.
      { unfold decision_vector in *. rewrite Hst', Hst in E. congruence. }
      split; [done|]. split; [done|]. split; [lia | done].
Qed.

End Steps.

(** *** The temperature *)

Section Temperature.

Context {num : Type} `{!Numeric num} {rng_double : Type}.
Context (m_drng : rng_double -> num * rng_double).
Context (prob : problem.base num).

Lemma stage_keeps_currentT (a : t (num := num)) Dc
  (s : state (num := num) (rng_double := rng_double)) :
  currentT (stage m_drng a prob Dc s) = currentT s.
Proof.
  apply (stage_preserves m_drng prob a (fun s' => currentT s' = currentT s));
    [| |done].
  - intros nter s' <-. apply move_frame.
  - intros s' st ac g H. exact H.
Qed.

Lemma anneal_currentT (a : t (num := num)) Dc c
  (s : state (num := num) (rng_double := rng_double)) :
  currentT (anneal m_drng a prob Dc c s) = nmul (currentT s) c.
Proof.
  unfold anneal. cbn [cool currentT]. f_equal.
  apply (iter_preserves (fun s' => currentT s' = currentT s)); [|done].
  intros s' <-. apply stage_keeps_currentT.
Qed.

(** X16.  The temperature starts at [Ts]; no move and no adjustment of a
    step changes it; a round of the outer loop multiplies it once, by
    [Tcoeff], as its last action; so after the main loops it is [Ts]
    multiplied [niterOuter] times by [Tcoeff], in the arithmetic of the
    numbers. *)
Theorem temperature_schedule (a : t (num := num)) (Dc D : nat) (n : Z)
  x0 fit0 (g : rng_double) :
  currentT (initial a D x0 fit0 g) = m_Ts a /\
  (forall nter s, currentT (move m_drng prob nter s) = currentT s) /\
  (forall iter (s : state (num := num) (rng_double := rng_double)),
     currentT (adjust a iter s) = currentT s) /\
  (forall c s,
     currentT (anneal m_drng a prob Dc c s) = nmul (currentT s) c) /\
  currentT (main_loops m_drng a prob Dc n (initial a D x0 fit0 g))
  = Nat.iter (Z.to_nat n) (fun T => nmul T (Tcoeff a n)) (m_Ts a).
Proof.
  split; [reflexivity|]. split; [intros nter s; apply move_frame|].
  split; [reflexivity|]. split; [intros c s; apply anneal_currentT|].
  unfold main_loops. generalize (Tcoeff a n). intros c.
  induction (Z.to_nat n) as [|j IH]; [reflexivity|].
  rewrite !Nat.iter_succ, anneal_currentT, IH. reflexivity.
Qed.

End Temperature.

(** *** The tests of [evolve] *)

Section Errors.

Context {num : Type} `{!Numeric num} {rng_double : Type}.
Context (m_drng : rng_double -> num * rng_double).
Context (set_x_evaluates : bool).

(** X17.  The tests of [evolve], in their order: a problem without a
    continuous part is rejected first, then a problem with constraints, then
    a problem with several objectives, each with its own message, whatever
    the population; and for periods of at least 1 whose round fits, a budget
    below one round of the outer loop is rejected with "niterOuter is zero,
    increase niter". *)
Theorem evolve_rejects (a : t) (pop : population.t num) (g : rng_double) :
  (continuous (population.problem pop) = 0 ->
   evolve m_drng set_x_evaluates a pop g
   = Throw (value_error "There is no continuous part in the problem decision vector for sa_corana to optimise")) /\
  (continuous (population.problem pop) <> 0 ->
   problem.get_c_dimension (population.problem pop) <> 0 ->
   evolve m_drng set_x_evaluates a pop g
   = Throw (value_error "The problem is not box constrained and sa_corana is not suitable to solve it")) /\
  (continuous (population.problem pop) <> 0 ->
   problem.get_c_dimension (population.problem pop) = 0 ->
   problem.get_f_dimension (population.problem pop) <> 1 ->
   evolve m_drng set_x_evaluates a pop g
   = Throw (value_error "The problem is not single objective and sa_corana is not suitable to solve it")) /\
  (continuous (population.problem pop) <> 0 ->
   problem.get_c_dimension (population.problem pop) = 0 ->
   problem.get_f_dimension (population.problem pop) = 1 ->
   (1 <= m_niterT a)%Z -> (1 <= m_niterR a)%Z ->
   (m_niterT a * m_niterR a <= INT_MAX)%Z ->
   (schedule a (population.problem pop) < SIZE_MOD)%Z ->
   (0 <= m_niter a < schedule a (population.problem pop))%Z ->
   evolve m_drng set_x_evaluates a pop g
   = Throw (value_error "niterOuter is zero, increase niter")).
Proof.
  unfold schedule, continuous, evolve. cbv zeta.
  set (Dc := problem.get_dimension (population.problem pop)
             - problem.get_i_dimension (population.problem pop)).
  split; [intros ->; reflexivity|].
  split; [intros HD Hc|split; [intros HD Hc Hf|
          intros HD Hc Hf HT HR Hint Hsize Hbudget]].
  - destruct (Nat.eqb_spec Dc 0); [done|].
    destruct (Nat.eqb_spec (problem.get_c_dimension (population.problem pop)) 0);
      done.
  - destruct (Nat.eqb_spec Dc 0); [done|]. rewrite Hc. cbn [Nat.eqb negb].
    destruct (Nat.eqb_spec (problem.get_f_dimension (population.problem pop)) 1);
      done.
  - destruct (Nat.eqb_spec Dc 0); [done|]. rewrite Hc, Hf. cbn [Nat.eqb negb].
    rewrite niterOuter_positive_periods by (try done; lia). cbn [obind].
    rewrite Z.div_small by lia. reflexivity.
Qed.

End Errors.

(** *** The point written back *)

Section Fresh.

Context {num : Type} `{!Numeric num} {rng_double : Type}.
Context (m_drng : rng_double -> num * rng_double).
Context (set_x_evaluates : bool).

Lemma cached_main_loops (a : t) prob Dc n x0 fit0 s :
  cached prob x0 fit0 s ->
  cached prob x0 fit0 (main_loops m_drng a prob Dc n s).
Proof.
  apply main_loops_preserves.
  - intros nter s' [Heq Hc]. rewrite (move_cases m_drng prob nter s' Heq).
    cbv zeta. destruct (outside prob nter _); [split; cbn; auto|].
    destruct (problem.compare_fitness prob _ _); [split; cbn; auto|].
    destruct (nlt _ _); split; cbn; auto.
  - intros s' st ac g H. exact H.
  - intros s' H. exact H.
Qed.

(** X18.  For a comparison that never prefers a fitness to itself: when
    [evolve] returns, the population is as it was, or the best individual
    alone was written, with a point [x] whose value by the objective
    function is strictly preferred to the fitness the individual had; the
    fitness stored with [x] is that value only if [set_x] evaluates. *)
Theorem evolve_writes_a_better_point (a : t) (pop : population.t num)
  (g : rng_double) r :
  (forall f, problem.compare_fitness (population.problem pop) f f = false) ->
  evolve m_drng set_x_evaluates a pop g = Ok r ->
  exists b best,
    population.get_best_idx pop = Ok b /\
    population.m_container pop !! b = Some best /\
    (ev_pop r = pop \/
     exists x,
       ev_pop r
       = population.mkPopulation (population.problem pop)
           (<[b := population.mkIndividual x (zip_with nsub x x)
                     (if set_x_evaluates
                      then problem.objfun (population.problem pop) x
                      else population.cur_f best)]>
              (population.m_container pop)) /\
       problem.compare_fitness (population.problem pop)
         (problem.objfun (population.problem pop) x) (population.cur_f best)
       = true).
Proof.
  intros Hirr (n & b & best & _ & _ & _ & _ & _ & Hb & Hbest & ->)%evolve_Ok.
  exists b, best. split; [done|]. split; [done|]. cbn [ev_pop].
  set (s := final_state m_drng a pop best n g).
  assert (Hs : cached (population.problem pop) (population.cur_x best)
                 (population.cur_f best) s).
  { unfold s, final_state. apply cached_main_loops. split; cbn; auto. }
  destruct (problem.compare_fitness _ (fOLD s) _) eqn:Hc; [|by left].
  right. exists (xOLD s). split; [reflexivity|].
  destruct Hs as [_ [[Hf _]|Hf]].
  - rewrite Hf, Hirr in Hc. discriminate.
  - by rewrite <- Hf.
Qed.

End Fresh.

(** *** The properties at runs of the code *)

Lemma nine_moves_constructed :
  sa_corana (Numeric0 := Qdemo) 9 10%Q 0.1%Q 2 2 0.5%Q = Ok nine_moves.
Proof. vm_compute. reflexivity. Qed.

Lemma evolve_budget_witness :
  exists r,
    evolve (Numeric0 := Qdemo) (cycle six_draws) false nine_moves pop1 0%nat
    = Ok r /\
    length (ev_moves r) = 8 /\
    (1 <= schedule nine_moves sphere1 <= m_niter nine_moves)%Z /\
    Z.of_nat (length (ev_moves r))
    = (m_niter nine_moves / schedule nine_moves sphere1
       * schedule nine_moves sphere1)%Z /\
    (Z.of_nat (length (ev_moves r)) <= m_niter nine_moves)%Z /\
    (m_niter nine_moves - Z.of_nat (length (ev_moves r))
     < schedule nine_moves sphere1)%Z.
Proof.
  destruct (evolve (Numeric0 := Qdemo) (cycle six_draws) false nine_moves pop1
              0%nat) as [r| |] eqn:Hrun;
    [|vm_compute in Hrun; discriminate..].
  exists r. split; [reflexivity|]. split.
  { vm_compute in Hrun. injection Hrun as <-. reflexivity. }
  apply (evolve_budget (Numeric0 := Qdemo) (cycle six_draws) false
           9 10%Q 0.1%Q 2 2 0.5%Q nine_moves pop1 0%nat r
           nine_moves_constructed Hrun).
  vm_compute. reflexivity.
Defined.

Lemma sweep_visits_each_once_witness :
  first_component (Numeric0 := Qdemo) (cycle six_draws) 2 start2 = 0 /\
  exists new,
    moves (sweep (Numeric0 := Qdemo) (cycle six_draws) sphere2 2 start2)
    = rev new ++ moves start2 /\
    map mv_dim new
    = rotation 2 (first_component (Numeric0 := Qdemo) (cycle six_draws) 2
                    start2) 2 /\
    map mv_dim new ≡ₚ seq 0 2.
Proof.
  split; [vm_compute; reflexivity|].
  apply (sweep_visits_each_once (Numeric0 := Qdemo) (cycle six_draws) sphere2
           2 start2).
  lia.
Defined.

Lemma evolve_keeps_integer_part_witness :
  exists r,
    evolve (Numeric0 := Qdemo) (cycle [0; 1 # 4]%Q) true one_move pop1 0%nat
    = Ok r /\
    length (population.m_container (ev_pop r))
    = length (population.m_container pop1) /\
    forall j ind ind',
      population.m_container pop1 !! j = Some ind ->
      population.m_container (ev_pop r) !! j = Some ind' ->
      length (population.cur_x ind') = length (population.cur_x ind) /\
      forall i, continuous (population.problem pop1) <= i ->
        population.cur_x ind' !! i = population.cur_x ind !! i.
Proof.
  destruct (evolve (Numeric0 := Qdemo) (cycle [0; 1 # 4]%Q) true one_move pop1
              0%nat) as [r| |] eqn:Hrun;
    [|vm_compute in Hrun; discriminate..].
  exists r. split; [reflexivity|].
  exact (evolve_keeps_integer_part (Numeric0 := Qdemo) (cycle [0; 1 # 4]%Q)
           true one_move pop1 0%nat r Hrun).
Defined.

Lemma steps_stay_in_range_witness :
  (0 <= 0.5)%Q /\ (0.5 <= 1)%Q /\
  length (Step (main_loops (Numeric0 := Qdemo) (cycle six_draws) nine_moves
                  sphere1 1 2 (initial nine_moves 1 [3]%Q [9]%Q 0%nat))) = 1 /\
  forall i st,
    Step (main_loops (Numeric0 := Qdemo) (cycle six_draws) nine_moves
            sphere1 1 2 (initial nine_moves 1 [3]%Q [9]%Q 0%nat)) !! i
    = Some st ->
    (0 <= st)%Q /\ (st <= 0.5)%Q /\ ((0 < 0.5)%Q -> (0 < st)%Q).
Proof.
  apply (steps_stay_in_range (fun x => 1 + x)%Q (fun b _ => b)
           (cycle six_draws) sphere1 9 10%Q 0.1%Q 2 2 0.5%Q nine_moves
           1 1 2 [3]%Q [9]%Q 0%nat nine_moves_constructed).
  lia.
Defined.

Lemma stage_adapts_within_factor_3_witness :
  (forall i, i < 1 ->
     iget (acp (stage (Numeric0 := Qdemo) (cycle six_draws) nine_moves
                  sphere1 1 (initial nine_moves 1 [3]%Q [9]%Q 0%nat))) i
     = 0%Z) /\
  forall i st,
    Step (initial nine_moves 1 [3]%Q [9]%Q 0%nat) !! i = Some st ->
    exists st',
      Step (stage (Numeric0 := Qdemo) (cycle six_draws) nine_moves sphere1 1
              (initial nine_moves 1 [3]%Q [9]%Q 0%nat)) !! i = Some st' /\
      (0 <= st')%Q /\ (st' <= m_range nine_moves)%Q /\
      (i < 1 -> (st / 3 <= st')%Q /\ (st' <= 3 * st)%Q) /\
      (1 <= i -> st' = st).
Proof.
  apply (stage_adapts_within_factor_3 (fun x => 1 + x)%Q (fun b _ => b)
           (cycle six_draws) sphere1 nine_moves 1
           (initial nine_moves 1 [3]%Q [9]%Q 0%nat)).
  - cbn. lia.
  - intros i Hi. destruct i; [reflexivity | lia].
  - intros [|i] st; cbn; [|discriminate]. intros [= <-].
    split; discriminate.
Defined.

Lemma evolve_rejects_witness :
  evolve (Numeric0 := Qdemo) (cycle six_draws) false
    (mkAlgorithm 3 10%Q 0.1%Q 2 2 0.5%Q) pop1 0%nat
  = Throw (value_error "niterOuter is zero, increase niter").
Proof.
  apply (evolve_rejects (Numeric0 := Qdemo) (cycle six_draws) false
           (mkAlgorithm 3 10%Q 0.1%Q 2 2 0.5%Q) pop1 0%nat);
    try (vm_compute; congruence); cbn; try lia; vm_compute; split; congruence.
Defined.

Lemma evolve_writes_a_better_point_witness :
  exists r,
    evolve (Numeric0 := Qdemo) (cycle [0; 1 # 4]%Q) false one_move pop1 0%nat
    = Ok r /\
    exists b best,
      population.get_best_idx pop1 = Ok b /\
      population.m_container pop1 !! b = Some best /\
      (ev_pop r = pop1 \/
       exists x,
         ev_pop r
         = population.mkPopulation (population.problem pop1)
             (<[b := population.mkIndividual x
                       (zip_with (nsub (Numeric := Qdemo)) x x)
                       (population.cur_f best)]>
                (population.m_container pop1)) /\
         problem.compare_fitness (population.problem pop1)
           (problem.objfun (population.problem pop1) x)
           (population.cur_f best)
         = true).
Proof.
  destruct (evolve (Numeric0 := Qdemo) (cycle [0; 1 # 4]%Q) false one_move pop1
              0%nat) as [r| |] eqn:Hrun;
    [|vm_compute in Hrun; discriminate..].
  exists r. split; [reflexivity|].
  exact (evolve_writes_a_better_point (Numeric0 := Qdemo) (cycle [0; 1 # 4]%Q)
           false one_move pop1 0%nat r
           (rank_irrefl _ (sphere_ranking 1 [-5]%Q [5]%Q)) Hrun).
Defined.

End SaCoranaMore.
